(** * expect.js: the tokenizer (lex.js), the html/js grammar (lex-htmljs.js),
    the token pattern engine (fregex.js), and the import rewriting and tag
    search of expect.js, embedded in Rocq.

    JavaScript strings are modelled as [string] (a sequence of 8-bit code
    units; code units above 255 are outside the model), arrays as [list],
    numbers that hold sizes and offsets as [nat], line and column numbers
    as [Z].  Module-level mutable state of a grammar is threaded through
    the tokenizer explicitly. *)

From Stdlib Require Import String Ascii List ZArith Lia Bool Arith DecimalString
  Sorted.
Import ListNotations.
Open Scope string_scope.

(* ================================================================== *)
(** * String primitives of the JavaScript runtime used by the sources *)
(* ================================================================== *)
Module JsString.

Definition LF : ascii := "010"%char.
Definition CR : ascii := "013"%char.

(** [s.slice(n)] for [n >= 0]. *)
Fixpoint drop (n : nat) (s : string) : string :=
  match n, s with
  | O, _ => s
  | S _, EmptyString => EmptyString
  | S n', String _ s' => drop n' s'
  end.

(** [s.slice(0, n)] for [n >= 0]. *)
Fixpoint take (n : nat) (s : string) : string :=
  match n, s with
  | O, _ => EmptyString
  | S _, EmptyString => EmptyString
  | S n', String c s' => String c (take n' s')
  end.

(** [s.slice(a, b)]: a negative bound counts from the end of the string,
    both bounds are clamped to [0 .. s.length], and the result is empty
    when the start is not before the end. *)
Definition slice (s : string) (a b : Z) : string :=
  let len := Z.of_nat (String.length s) in
  let clamp k := if (k <? 0)%Z then Z.max (len + k) 0 else Z.min k len in
  let from := clamp a in
  let to := clamp b in
  take (Z.to_nat (to - from)) (drop (Z.to_nat from) s).

(** [s.startsWith(p)]. *)
Definition startsWith (s p : string) : bool := String.prefix p s.

(** [(s.match(/\n/g) || []).length]. *)
Fixpoint count_nl (s : string) : nat :=
  match s with
  | EmptyString => O
  | String c s' => (if Ascii.eqb c LF then 1 else 0) + count_nl s'
  end.

(** Index of the last line feed of [s], if there is one. *)
Fixpoint last_nl (s : string) : option nat :=
  match s with
  | EmptyString => None
  | String c s' =>
      match last_nl s' with
      | Some i => Some (S i)
      | None => if Ascii.eqb c LF then Some O else None
      end
  end.

(** [s.lastIndexOf('\n')]: [-1] when [s] has no line feed. *)
Definition lastIndexOf_nl (s : string) : Z :=
  match last_nl s with
  | Some i => Z.of_nat i
  | None => (-1)%Z
  end.

(** [s.replace(/\r/g, '\\r').replace(/\n/g, '\\n')]. *)
Fixpoint escape_newlines (s : string) : string :=
  match s with
  | EmptyString => EmptyString
  | String c s' =>
      if Ascii.eqb c CR then String "\" (String "r" (escape_newlines s'))
      else if Ascii.eqb c LF then String "\" (String "n" (escape_newlines s'))
      else String c (escape_newlines s')
  end.

(** [list.join('')] on a list of strings. *)
Definition join (l : list string) : string := List.fold_right String.append "" l.

End JsString.
Import JsString.

(* ================================================================== *)
(** * lex.js *)
(* ================================================================== *)
Module Lex.

(** A token is a JavaScript [String] object: its characters are [text],
    and [Object.assign] adds [type], [mode], [line], [col] and, on a
    token that opened a sub-mode, [tokens]. *)
#[warnings="-register-all"]
Inductive Token : Type :=
  mkToken { text : string;
            type : string;
            mode : string;
            line : Z;
            col : Z;
            tokens : option (list Token) }.

(** [tokens.join('')]. *)
Definition join_tokens (l : list Token) : string := join (map text l).

(** The second element of a function rule's result: absent
    ([undefined]), [-1] (leave the mode) or a mode name (enter it). *)
Inductive MatchType : Type :=
| MUndefined
| MPop
| MMode (m : string).

(** JavaScript truthiness of a match type that is not [-1]: a mode name
    is truthy unless it is the empty string. *)
Definition enters (mt : MatchType) : option string :=
  match mt with
  | MMode m => if String.eqb m "" then None else Some m
  | _ => None
  end.

(** The error thrown at line 58, as the four values its message is built
    from ([message] below). *)
Record LexError : Type :=
  mkLexError { err_mode : string; err_line : Z; err_col : Z; err_msg : string }.

(** A line or column number written into a template literal. *)
Definition number_to_string (z : Z) : string := NilZero.string_of_int (Z.to_int z).

(** The message of the [Error] of line 58. *)
Definition message (e : LexError) : string :=
  let quote := String "034" "" in
  "Unknown token within " ++ quote ++ err_mode e ++ quote ++ " at "
  ++ number_to_string (err_line e) ++ ":" ++ number_to_string (err_col e)
  ++ String "013" (String "010" "") ++ quote ++ err_msg e ++ quote.

(** Which statement ended an invocation: [return [...result, token]]
    (line 65) or [return result] (line 82).  JavaScript hands the caller
    the array only; the tag is kept for stating theorems and is ignored
    by the caller at line 68. *)
Inductive Exit : Type := Ascended | EndOfInput.

(** How an invocation ends: it returns an array or throws.  [Timeout] is
    the model's own: the fuel of [lex_loop] ran out, which does not happen
    with the fuel [lex_from] supplies. *)
Inductive Outcome : Type :=
| Return (how : Exit) (result : list Token)
| Throw (e : LexError)
| Timeout.

Definition marker : string := "⚠️".

(** [(code.slice(index - 10, index) + marker + current.slice(0, 20))]
    with carriage returns and line feeds escaped (line 57). *)
Definition error_msg (code : string) (index : nat) : string :=
  escape_newlines
    (slice code (Z.of_nat index - 10) (Z.of_nat index)
     ++ marker ++ take 20 (drop index code)).

(** Lines 77 to 79: the position after a token that starts at
    [(line, col)]. *)
Definition advance (line col : Z) (token : string) : Z * Z :=
  let line' := (line + Z.of_nat (count_nl token))%Z in
  let lastLn := lastIndexOf_nl token in
  let col' :=
    ((if (lastLn >? -1)%Z then - lastLn else col)
     + Z.of_nat (String.length token))%Z in
  (line', col').

(** Line 63: the matched text with its attributes; its [mode] is the mode
    entered when the rule enters one. *)
Definition token_of (token type : string) (matchType : MatchType)
    (mode : string) (line col : Z) : Token :=
  mkToken token type
    (match enters matchType with Some m => m | None => mode end)
    line col None.

(** Line 69: the token that stands for a whole sub-mode. *)
Definition composite (type mode : string) (line col : Z)
    (tokens : list Token) : Token :=
  mkToken (join_tokens tokens) type mode line col (Some tokens).

Section WithGrammarState.

(** State captured by the grammar's rule functions (for a grammar of
    pure functions, [unit]). *)
Variable St : Type.

(** One grammar rule (the typedef [GrammarRule]).  A regular expression
    is used through [current.match(pattern)] only, so it is the function
    giving the matched text [m[0]], [None] for [null].  A function rule
    receives the code ahead, the code behind and the tokens of the
    current invocation; [None] stands for [undefined], [Some (t, mt)]
    for [[t]] or [[t, mt]]. *)
Inductive Pattern : Type :=
| PString (s : string)
| PRegExp (re : string -> option string)
| PFunction (f : string -> string -> list Token -> St ->
                 option (string * MatchType) * St).

(** A mode maps rule names to a rule or an array of rules (a single rule
    is the one-element array of line 44), in key order. *)
Definition Rules : Type := list (string * list Pattern).
Definition Grammar : Type := list (string * Rules).

(** [grammar[mode]]; iterating the keys of [undefined] visits nothing. *)
Fixpoint rules_of (grammar : Grammar) (mode : string) : Rules :=
  match grammar with
  | [] => []
  | (m, rules) :: rest =>
      if String.eqb m mode then rules else rules_of rest mode
  end.

(** Lines 46 to 51 for one pattern.  The token is returned as a string
    in which [""] stands for every falsy value ([undefined] or the empty
    string); patterns that are not functions leave [matchType] as it
    was. *)
Definition try_pattern (p : Pattern) (current behind : string)
    (result : list Token) (matchType : MatchType) (st : St)
  : string * MatchType * St :=
  match p with
  | PRegExp re =>
      (match re current with Some m => m | None => "" end, matchType, st)
  | PFunction f =>
      match f current behind result st with
      | (Some (t, mt), st') => (t, mt, st')
      | (None, st') => ("", MUndefined, st')
      end
  | PString s =>
      if startsWith current s then (s, matchType, st) else ("", matchType, st)
  end.

(** The inner loop of lines 45 to 54 over the alternatives of one rule:
    stops at the first truthy token. *)
Fixpoint try_value (value : list Pattern) (current behind : string)
    (result : list Token) (matchType : MatchType) (st : St)
  : string * MatchType * St :=
  match value with
  | [] => ("", matchType, st)
  | p :: value' =>
      let '(token, mt, st') := try_pattern p current behind result matchType st in
      if String.eqb token "" then try_value value' current behind result mt st'
      else (token, mt, st')
  end.

(** The labelled loop of lines 42 to 54 over the rules of the mode:
    [Some (type, token, matchType)] at the first truthy token, [None]
    when every rule was tried without one. *)
Fixpoint identify (rules : Rules) (current behind : string)
    (result : list Token) (matchType : MatchType) (st : St)
  : option (string * string * MatchType) * St :=
  match rules with
  | [] => (None, st)
  | (type, value) :: rules' =>
      let '(token, mt, st') := try_value value current behind result matchType st in
      if String.eqb token "" then identify rules' current behind result mt st'
      else (Some (type, token, mt), st')
  end.

(** The while loop of lines 36 to 82.  [fuel] bounds the number of
    iterations and nested invocations; [lex_from] supplies enough. *)
Fixpoint lex_loop (fuel : nat) (grammar : Grammar) (code : string)
    (mode : string) (result : list Token) (line col : Z) (index : nat)
    (st : St) : Outcome * St :=
  match fuel with
  | O => (Timeout, st)
  | S fuel' =>
      if Nat.ltb index (String.length code) then
        let current := drop index code in
        match identify (rules_of grammar mode) current (take index code)
                result MUndefined st with
        | (None, st1) =>
            (Throw (mkLexError mode line col (error_msg code index)), st1)
        | (Some (type, token, matchType), st1) =>
            let token1 := token_of token type matchType mode line col in
            let continue (tok : Token) (st' : St) :=
              lex_loop fuel' grammar code mode (result ++ [tok])
                (fst (advance line col (text tok)))
                (snd (advance line col (text tok)))
                (index + String.length (text tok)) st' in
            match matchType with
            | MPop => (Return Ascended (result ++ [token1]), st1)
            | _ =>
                match enters matchType with
                | Some m =>
                    match lex_loop fuel' grammar code m [] line
                            (col + Z.of_nat (String.length token))%Z
                            (index + String.length token) st1 with
                    | (Return _ inner, st2) =>
                        continue (composite type mode line col (token1 :: inner))
                          st2
                    | (other, st2) => (other, st2)
                    end
                | None => continue token1 st1
                end
            end
        end
      else (Return EndOfInput result, st)
  end.

(** Line 34: [mode || Object.keys(grammar)[0]].  With no key at all the
    mode is [undefined], which names no rules. *)
Definition start_mode (grammar : Grammar) (mode : option string) : string :=
  match mode with
  | Some m => if String.eqb m "" then
                match grammar with (m0, _) :: _ => m0 | [] => "undefined" end
              else m
  | None => match grammar with (m0, _) :: _ => m0 | [] => "undefined" end
  end.

(** [lex(grammar, code, mode, result, line, col, index)]. *)
Definition lex_from (grammar : Grammar) (code : string) (mode : option string)
    (result : list Token) (line col : Z) (index : nat) (st : St)
  : Outcome * St :=
  lex_loop (S (String.length code - index)) grammar code
    (start_mode grammar mode) result line col index st.

(** [lex(grammar, code, mode)] with the default [result=[]], [line=1],
    [col=1], [index=0]. *)
Definition lex (grammar : Grammar) (code : string) (mode : option string)
    (st : St) : Outcome * St :=
  lex_from grammar code mode [] 1%Z 1%Z 0 st.

End WithGrammarState.

Arguments PString {St} s.
Arguments PRegExp {St} re.
Arguments PFunction {St} f.
Arguments rules_of {St} grammar mode.
Arguments try_pattern {St}.
Arguments try_value {St}.
Arguments identify {St}.
Arguments lex_loop {St}.
Arguments start_mode {St}.
Arguments lex_from {St}.
Arguments lex {St}.

End Lex.

(* ================================================================== *)
(** * Regular expressions of the JavaScript runtime

    The grammar of lex-htmljs.js is written with regular expression
    literals.  They are embedded as syntax trees and run by a backtracking
    matcher in continuation-passing style, the way ECMAScript defines
    pattern matching.  Case folding under the [i] flag is modelled on ASCII
    letters. *)
(* ================================================================== *)
Module RegExp.

(** A member of a character class. *)
Inductive ClassAtom : Type :=
| CChar (c : ascii)
| CRange (lo hi : ascii)
| CWord        (* \w *)
| CDigit       (* \d *)
| CSpace       (* \s *)
| CNotSpace.   (* \S *)

Inductive Re : Type :=
| Empty
| Class (negated : bool) (atoms : list ClassAtom)   (* [..] and [^..] *)
| Dot                                               (* . *)
| Seq (a b : Re)
| Alt (a b : Re)                                    (* a|b *)
| Star (greedy : bool) (r : Re)                     (* r* and r*? *)
| Bol                                               (* ^ *)
| Eol                                               (* $ *)
| LookAhead (r : Re)                                (* (?=r) *)
| NotBehind (r : Re).                               (* (?<!r) *)

Definition Chr (c : ascii) : Re := Class false [CChar c].
Definition Plus (r : Re) : Re := Seq r (Star true r).     (* r+ *)
Definition Opt (r : Re) : Re := Alt r Empty.              (* r? *)
Definition AnyChar : Re := Class false [CSpace; CNotSpace]. (* [\s\S] *)

(** A literal run of characters. *)
Fixpoint Lit (s : string) : Re :=
  match s with
  | EmptyString => Empty
  | String c EmptyString => Chr c
  | String c s' => Seq (Chr c) (Lit s')
  end.

Definition code_in (lo hi : nat) (c : ascii) : bool :=
  Nat.leb lo (nat_of_ascii c) && Nat.leb (nat_of_ascii c) hi.

Definition is_space (c : ascii) : bool :=
  code_in 9 13 c || Ascii.eqb c " " || Ascii.eqb c "160".

Definition is_word (c : ascii) : bool :=
  code_in 97 122 c || code_in 65 90 c || code_in 48 57 c || Ascii.eqb c "_".

Definition atom_has (a : ClassAtom) (c : ascii) : bool :=
  match a with
  | CChar x => Ascii.eqb x c
  | CRange lo hi => code_in (nat_of_ascii lo) (nat_of_ascii hi) c
  | CWord => is_word c
  | CDigit => code_in 48 57 c
  | CSpace => is_space c
  | CNotSpace => negb (is_space c)
  end.

(** The other case of an ASCII letter; every other character is its own. *)
Definition swapcase (c : ascii) : ascii :=
  if code_in 97 122 c then ascii_of_nat (nat_of_ascii c - 32)
  else if code_in 65 90 c then ascii_of_nat (nat_of_ascii c + 32)
  else c.

Definition class_has (icase : bool) (atoms : list ClassAtom) (c : ascii) : bool :=
  existsb (fun a => atom_has a c || (icase && atom_has a (swapcase c))) atoms.

Definition is_line_terminator (c : ascii) : bool :=
  Ascii.eqb c LF || Ascii.eqb c CR.

(** [m icase r input pos k]: match [r] in [input] at offset [pos], then
    continue with [k] at the offset reached; backtracks into [r] when [k]
    fails.  The result is the end offset of the whole match. *)
Fixpoint m (icase : bool) (r : Re) (input : string) (pos : nat)
    (k : nat -> option nat) : option nat :=
  match r with
  | Empty => k pos
  | Class negated atoms =>
      match String.get pos input with
      | Some c => if xorb negated (class_has icase atoms c)
                  then k (S pos) else None
      | None => None
      end
  | Dot =>
      match String.get pos input with
      | Some c => if is_line_terminator c then None else k (S pos)
      | None => None
      end
  | Seq a b => m icase a input pos (fun p => m icase b input p k)
  | Alt a b =>
      match m icase a input pos k with
      | Some e => Some e
      | None => m icase b input pos k
      end
  | Star greedy r' =>
      (fix loop (n : nat) (pos : nat) {struct n} : option nat :=
         let again :=
           match n with
           | O => None
           | S n' => m icase r' input pos
                       (fun p => if Nat.ltb pos p then loop n' p else None)
           end in
         if greedy then
           match again with Some e => Some e | None => k pos end
         else
           match k pos with Some e => Some e | None => again end)
        (String.length input - pos) pos
  | Bol => if Nat.eqb pos 0 then k pos else None
  | Eol => if Nat.eqb pos (String.length input) then k pos else None
  | LookAhead r' =>
      match m icase r' input pos (fun p => Some p) with
      | Some _ => k pos
      | None => None
      end
  | NotBehind r' =>
      if existsb
           (fun start =>
              match m icase r' input start
                      (fun e => if Nat.eqb e pos then Some e else None) with
              | Some _ => true
              | None => false
              end)
           (seq 0 (S pos))
      then None else k pos
  end.

(** The first of the offsets [starts] at which [r] matches, with the text
    matched there. *)
Fixpoint leftmost (icase : bool) (r : Re) (input : string) (starts : list nat)
  : option string :=
  match starts with
  | [] => None
  | s :: rest =>
      match m icase r input s (fun e => Some e) with
      | Some e => Some (take (e - s) (drop s input))
      | None => leftmost icase r input rest
      end
  end.

(** [input.match(re)] for a regular expression without the [g] and [y]
    flags: the text of the leftmost match, [None] for [null]. *)
Definition exec (icase : bool) (r : Re) (input : string) : option string :=
  leftmost icase r input (seq 0 (S (String.length input))).

End RegExp.

(* ================================================================== *)
(** * lex-htmljs.js *)
(* ================================================================== *)
Module LexHtmlJs.
Import Lex RegExp.

(** The two counters declared at lines 8 and 9, in the block that
    encloses the grammar object. *)
Record Depths : Type := mkDepths { braceDepth : Z; templateDepth : Z }.

(** Their values when the module has just been loaded. *)
Definition loaded : Depths := mkDepths 0 0.

Definition Rule : Type := Pattern Depths.

Definition regexp (r : Re) : Rule := PRegExp (exec false r).
Definition regexp_i (r : Re) : Rule := PRegExp (exec true r).

(** A rule function that reads [code] only and touches no counter. *)
Definition pure (f : string -> option (string * MatchType)) : Rule :=
  PFunction (fun code _ _ st => (f code, st)).

Definition BACKTICK : ascii := "`"%char.
Definition DQUOTE : ascii := "034"%char.
Definition SQUOTE : ascii := "'"%char.
Definition BACKSLASH : ascii := "\"%char.

(** [code[0] === c]. *)
Definition first_is (code : string) (c : ascii) : bool :=
  match code with
  | String c0 _ => Ascii.eqb c0 c
  | EmptyString => false
  end.

(** [\xA0-\uFFFF], within the code units of the model. *)
Definition high : ClassAtom := CRange "160" "255".

(** Line 10: [/^[ \t\v\f\xa0]+/]. *)
Definition whitespace : Rule :=
  regexp (Seq Bol (Plus (Class false
    [CChar " "; CChar "009"; CChar "011"; CChar "012"; CChar "160"]))).

(** Line 11: [/^\r?\n/]. *)
Definition ln : Rule := regexp (Seq Bol (Seq (Opt (Chr CR)) (Chr LF))).

Section Options.

(** The properties [allowHashTemplates] and [allowUnknownTagTokens] of
    the grammar object (lines 188 and 189 give their defaults). *)
Variables allowHashTemplates allowUnknownTagTokens : bool.

(** Lines 14 to 24. *)
Definition expr : Rule :=
  PFunction (fun code _ _ st =>
    if (allowHashTemplates && startsWith code "#{") || startsWith code "${" then
      let st1 := if (templateDepth st <=? 0)%Z
                 then mkDepths (braceDepth st) 1 else st in
      let st2 := mkDepths 0 (templateDepth st1) in
      (Some (take 2 code, MMode "js"), st2)
    else (None, st)).

(** Lines 26 to 31. *)
Definition template : Rule :=
  PFunction (fun code _ _ st =>
    if first_is code BACKTICK then
      (Some ("`", MPop), mkDepths (braceDepth st) (templateDepth st - 1))
    else (None, st)).

(** Lines 33 to 37: [/^<!?[\-_\w\xA0-\uFFFF]*/i]. *)
Definition openTag (goInto : string) : Rule :=
  pure (fun code =>
    match exec true (Seq Bol (Seq (Chr "<") (Seq (Opt (Chr "!"))
            (Star true (Class false [CChar "-"; CChar "_"; CWord; high])))))
            code with
    | Some m0 => Some (m0, MMode goInto)
    | None => None
    end).

(** Lines 39 to 58. *)
Definition tag : Rules Depths :=
  [ ("attribute", [regexp_i (Seq Bol (Star true
        (Class false [CChar "-"; CChar "_"; CChar "$"; CWord; high])))]);
    ("string",
      [pure (fun code => if first_is code SQUOTE
                         then Some ("'", MMode "squote") else None);
       pure (fun code => if first_is code DQUOTE
                         then Some (String DQUOTE "", MMode "dquote") else None)]);
    ("equals", [PString "="]);
    ("template", [template]);
    ("tagEnd",
      [pure (fun code =>
         if first_is code ">" then Some (">", MPop)
         else if startsWith code "/>" then Some ("/>", MPop)
         else None)]);
    ("whitespace", [whitespace; ln]);
    ("unknown",
      [pure (fun code =>
         if allowUnknownTagTokens then
           match exec false (Alt (Seq Bol (Plus (Class false [CWord])))
                                 (Class false [CNotSpace])) code with
           | Some m0 => Some (m0, MUndefined)
           | None => None
           end
         else None)]) ].

(** Line 60: [/^<\/[\-_$\w\xA0-\uFFFF]*\s*>/i]. *)
Definition closeTag : Rule :=
  regexp_i (Seq Bol (Seq (Lit "</") (Seq
    (Star true (Class false [CChar "-"; CChar "_"; CChar "$"; CWord; high]))
    (Seq (Star true (Class false [CSpace])) (Chr ">"))))).

(** Lines 64 to 66. *)
Definition regexBefore : list string :=
  [ "{"; "("; "["; "."; ";"; ","; "<"; ">"; "<="; ">="; "=="; "!="; "===";
    "!=="; "+"; "-"; "*"; "%"; "<<"; ">>"; ">>>"; "&"; "|"; "^"; "!"; "~";
    "&&"; "||"; "?"; ":"; "="; "+="; "-="; "*="; "%="; "<<="; ">>=";
    ">>>="; "&="; "|="; "^="; "/=" ].

(** [/^<!--[\s\S]*?-->/] (lines 141 and 149). *)
Definition htmlComment : Rule :=
  regexp (Seq Bol (Seq (Lit "<!--") (Seq (Star false AnyChar) (Lit "-->")))).

(** [(?<!\\)]. *)
Definition notEscaped : Re := NotBehind (Chr BACKSLASH).

(** Lines 108 to 122: the tokens before the last one that is neither a
    line break, whitespace nor a comment decide whether a slash opens a
    regular expression.  The pattern is
    [/^\/(\\\\|\\\/|\[\^\/]|\[[^]]]|[^/])+\/[agimsx]*/]. *)
Definition regex : Rule :=
  PFunction (fun code _ tokens st =>
    let prevToken :=
      find (fun t => negb (String.eqb (type t) "ln")
                     && negb (String.eqb (type t) "whitespace")
                     && negb (String.eqb (type t) "comment"))
           (rev tokens) in
    let isBefore :=
      match prevToken with
      | Some t => existsb (String.eqb (text t)) regexBefore
      | None => false
      end in
    if isBefore then
      match exec false
              (Seq Bol (Seq (Chr "/") (Seq
                 (Plus (Alt (Lit "\\") (Alt (Lit "\/") (Alt (Lit "[^/]")
                    (Alt (Seq (Chr "[") (Seq (Class true []) (Lit "]]")))
                         (Class true [CChar "/"]))))))
                 (Seq (Chr "/") (Star true (Class false
                    [CChar "a"; CChar "g"; CChar "i"; CChar "m";
                     CChar "s"; CChar "x"]))))))
              code with
      | Some m0 => (Some (m0, MUndefined), st)
      | None => (None, st)
      end
    else (None, st)).

(** Lines 72 to 139. *)
Definition js : Rules Depths :=
  [ ("whitespace", [whitespace]);
    ("ln", [ln]);
    ("semicolon", [PString ";"]);
    ("comment",
      [regexp (Seq Bol (Seq (Lit "//") (Seq (Star true Dot)
                 (LookAhead (Seq (Opt (Chr CR)) (Chr LF))))));
       regexp (Seq Bol (Seq (Lit "/*") (Seq (Star false AnyChar) (Lit "*/"))))]);
    ("template",
      [PFunction (fun code _ _ st =>
         if first_is code BACKTICK then
           (Some ("`", MMode "template"), mkDepths 0 (templateDepth st + 1))
         else (None, st))]);
    ("brace1",
      [PFunction (fun code _ _ st =>
         if first_is code "{" then
           (Some ("{", MUndefined),
            mkDepths (braceDepth st + 1) (templateDepth st))
         else (None, st))]);
    ("brace2",
      [PFunction (fun code _ _ st =>
         if first_is code "}" then
           if (braceDepth st =? 0)%Z && negb (templateDepth st =? 0)%Z then
             (Some ("}", MPop), st)
           else
             (Some ("}", MUndefined),
              mkDepths (braceDepth st - 1) (templateDepth st))
         else (None, st))]);
    ("value", map PString
      ["null"; "true"; "false"; "Infinity"; "NaN"; "undefined"; "globalThis"]);
    ("hex", [regexp_i (Seq Bol (Seq (Lit "0x")
               (Plus (Class false [CRange "0" "9"; CRange "a" "f"]))))]);
    ("number", [regexp (Seq Bol (Seq (Star true (Class false [CDigit]))
                  (Seq (Opt (Chr ".")) (Seq (Plus (Class false [CDigit]))
                     (Opt (Seq (Chr "e") (Plus (Class false [CDigit]))))))))]);
    ("regex", [regex]);
    ("operator", map PString
      [ "&&"; "||"; "!"; "=>";
        "<<="; ">>="; "&="; "^="; "|="; "&&="; "||=";
        "&"; "|"; "^"; "~"; ">>>"; "<<"; ">>";
        "==="; "!==="; "=="; "!="; ">="; ">"; "<="; "<";
        "="; "**="; "+="; "-="; "*="; "/="; "%="; "??=";
        "++"; "--"; "**"; "+"; "-"; "*"; "/"; "%";
        ","; "..."; "."; "("; ")"; "["; "]"; "?"; ":"; "" ]);
    ("keyword", map PString
      [ "await"; "break"; "case"; "catch"; "class"; "constructor"; "const";
        "continue"; "debugger"; "default"; "delete"; "do"; "enum"; "else";
        "export"; "extends"; "finally"; "for"; "from"; "function"; "if";
        "implements"; "import"; "in"; "instanceof"; "interface"; "let";
        "new"; "package"; "private"; "protected"; "public"; "return";
        "static"; "super"; "switch"; "this"; "throw"; "try"; "typeof";
        "var"; "void"; "while"; "with"; "yield" ]);
    ("string",
      [regexp (Seq Bol (Seq (Chr DQUOTE) (Seq
         (Star true (Alt (Lit "\\") (Alt (Seq (Chr BACKSLASH) (Chr DQUOTE))
                                         (Class true [CChar DQUOTE]))))
         (Chr DQUOTE))));
       regexp (Seq Bol (Seq (Chr SQUOTE) (Seq
         (Star true (Alt (Lit "\\") (Alt (Lit "\'")
                                         (Class true [CChar SQUOTE]))))
         (Chr SQUOTE))))]);
    ("identifier",
      [regexp_i (Seq Bol (Seq
         (Class false [CChar "_"; CChar "$"; CRange "a" "z"; high])
         (Star true (Class false [CChar "_"; CChar "$"; CWord; high]))))]) ].

(** Lines 140 to 146. *)
Definition html : Rules Depths :=
  [ ("comment", [htmlComment]);
    ("closeTag", [closeTag]);
    ("openTag", [openTag "tag"]);
    ("text", [regexp (Seq Bol (Seq (Star false AnyChar)
                        (LookAhead (Chr "<"))))]) ].

(** Lines 156 to 159: [/^[\s\S]*?(?=<|`|(?<!\\)\${|(?<!\\)#{|(?=$))/] with
    hash templates, [/^[\s\S]*?(?=<|`|(?<!\\)\${|(?=$))/] without. *)
Definition templateText : Rule :=
  pure (fun code =>
    let stops :=
      if allowHashTemplates then
        Alt (Chr "<") (Alt (Chr BACKTICK)
          (Alt (Seq notEscaped (Lit "${"))
            (Alt (Seq notEscaped (Lit "#{")) (LookAhead Eol))))
      else
        Alt (Chr "<") (Alt (Chr BACKTICK)
          (Alt (Seq notEscaped (Lit "${")) (LookAhead Eol))) in
    match exec false (Seq Bol (Seq (Star false AnyChar) (LookAhead stops)))
            code with
    | Some m0 => Some (m0, MUndefined)
    | None => None
    end).

(** Lines 147 to 160. *)
Definition template_mode : Rules Depths :=
  [ ("expr", [expr]);
    ("comment", [htmlComment]);
    ("closeTag", [closeTag]);
    ("openTag", [openTag "templateTag"]);
    ("template", [template]);
    ("text", [templateText]) ].

(** [/^[\s\S]*?(?=(?<!\\)\${|(?<!\\\$?){|<|`|Q)/] for the closing quote
    [Q] (lines 170 and 176). *)
Definition quotedText (quote : ascii) : Rule :=
  regexp (Seq Bol (Seq (Star false AnyChar)
    (LookAhead
       (Alt (Seq notEscaped (Lit "${"))
         (Alt (Seq (NotBehind (Seq (Chr BACKSLASH) (Opt (Chr "$")))) (Chr "{"))
           (Alt (Chr "<") (Alt (Chr BACKTICK) (Chr quote)))))))).

Definition quoted (quote : ascii) : Rules Depths :=
  [ ("expr", [expr]);
    ("text", [quotedText quote]);
    ("quote", [pure (fun code => if first_is code quote
                                 then Some (String quote "", MPop) else None)]) ].

(** Lines 70 to 190: the modes of the grammar object in key order.  Its
    two option keys hold booleans, which have no rules to iterate. *)
Definition lexHtmlJs : Grammar Depths :=
  [ ("js", js);
    ("html", html);
    ("template", template_mode);
    ("templateTag", ("expr", [expr]) :: tag);
    ("tag", tag);
    ("squote", quoted SQUOTE);
    ("dquote", quoted DQUOTE) ].

End Options.

(** Successive calls [lex(lexHtmlJs, code, mode)] after the module was
    loaded: the counters belong to the module, so each call starts with
    the values the call before it left. *)
Fixpoint calls (grammar : Grammar Depths) (inputs : list (string * option string))
    (st : Depths) : list Outcome :=
  match inputs with
  | [] => []
  | (code, mode) :: rest =>
      fst (lex grammar code mode st) :: calls grammar rest (snd (lex grammar code mode st))
  end.

End LexHtmlJs.

(* ================================================================== *)
(** * fregex.js *)
(* ================================================================== *)
Module Fregex.
Import Lex.

(** What a matcher returns: [false], [true] or a number of tokens. *)
Inductive Used : Type :=
| UFalse
| UTrue
| UNum (n : nat).

(** A call of a matcher returns a value, throws a [TypeError], or never
    returns. *)
Inductive Result : Type :=
| Ret (u : Used)
| TypeError
| Diverges.

Definition Matcher : Type := list Token -> Result.

(** One property of an attribute-predicate object, named after the token
    attribute it is compared with. *)
Inductive Attr : Type :=
| AType (v : string)
| AMode (v : string)
| ALine (v : Z)
| ACol (v : Z).

(** A rule given to [fregex] and its combinators. *)
#[warnings="-register-all"]
Inductive Rule : Type :=
| RString (s : string)
| RArray (rules : list Rule)
| RObject (props : list Attr)
| RFunction (f : Matcher).

(** [i + used] for a value that is not [false]: [true] counts as 1. *)
Definition count (u : Used) : nat :=
  match u with
  | UFalse => 0
  | UTrue => 1
  | UNum n => n
  end.

Definition of_bool (b : bool) : Used := if b then UTrue else UFalse.

(** [token[name] != rule[name]] for one property of the rule. *)
Definition differs (token : Token) (a : Attr) : bool :=
  match a with
  | AType v => negb (String.eqb (type token) v)
  | AMode v => negb (String.eqb (mode token) v)
  | ALine v => negb (Z.eqb (line token) v)
  | ACol v => negb (Z.eqb (col token) v)
  end.

(** The body of [fregex] (lines 50 to 59) over prepared rules. *)
Fixpoint sequence_from (rules : list Matcher) (i : nat) (tokens : list Token)
  : Result :=
  match rules with
  | [] => Ret (UNum i)
  | rule :: rules' =>
      match rule (skipn i tokens) with
      | Ret UFalse => Ret UFalse
      | Ret used => sequence_from rules' (i + count used) tokens
      | TypeError => TypeError
      | Diverges => Diverges
      end
  end.

Definition sequence (rules : list Matcher) : Matcher :=
  fun tokens => sequence_from rules 0 tokens.

(** Lines 27 to 32: reading a property of [tokens[0]] throws when the
    slice is empty. *)
Definition has_props (props : list Attr) : Matcher :=
  fun tokens =>
    match props with
    | [] => Ret (UNum 1)
    | _ :: _ =>
        match tokens with
        | [] => TypeError
        | t :: _ => if existsb (differs t) props then Ret UFalse else Ret (UNum 1)
        end
    end.

(** Lines 18 to 35 for one rule.  An array becomes [fregex(rule)], whose
    own [prepare] call unwraps that single array argument. *)
Fixpoint prepare1 (rule : Rule) : Matcher :=
  match rule with
  | RString s =>
      fun tokens =>
        match tokens with
        | t :: _ => Ret (of_bool (String.eqb (text t) s))
        | [] => Ret UFalse
        end
  | RArray rules => sequence (map prepare1 rules)
  | RObject props => has_props props
  | RFunction f => f
  end.

(** Lines 13 and 14. *)
Definition unwrap (rules : list Rule) : list Rule :=
  match rules with
  | [RArray inner] => inner
  | _ => rules
  end.

(** Lines 12 to 39. *)
Definition prepare (rules : list Rule) : list Matcher :=
  map prepare1 (unwrap rules).

(** Lines 48 to 61: [fregex(...rules)]. *)
Definition fregex (rules : list Rule) : Matcher :=
  fun tokens => sequence (prepare rules) tokens.

(** Lines 66 to 74: [fregex.or(...rules)]. *)
Fixpoint first_match (rules : list Matcher) (tokens : list Token) : Result :=
  match rules with
  | [] => Ret UFalse
  | rule :: rules' =>
      match rule tokens with
      | Ret UFalse => first_match rules' tokens
      | other => other
      end
  end.

Definition or (rules : list Rule) : Matcher :=
  fun tokens => first_match (prepare rules) tokens.

(** Lines 79 to 83: [fregex.not(...rules)]. *)
Definition not (rules : list Rule) : Matcher :=
  let f := fregex [RArray rules] in
  fun tokens =>
    match f tokens with
    | Ret UFalse => Ret (UNum 0)
    | Ret _ => Ret UFalse
    | TypeError => TypeError
    | Diverges => Diverges
    end.

(** Lines 88 to 94: [fregex.nor(...rules)]; [rule(tokens) > 0] holds for
    [true] and for a positive number. *)
Fixpoint none_positive (rules : list Matcher) (tokens : list Token) : Result :=
  match rules with
  | [] => Ret (UNum 1)
  | rule :: rules' =>
      match rule tokens with
      | Ret used => if Nat.ltb 0 (count used) then Ret UFalse
                    else none_positive rules' tokens
      | TypeError => TypeError
      | Diverges => Diverges
      end
  end.

Definition nor (rules : list Rule) : Matcher :=
  fun tokens => none_positive (prepare rules) tokens.

(** Lines 99 to 107: [fregex.zeroOrOne(...rules)]. *)
Definition zeroOrOne (rules : list Rule) : Matcher :=
  let f := fregex [RArray rules] in
  fun tokens =>
    match f tokens with
    | Ret UFalse => Ret (UNum 0)
    | other => other
    end.

(** The loop of lines 114 to 120, entered with counter [i], sum [total]
    and the remaining [tokens].  When [f] uses no token of a non-empty
    slice the next pass repeats the same call, so the loop never ends.
    [fuel] counts the passes that shorten the slice; its length is
    enough. *)
Fixpoint xOrMore_loop (fuel : nat) (x : nat) (f : Matcher) (i total : nat)
    (tokens : list Token) : Result :=
  match tokens with
  | [] => Ret (UNum total)
  | _ :: _ =>
      match f tokens with
      | Ret UFalse => if Nat.leb x i then Ret (UNum total) else Ret UFalse
      | Ret used =>
          match count used, fuel with
          | O, _ => Diverges
          | S _, O => Diverges
          | S k, S fuel' =>
              xOrMore_loop fuel' x f (S i) (total + S k) (skipn (S k) tokens)
          end
      | TypeError => TypeError
      | Diverges => Diverges
      end
  end.

(** Lines 110 to 123: [fregex.xOrMore(x, ...rules)]. *)
Definition xOrMore (x : nat) (rules : list Rule) : Matcher :=
  let f := fregex [RArray rules] in
  fun tokens => xOrMore_loop (length tokens) x f 0 0 tokens.

(** Lines 125 and 126. *)
Definition zeroOrMore (rules : list Rule) : Matcher := xOrMore 0 rules.
Definition oneOrMore (rules : list Rule) : Matcher := xOrMore 1 rules.

(** Lines 156 to 164: [fregex.lookAhead(...rules)]. *)
Fixpoint all_match (rules : list Matcher) (tokens : list Token) : Result :=
  match rules with
  | [] => Ret (UNum 0)
  | rule :: rules' =>
      match rule tokens with
      | Ret UFalse => Ret UFalse
      | Ret _ => all_match rules' tokens
      | TypeError => TypeError
      | Diverges => Diverges
      end
  end.

Definition lookAhead (rules : list Rule) : Matcher :=
  fun tokens => all_match (prepare rules) tokens.

(** Lines 171 to 173: [fregex.end]. *)
Definition end_ : Matcher :=
  fun tokens => match tokens with [] => Ret (UNum 0) | _ :: _ => Ret UFalse end.

(** An element of the array [matchAll] returns: a slice of the haystack
    with its [index] property. *)
Record Match : Type := mkMatch { slice : list Token; index : nat }.

Inductive Matches : Type :=
| Found (result : list Match)
| MatchTypeError
| MatchDiverges.

(** [result.length < limit], [None] being the default [Infinity]. *)
Definition below (n : nat) (limit : option nat) : bool :=
  match limit with
  | None => true
  | Some l => Nat.ltb n l
  end.

(** The loop of lines 146 to 150 from offset [i], with
    [remaining = haystack.length - i]. *)
Fixpoint matchAll_from (pattern : Matcher) (haystack : list Token)
    (limit : option nat) (remaining i : nat) (result : list Match) : Matches :=
  match remaining with
  | O => Found result
  | S remaining' =>
      if below (length result) limit then
        match pattern (skipn i haystack) with
        | Ret UFalse =>
            matchAll_from pattern haystack limit remaining' (S i) result
        | Ret cnt =>
            matchAll_from pattern haystack limit remaining' (S i)
              (result ++ [mkMatch (firstn (count cnt) (skipn i haystack)) i])
        | TypeError => MatchTypeError
        | Diverges => MatchDiverges
        end
      else Found result
  end.

(** Lines 140 to 152: [fregex.matchAll(pattern, haystack, limit)].  An
    array pattern is compiled with [fregex(pattern)]; calling a pattern
    that is neither an array nor a function throws. *)
Definition matchAll (pattern : Rule) (haystack : list Token)
    (limit : option nat) : Matches :=
  match pattern with
  | RArray _ =>
      matchAll_from (fregex [pattern]) haystack limit (length haystack) 0 []
  | RFunction f => matchAll_from f haystack limit (length haystack) 0 []
  | RString _ | RObject _ =>
      match haystack with
      | [] => Found []
      | _ :: _ => if below 0 limit then MatchTypeError else Found []
      end
  end.

End Fregex.

(* ================================================================== *)
(** * Properties stated about the tokenizer *)
(* ================================================================== *)
Module LexSpec.
Import Lex.

Section WithGrammarState.
Variable St : Type.

(** A rule matches at the cursor: whatever text it reports is a prefix
    of the code ahead.  A string rule does so by line 50. *)
Definition anchored (p : Pattern St) : Prop :=
  match p with
  | PString _ => True
  | PRegExp re => forall current m0,
      re current = Some m0 -> startsWith current m0 = true
  | PFunction f => forall current behind result st t mt st',
      f current behind result st = (Some (t, mt), st') ->
      startsWith current t = true
  end.

Definition anchored_rules (rules : Rules St) : Prop :=
  Forall (fun rule => Forall anchored (snd rule)) rules.

Definition anchored_grammar (grammar : Grammar St) : Prop :=
  Forall (fun entry => anchored_rules (snd entry)) grammar.

End WithGrammarState.

Arguments anchored {St} p.
Arguments anchored_rules {St} rules.
Arguments anchored_grammar {St} grammar.

(** Line number of the character that follows [before] in the input:
    one more than the line feeds in [before]. *)
Definition line_at (before : string) : Z := (1 + Z.of_nat (count_nl before))%Z.

(** Column of that character: the characters since the last line feed of
    [before] plus one, or the offset plus one when there is none. *)
Definition col_at (before : string) : Z :=
  match last_nl before with
  | Some i => (Z.of_nat (String.length before - i - 1) + 1)%Z
  | None => (Z.of_nat (String.length before) + 1)%Z
  end.

(** The token [t], whose first character is at offset [off] of [code],
    carries the line and column of that offset. *)
Definition placed (code : string) (entry : nat * Token) : Prop :=
  line (snd entry) = line_at (take (fst entry) code) /\
  col (snd entry) = col_at (take (fst entry) code).

Section Walk.
Variable each : nat -> Token -> list (nat * Token).

(** Visit a token sequence whose first token starts at offset [off]. *)
Fixpoint walk (off : nat) (l : list Token) : list (nat * Token) :=
  match l with
  | [] => []
  | t :: l' => each off t ++ walk (off + String.length (text t)) l'
  end.
End Walk.

(** Every token of a tree, children included, with the offset of its
    first character. *)
Fixpoint emitted1 (off : nat) (t : Token) : list (nat * Token) :=
  match t with
  | mkToken _ _ _ _ _ kids =>
      (off, t) ::
      match kids with
      | None => []
      | Some l => walk emitted1 off l
      end
  end.

Definition emitted (off : nat) (l : list Token) : list (nat * Token) :=
  walk emitted1 off l.

(** The tokens of the returned sequence itself, without their children. *)
Definition emitted_top (off : nat) (l : list Token) : list (nat * Token) :=
  walk (fun o t => [(o, t)]) off l.

(** Each token starts where lines 77 to 79 left the position after the
    token before it, the first one at [(line, col)]. *)
Fixpoint follows (line0 col0 : Z) (l : list Token) : Prop :=
  match l with
  | [] => True
  | t :: l' =>
      line t = line0 /\ col t = col0 /\
      follows (fst (advance line0 col0 (text t)))
              (snd (advance line0 col0 (text t))) l'
  end.

(** No token that opened a sub-mode spans a line feed with its own
    opening text (the first of its children). *)
Fixpoint opens_on_one_line (t : Token) : bool :=
  match t with
  | mkToken _ _ _ _ _ kids =>
      match kids with
      | None => true
      | Some l =>
          match l with
          | [] => true
          | first :: _ => Nat.eqb (count_nl (text first)) 0
          end && forallb opens_on_one_line l
      end
  end.

End LexSpec.

(* ================================================================== *)
(** * The runs of the tokenizer, as a relation *)
(* ================================================================== *)
Module LexRun.
Import Lex.

Section Run.
Variable St : Type.
Variable grammar : Grammar St.
Variable code : string.

(** [Lexes mode result line col index st out st']: an invocation that
    is at the head of its loop with these values ends with [out],
    leaving the grammar state [st']. *)
Inductive Lexes :
  string -> list Token -> Z -> Z -> nat -> St -> Outcome -> St -> Prop :=
| Lexes_end mode result line col index st :
    String.length code <= index ->
    Lexes mode result line col index st (Return EndOfInput result) st
| Lexes_unknown mode result line col index st st1 :
    index < String.length code ->
    identify (rules_of grammar mode) (drop index code) (take index code)
      result MUndefined st = (None, st1) ->
    Lexes mode result line col index st
      (Throw (mkLexError mode line col (error_msg code index))) st1
| Lexes_ascend mode result line col index st type token st1 :
    index < String.length code ->
    identify (rules_of grammar mode) (drop index code) (take index code)
      result MUndefined st = (Some (type, token, MPop), st1) ->
    Lexes mode result line col index st
      (Return Ascended (result ++ [token_of token type MPop mode line col])) st1
| Lexes_plain mode result line col index st type token matchType st1 out st' :
    index < String.length code ->
    identify (rules_of grammar mode) (drop index code) (take index code)
      result MUndefined st = (Some (type, token, matchType), st1) ->
    matchType <> MPop ->
    enters matchType = None ->
    Lexes mode (result ++ [token_of token type matchType mode line col])
      (fst (advance line col token)) (snd (advance line col token))
      (index + String.length token) st1 out st' ->
    Lexes mode result line col index st out st'
| Lexes_descend mode result line col index st type token matchType st1
    m how inner st2 out st' :
    index < String.length code ->
    identify (rules_of grammar mode) (drop index code) (take index code)
      result MUndefined st = (Some (type, token, matchType), st1) ->
    enters matchType = Some m ->
    Lexes m [] line (col + Z.of_nat (String.length token))%Z
      (index + String.length token) st1 (Return how inner) st2 ->
    let tok := composite type mode line col
                 (token_of token type matchType mode line col :: inner) in
    Lexes mode (result ++ [tok])
      (fst (advance line col (text tok))) (snd (advance line col (text tok)))
      (index + String.length (text tok)) st2 out st' ->
    Lexes mode result line col index st out st'
| Lexes_descend_throw mode result line col index st type token matchType st1
    m e st2 :
    index < String.length code ->
    identify (rules_of grammar mode) (drop index code) (take index code)
      result MUndefined st = (Some (type, token, matchType), st1) ->
    enters matchType = Some m ->
    Lexes m [] line (col + Z.of_nat (String.length token))%Z
      (index + String.length token) st1 (Throw e) st2 ->
    Lexes mode result line col index st (Throw e) st2.

End Run.

Arguments Lexes {St} grammar code mode result line col index st out st'.

End LexRun.

(* ================================================================== *)
(** * Properties stated about the pattern engine *)
(* ================================================================== *)
Module FregexSpec.
Import Lex Fregex.

(** The match reported for offset [i], if the pattern matches there. *)
Definition hit (pattern : Matcher) (haystack : list Token) (i : nat) : list Match :=
  match pattern (skipn i haystack) with
  | Ret UFalse => []
  | Ret cnt => [mkMatch (firstn (count cnt) (skipn i haystack)) i]
  | TypeError | Diverges => []
  end.

(** The matches at the offsets [0 .. haystack.length - 1], in ascending
    order of offset. *)
Definition hits (pattern : Matcher) (haystack : list Token) : list Match :=
  flat_map (hit pattern haystack) (seq 0 (length haystack)).

(** The first [limit] elements, all of them for the default [Infinity]. *)
Definition upto (limit : option nat) (l : list Match) : list Match :=
  match limit with
  | None => l
  | Some n => firstn n l
  end.

(** The pattern returns a value at every offset of the haystack. *)
Definition returns_on (pattern : Matcher) (haystack : list Token) : Prop :=
  forall i, i < length haystack -> exists u, pattern (skipn i haystack) = Ret u.

(** The offsets at which the token has the text [x], ascending. *)
Definition occurrences (x : string) (haystack : list Token) : list nat :=
  filter (fun i => match nth_error haystack i with
                   | Some t => String.eqb (text t) x
                   | None => false
                   end)
         (seq 0 (length haystack)).

End FregexSpec.

(* ================================================================== *)
(** * Sample grammars, inputs and patterns *)
(* ================================================================== *)
Module Samples.
Import Lex RegExp LexHtmlJs Fregex.

(** [{a: {lit: 'x'}}]. *)
Definition literal_x : Grammar unit := [("a", [("lit", [PString "x"])])].

(** [{a: {x: code => code[0] === 'x' ? ['x', -1] : undefined}}]: the rule
    of the start mode leaves the mode. *)
Definition ascending : Grammar unit :=
  [("a", [("x", [PFunction (fun code _ _ st =>
                   if first_is code "x" then (Some ("x", MPop), st)
                   else (None, st))])])].

(** [{a: {nl: /\n/}}]: a regular expression without [^]. *)
Definition unanchored : Grammar unit :=
  [("a", [("nl", [PRegExp (exec false (Chr LF))])])].

Definition lf : string := String LF "".

Definition open_paren_lf : string := String "(" (String LF "").

(** [{a: {open: code => code.startsWith('(\n') ? ['(\n', 'b'] : undefined},
      b: {x: 'x'}}]: the text that enters mode [b] ends a line. *)
Definition multiline_open : Grammar unit :=
  [("a", [("open", [PFunction (fun code _ _ st =>
                      if startsWith code open_paren_lf
                      then (Some (open_paren_lf, MMode "b"), st)
                      else (None, st))])]);
   ("b", [("x", [PString "x"])])].

(** The grammar object of lex-htmljs.js with its default options. *)
Definition htmljs : Grammar Depths := lexHtmlJs false false.

(** A plain token, as [lex] builds it. *)
Definition tok (text type mode : string) (line col : Z) : Token :=
  mkToken text type mode line col None.

(** Three tokens [a] at columns 1, 2 and 3. *)
Definition a1 : Token := tok "a" "identifier" "js" 1 1.
Definition a2 : Token := tok "a" "identifier" "js" 1 2.
Definition a3 : Token := tok "a" "identifier" "js" 1 3.

(** The token of the keyword [import] at the start of a file. *)
Definition import1 : Token := tok "import" "keyword" "js" 1 1.

End Samples.

(* ================================================================== *)
(** * fregex.js: [matchFirst] *)
(* ================================================================== *)
Module FregexFirst.
Import Lex Fregex.

(** What [matchFirst] returns: a match, [null], or the exception or the
    endless loop of the pattern. *)
Inductive First : Type :=
| FirstMatch (found : Match)
| Null
| FirstTypeError
| FirstDiverges.

(** Lines 135 to 138: [fregex.matchFirst(pattern, haystack)]. *)
Definition matchFirst (pattern : Rule) (haystack : list Token) : First :=
  match matchAll pattern haystack (Some 1) with
  | Found (first :: _) => FirstMatch first
  | Found [] => Null
  | MatchTypeError => FirstTypeError
  | MatchDiverges => FirstDiverges
  end.

End FregexFirst.

(* ================================================================== *)
(** * expect.js: [rewriteImports] *)
(* ================================================================== *)
Module ExpectJs.
Import Lex Fregex.

(** An element of the token array once [rewriteImports] has run: the token
    object it held, or the primitive string assigned at line 57. *)
Inductive Item : Type :=
| Kept (token : Token)
| Replaced (path : string).

(** Line 33. *)
Definition ws0 : Matcher :=
  zeroOrMore [RFunction (or [RObject [AType "whitespace"];
                             RObject [AType "ln"];
                             RObject [AType "comment"]])].

(** Lines 34 to 38. *)
Definition isImport : Matcher :=
  or [RArray [RString "import"; RFunction ws0; RObject [AType "string"]];
      RArray [RString "import"; RFunction ws0; RString "("; RFunction ws0;
              RObject [AType "string"]];
      RArray [RString "from"; RFunction ws0; RObject [AType "string"]]].

Definition quote : string := String "034" "".

(** Lines 49 to 57 for the token [tokens[j]]; [dir] is the absolute
    directory with forward slashes of line 30. *)
Definition rewrite (dir : string) (token : Token) : Item :=
  let path2 := JsString.slice (text token) 1 (-1) in
  if negb (String.eqb dir "") && negb (startsWith path2 "http://")
     && negb (startsWith path2 "https://") then
    if startsWith path2 "/" then
      Replaced (quote ++ "file:///" ++ dir ++ path2 ++ quote)
    else
      Replaced (quote ++ "file:///" ++ dir ++ "/" ++ drop 2 path2 ++ quote)
  else Kept token.

(** The loop of lines 47 to 59 over the [length] elements from the
    cursor: the first token of type [string] is rewritten and the loop
    stops.  [None] is the [TypeError] of reading [type] past the end of the
    array. *)
Fixpoint rewrite_first (dir : string) (length : nat) (rest : list Token)
  : option (list Item) :=
  match length with
  | O => Some []
  | S length' =>
      match rest with
      | [] => None
      | t :: rest' =>
          if String.eqb (type t) "string" then
            Some (rewrite dir t :: map Kept (firstn length' rest'))
          else
            match rewrite_first dir length' rest' with
            | Some items => Some (Kept t :: items)
            | None => None
            end
      end
  end.

(** How a call of [rewriteImports] ends: with the array as it has become,
    with an exception, or never. *)
Inductive Rewritten : Type :=
| Done (items : list Item)
| Thrown
| Hangs.

Definition prepend (items : list Item) (r : Rewritten) : Rewritten :=
  match r with
  | Done rest => Done (items ++ rest)
  | other => other
  end.

(** The loop of lines 40 to 62 with the cursor in front of [rest].  The
    elements before the cursor are final; no element from the cursor on has
    been assigned yet, since line 57 writes below [i + length] and the
    cursor moves to [i + length + 1].  The result lists the elements from
    the cursor on as the loop leaves them.  [fuel] bounds the passes; the
    length of [rest] is enough. *)
Fixpoint rewrite_from (dir : string) (fuel : nat) (rest : list Token) : Rewritten :=
  match fuel, rest with
  | O, _ => Done (map Kept rest)
  | _, [] => Done []
  | S fuel', t :: rest' =>
      match isImport rest with
      | TypeError => Thrown
      | Diverges => Hangs
      | Ret used =>
          match count used with
          | O => prepend [Kept t] (rewrite_from dir fuel' rest')
          | S _ =>
              match rewrite_first dir (count used) rest with
              | None => Thrown
              | Some items =>
                  prepend (items ++ map Kept (firstn 1 (skipn (count used) rest)))
                    (rewrite_from dir fuel' (skipn (count used + 1) rest))
              end
          end
      end
  end.

(** Lines 29 to 63: [rewriteImports(tokens, dir)], giving the array it
    leaves. *)
Definition rewriteImports (tokens : list Token) (dir : string) : Rewritten :=
  rewrite_from dir (length tokens) tokens.

End ExpectJs.

(* ================================================================== *)
(** * Further properties stated about the pattern engine *)
(* ================================================================== *)
Module FregexMoreSpec.
Import Lex Fregex.

(** The texts of the first tokens are the strings [strs], in order. *)
Fixpoint starts_with_texts (strs : list string) (tokens : list Token) : bool :=
  match strs, tokens with
  | [], _ => true
  | _ :: _, [] => false
  | s :: strs', t :: tokens' => String.eqb (text t) s && starts_with_texts strs' tokens'
  end.

(** The number of tokens at the front whose text is [s]. *)
Fixpoint run (s : string) (tokens : list Token) : nat :=
  match tokens with
  | [] => 0
  | t :: tokens' => if String.eqb (text t) s then S (run s tokens') else 0
  end.

(** The answer [r] of a matcher on the slice from offset [i], as a count
    from the start of the array. *)
Definition shift (i : nat) (r : Result) : Result :=
  match r with
  | Ret (UNum n) => Ret (UNum (i + n))
  | other => other
  end.

(** The text of [tokens[0]] is [s]. *)
Definition head_is (tokens : list Token) (s : string) : bool :=
  match tokens with
  | t :: _ => String.eqb (text t) s
  | [] => false
  end.

End FregexMoreSpec.

(* ================================================================== *)
(** * Properties stated about [rewriteImports] *)
(* ================================================================== *)
Module ExpectSpec.
Import Lex Fregex ExpectJs.

(** A token that [ws0] passes over. *)
Definition is_trivia (t : Token) : bool :=
  String.eqb (type t) "whitespace" || String.eqb (type t) "ln"
  || String.eqb (type t) "comment".

(** The number of such tokens at the front. *)
Fixpoint trivia_run (tokens : list Token) : nat :=
  match tokens with
  | [] => 0
  | t :: tokens' => if is_trivia t then S (trivia_run tokens') else 0
  end.

(** What [rewriteImports] may leave in the place of the token [t]. *)
Definition left_for (dir : string) (t : Token) (item : Item) : Prop :=
  item = Kept t \/ (type t = "string" /\ item = rewrite dir t).

End ExpectSpec.

(* ================================================================== *)
(** * Further properties stated about the tokenizer *)
(* ================================================================== *)
Module RegExpSpec.
Import JsString RegExp.

(** The least number of characters a match of [r] spans. *)
Fixpoint min_len (r : Re) : nat :=
  match r with
  | Class _ _ | Dot => 1
  | Seq a b => min_len a + min_len b
  | Alt a b => Nat.min (min_len a) (min_len b)
  | _ => 0
  end.

(** No character that a match of [r] spans can be a line feed. *)
Fixpoint lf_free (icase : bool) (r : Re) : bool :=
  match r with
  | Class negated atoms => negb (xorb negated (class_has icase atoms LF))
  | Seq a b | Alt a b => lf_free icase a && lf_free icase b
  | Star _ r' => lf_free icase r'
  | _ => true
  end.

End RegExpSpec.

Module LexMoreSpec.
Import Lex.

Section WithGrammarState.
Variable St : Type.
Variable grammar : Grammar St.

(** The names of the rules of a mode. *)
Definition rule_names (mode : string) : list string :=
  map fst (rules_of grammar mode).

(** The shape of a token returned by an invocation that runs in [mode].
    A plain token has a non-empty text, the name of a rule of the mode as
    its type, and the mode as its mode.  A token that opened the mode
    [entered] has as children the opening text, with the same type, line and
    column and with mode [entered], then tokens of that shape for
    [entered]; its text is that of its children, joined. *)
#[warnings="-register-all"]
Inductive Shaped : string -> Token -> Prop :=
| Shaped_plain mode text type line col :
    In type (rule_names mode) ->
    text <> "" ->
    Shaped mode (mkToken text type mode line col None)
| Shaped_composite mode type line col entered opening inner :
    In type (rule_names mode) ->
    opening <> "" ->
    Forall (Shaped entered) inner ->
    Shaped mode
      (composite type mode line col
         (mkToken opening type entered line col None :: inner)).

(** No rule of [rules] is a function. *)
Definition function_free (rules : Rules St) : Prop :=
  Forall (fun rule =>
            Forall (fun p => match p with PFunction _ => False | _ => True end)
                   (snd rule)) rules.

(** What a function rule keeps when it is called on [current], [behind]
    and [result] in a state that satisfies [inv]: it leaves a state that
    satisfies [inv]; with an empty match it gives no directive; and its
    match and directive satisfy [post].  Strings and regular expressions
    neither see the state nor give a directive. *)
Definition keeps (inv : St -> Prop) (post : string -> MatchType -> Prop)
    (current behind : string) (result : list Token) (p : Pattern St) : Prop :=
  match p with
  | PFunction f =>
      forall st, inv st ->
        inv (snd (f current behind result st)) /\
        match fst (f current behind result st) with
        | Some (t, mt) => (t = "" -> mt = MUndefined) /\ post t mt
        | None => True
        end
  | _ => True
  end.

Definition rules_keep (inv : St -> Prop) (post : string -> MatchType -> Prop)
    (current behind : string) (result : list Token) (rules : Rules St) : Prop :=
  Forall (fun rule => Forall (keeps inv post current behind result) (snd rule))
         rules.

(** A text that asks to enter a mode has no line feed. *)
Definition enters_on_one_line (t : string) (mt : MatchType) : Prop :=
  enters mt <> None -> JsString.count_nl t = 0.

(** Every function rule of the grammar that asks to enter a mode does so
    with a non-empty text that has no line feed. *)
Definition opens_in_line : Prop :=
  Forall (fun entry =>
            forall current behind result,
              rules_keep (fun _ => True) enters_on_one_line
                         current behind result (snd entry)) grammar.

End WithGrammarState.

Arguments rule_names {St} grammar mode.
Arguments Shaped {St} grammar mode token.
Arguments function_free {St} rules.
Arguments keeps {St} inv post current behind result p.
Arguments rules_keep {St} inv post current behind result rules.
Arguments opens_in_line {St} grammar.

(** [s.includes(c)] for a character [c]. *)
Fixpoint includes (s : string) (c : ascii) : bool :=
  match s with
  | EmptyString => false
  | String c0 s' => Ascii.eqb c0 c || includes s' c
  end.

(** A token without children. *)
Definition flat (t : Token) : Prop := tokens t = None.

(** Token [a] starts before token [b] in reading order: on an earlier
    line, or on the same line at a smaller column. *)
Definition before (a b : Token) : Prop :=
  (line a < line b)%Z \/ (line a = line b /\ (col a < col b)%Z).

End LexMoreSpec.

(* ================================================================== *)
(** * The cursors of a run *)
(* ================================================================== *)
Module LexTrace.
Import Lex LexRun.

Section Trace.
Variable St : Type.

(** The values of an invocation at the head of its loop (line 36). *)
Record Cursor : Type :=
  mkCursor { at_mode : string; at_result : list Token; at_line : Z;
             at_col : Z; at_index : nat; at_state : St }.

Variable grammar : Grammar St.
Variable code : string.

(** [Visits c c']: a run that is at the head of its loop with the values
    [c] comes to the head of a loop with the values [c'], either in the same
    invocation, after a token or after a sub-mode that has returned, or in
    an invocation it has started at line 68 and that has not returned. *)
Inductive Visits : Cursor -> Cursor -> Prop :=
| Visits_here c : Visits c c
| Visits_next mode result line col index st type token matchType st1 c :
    index < String.length code ->
    identify (rules_of grammar mode) (drop index code) (take index code)
      result MUndefined st = (Some (type, token, matchType), st1) ->
    matchType <> MPop ->
    enters matchType = None ->
    Visits (mkCursor mode (result ++ [token_of token type matchType mode line col])
              (fst (advance line col token)) (snd (advance line col token))
              (index + String.length token) st1) c ->
    Visits (mkCursor mode result line col index st) c
| Visits_inside mode result line col index st type token matchType st1 m c :
    index < String.length code ->
    identify (rules_of grammar mode) (drop index code) (take index code)
      result MUndefined st = (Some (type, token, matchType), st1) ->
    enters matchType = Some m ->
    Visits (mkCursor m [] line (col + Z.of_nat (String.length token))%Z
              (index + String.length token) st1) c ->
    Visits (mkCursor mode result line col index st) c
| Visits_after mode result line col index st type token matchType st1
    m how inner st2 c :
    index < String.length code ->
    identify (rules_of grammar mode) (drop index code) (take index code)
      result MUndefined st = (Some (type, token, matchType), st1) ->
    enters matchType = Some m ->
    Lexes grammar code m [] line (col + Z.of_nat (String.length token))%Z
      (index + String.length token) st1 (Return how inner) st2 ->
    let tok := composite type mode line col
                 (token_of token type matchType mode line col :: inner) in
    Visits (mkCursor mode (result ++ [tok])
              (fst (advance line col (text tok))) (snd (advance line col (text tok)))
              (index + String.length (text tok)) st2) c ->
    Visits (mkCursor mode result line col index st) c.

End Trace.

Arguments mkCursor {St} at_mode at_result at_line at_col at_index at_state.
Arguments at_mode {St} c.
Arguments at_result {St} c.
Arguments at_line {St} c.
Arguments at_col {St} c.
Arguments at_index {St} c.
Arguments at_state {St} c.
Arguments Visits {St} grammar code c c'.

(** The number of characters before the offset [index] that the message of
    the error shows for a code of [len] characters: ten from the tenth
    offset on; before it, [index - 10] is negative and [slice] counts it
    from the end of the code. *)
Definition shown_before (len index : nat) : nat :=
  if Nat.leb 10 index then 10 else Nat.min index (10 - len).

End LexTrace.

(* ================================================================== *)
(** * More sample inputs *)
(* ================================================================== *)
Module MoreSamples.
Import Lex LexHtmlJs Fregex ExpectJs Samples.

(** The tokens of [import "./a.js"] at the start of a file. *)
Definition space7 : Token := tok " " "whitespace" "js" 1 7.
Definition path8 : Token := tok (quote ++ "./a.js" ++ quote) "string" "js" 1 8.
Definition import_a : list Token := [import1; space7; path8].

(** What [rewriteImports] leaves of them for the directory [C:/d]. *)
Definition import_a_rewritten : list Item :=
  [Kept import1; Kept space7;
   Replaced (quote ++ "file:///C:/d/a.js" ++ quote)].

(** [{a: {f: () => ['', 'b'], x: 'x'}, b: {y: 'y'}}]: the function matches
    nothing and still names a mode. *)
Definition names_mode : string -> string -> list Token -> unit ->
                        option (string * MatchType) * unit :=
  fun _ _ _ st => (Some ("", MMode "b"), st).

Definition leaking : Grammar unit :=
  [("a", [("f", [PFunction names_mode]); ("x", [PString "x"])]);
   ("b", [("y", [PString "y"])])].

(** A template with a placeholder on the second line of the input. *)
Definition two_lines : string := "a" ++ lf ++ "`x${b}`".

(** A statement without a template literal. *)
Definition plain_js : string := "x = {a: 1};".

End MoreSamples.

(* ================================================================== *)
(** * expect.js: finding the [@expect] tags of the comments *)
(* ================================================================== *)
Module ExpectFind.
Import Lex RegExp.

(** [(?<=r)], written as the negative look-behind of the negative
    look-behind of [r]: it succeeds at the offsets where a match of [r]
    ends. *)
Definition Behind (r : Re) : Re := NotBehind (NotBehind r).

(** [input.search(re)]: the offset of the leftmost match among [starts],
    [-1] when there is none. *)
Fixpoint search_from (icase : bool) (r : Re) (input : string) (starts : list nat)
  : Z :=
  match starts with
  | [] => (-1)%Z
  | s :: rest =>
      match m icase r input s (fun e => Some e) with
      | Some _ => Z.of_nat s
      | None => search_from icase r input rest
      end
  end.

Definition search (icase : bool) (r : Re) (input : string) : Z :=
  search_from icase r input (seq 0 (S (String.length input))).

(** [input.replace(re, replacement)] for a regular expression without the
    [g] flag and a replacement without [$]: the leftmost match is
    replaced. *)
Fixpoint replace_from (icase : bool) (r : Re) (input replacement : string)
    (starts : list nat) : string :=
  match starts with
  | [] => input
  | s :: rest =>
      match m icase r input s (fun e => Some e) with
      | Some e => take s input ++ replacement ++ drop e input
      | None => replace_from icase r input replacement rest
      end
  end.

Definition replace (icase : bool) (r : Re) (input replacement : string) : string :=
  replace_from icase r input replacement (seq 0 (S (String.length input))).

(** [s.split(/\r?\n/g)]: a carriage return that a line feed follows
    belongs to the separator. *)
Fixpoint split_lines (s : string) : list string :=
  match s with
  | EmptyString => [""]
  | String c s' =>
      if Ascii.eqb c LF then "" :: split_lines s'
      else if Ascii.eqb c CR
              && match s' with String c' _ => Ascii.eqb c' LF | EmptyString => false end
      then split_lines s'
      else
        match split_lines s' with
        | first :: others => String c first :: others
        | [] => [String c ""]
        end
  end.

(** [s.includes(sub)]. *)
Fixpoint includes (s sub : string) : bool :=
  startsWith s sub ||
  match s with
  | EmptyString => false
  | String _ s' => includes s' sub
  end.

(** Lines 15 to 18: [regexIndexOf(string, regex, startpos)]; [None] is an
    omitted [startpos]. *)
Definition regexIndexOf (str : string) (icase : bool) (regex : Re)
    (startpos : option nat) : Z :=
  let from := match startpos with Some n => n | None => 0 end in
  let indexOf := search icase regex (drop from str) in
  if (0 <=? indexOf)%Z then (indexOf + Z.of_nat from)%Z else indexOf.

(** [/@\w+/] (line 83). *)
Definition tag : Re := Seq (Chr "@") (Plus (Class false [CWord])).

(** [/(?<=^\s+)\*/] (line 93). *)
Definition leading_star : Re :=
  Seq (Behind (Seq Bol (Plus (Class false [CSpace])))) (Chr "*").

Definition CRLF : string := String CR (String LF "").

(** An element of the array [findExpects] returns. *)
Record Expect : Type :=
  mkExpect { expect_code : string; expect_line : Z; expect_col : Z }.

(** [if (expect) expects.push(expect)] (lines 85 to 88 and 96 to 97). *)
Definition push (expects : list Expect) (expect : option Expect) : list Expect :=
  match expect with
  | Some e => (expects ++ [e])%list
  | None => expects
  end.

(** The loop of lines 80 to 95 from the line of index [i] on, then lines 96
    and 97; [token_line] is [token.line]. *)
Fixpoint scan (token_line : Z) (lines : list string) (i : nat)
    (expect : option Expect) (expects : list Expect) : list Expect :=
  match lines with
  | [] => push expects expect
  | line :: lines' =>
      let idx := regexIndexOf line false tag None in
      if (0 <? idx)%Z then
        scan token_line lines' (S i)
          (if includes line "@expect"
           then Some (mkExpect (drop (Z.to_nat idx + 7) line)
                               (token_line + Z.of_nat i)%Z (idx + 7)%Z)
           else None)
          (push expects expect)
      else
        scan token_line lines' (S i)
          (match expect with
           | Some e =>
               Some (mkExpect
                       (expect_code e ++ CRLF ++ replace false leading_star line " ")
                       (expect_line e) (expect_col e))
           | None => None
           end)
          expects
  end.

(** Lines 72 to 98 for one token. *)
Definition find_in (expects : list Expect) (token : Token) : list Expect :=
  if String.eqb (type token) "comment" && startsWith (text token) "/**" then
    scan (Lex.line token) (split_lines (JsString.slice (text token) 3 (-2))) 0
      None expects
  else expects.

(** Lines 69 to 99: [findExpects(tokens)]. *)
Definition findExpects (tokens : list Token) : list Expect :=
  fold_left find_in tokens [].

End ExpectFind.

(** What is stated about [findExpects]. *)
Module ExpectFindSpec.
Import Lex ExpectFind.

(** The expect [e] was opened by one of [lines], the lines of a comment
    that starts on line [token_line] of the file: that line has [@expect],
    [e] is reported on the line of the file that holds it, at a column of
    8 or more, and its code starts with what the line has from that column
    on. *)
Definition opened_at (token_line : Z) (lines : list string) (e : Expect) : Prop :=
  exists (i : nat) (line : string),
    nth_error lines i = Some line /\
    includes line "@expect" = true /\
    expect_line e = (token_line + Z.of_nat i)%Z /\
    (8 <= expect_col e)%Z /\
    startsWith (expect_code e) (drop (Z.to_nat (expect_col e)) line) = true.

(** The expect [e] comes from the comment [token]. *)
Definition found_in (token : Token) (e : Expect) : Prop :=
  type token = "comment" /\
  startsWith (text token) "/**" = true /\
  opened_at (Lex.line token) (split_lines (JsString.slice (text token) 3 (-2))) e /\
  (Lex.line token <= expect_line e
   <= Lex.line token + Z.of_nat (count_nl (text token)))%Z.

End ExpectFindSpec.

(* ================================================================== *)
(** * Facts about the string primitives *)
(* ================================================================== *)
Module JsStringFacts.

Lemma append_nil_r (s : string) : s ++ "" = s.
Proof. induction s as [|c s IH]; simpl; [reflexivity | now rewrite IH]. Qed.

Lemma append_assoc (a b c : string) : (a ++ b) ++ c = a ++ (b ++ c).
Proof. induction a as [|x a IH]; simpl; [reflexivity | now rewrite IH]. Qed.

Lemma length_append (a b : string) :
  String.length (a ++ b) = String.length a + String.length b.
Proof. induction a as [|x a IH]; simpl; [reflexivity | now rewrite IH]. Qed.

Lemma take_drop (n : nat) (s : string) : take n s ++ drop n s = s.
Proof.
  revert s; induction n as [|n IH]; intros [|c s]; simpl; try reflexivity.
  now rewrite IH.
Qed.

Lemma length_drop (n : nat) (s : string) :
  String.length (drop n s) = String.length s - n.
Proof.
  revert s; induction n as [|n IH]; intros [|c s]; simpl; auto.
Qed.

Lemma length_take (n : nat) (s : string) :
  String.length (take n s) = Nat.min n (String.length s).
Proof.
  revert s; induction n as [|n IH]; intros [|c s]; simpl; auto.
Qed.

Lemma drop_drop (n k : nat) (s : string) : drop k (drop n s) = drop (n + k) s.
Proof.
  revert s; induction n as [|n IH]; intros s; simpl; [reflexivity|].
  destruct s as [|c s]; [now destruct k | apply IH].
Qed.

Lemma drop_all (n : nat) (s : string) : String.length s <= n -> drop n s = "".
Proof.
  revert s; induction n as [|n IH]; intros [|c s] H; simpl in *;
    try reflexivity; [lia | apply IH; lia].
Qed.

Lemma take_all (n : nat) (s : string) : String.length s <= n -> take n s = s.
Proof.
  revert s; induction n as [|n IH]; intros [|c s] H; simpl in *;
    try reflexivity; [lia | rewrite IH; [reflexivity | lia]].
Qed.

Lemma take_app_length (a b : string) : take (String.length a) (a ++ b) = a.
Proof. induction a as [|x a IH]; simpl; [now destruct b | now rewrite IH]. Qed.

Lemma drop_app_length (a b : string) : drop (String.length a) (a ++ b) = b.
Proof. induction a as [|x a IH]; simpl; [reflexivity | exact IH]. Qed.

(** Two adjacent slices make one. *)
Lemma take_add (a b : nat) (s : string) :
  take a s ++ take b (drop a s) = take (a + b) s.
Proof.
  revert s; induction a as [|a IH]; intros s; simpl; [reflexivity|].
  destruct s as [|c s]; simpl; [now destruct b | now rewrite IH].
Qed.

Lemma startsWith_app (s p : string) :
  startsWith s p = true -> s = p ++ drop (String.length p) s.
Proof.
  unfold startsWith. revert s; induction p as [|c p IH]; intros s H.
  - reflexivity.
  - destruct s as [|d s]; simpl in H; [discriminate|].
    destruct (ascii_dec c d) as [->|]; [|discriminate].
    simpl. f_equal. now apply IH.
Qed.

Lemma startsWith_length (s p : string) :
  startsWith s p = true -> String.length p <= String.length s.
Proof.
  intros H. apply startsWith_app in H.
  rewrite H, length_append. lia.
Qed.

Lemma startsWith_take (s p : string) :
  startsWith s p = true -> p = take (String.length p) s.
Proof.
  intros H. apply startsWith_app in H.
  rewrite H at 1. now rewrite take_app_length.
Qed.

Lemma startsWith_nil (s : string) : startsWith s "" = true.
Proof. now destruct s. Qed.

Lemma count_nl_app (a b : string) : count_nl (a ++ b) = count_nl a + count_nl b.
Proof. induction a as [|x a IH]; simpl; [reflexivity | rewrite IH; lia]. Qed.

Lemma last_nl_app (a b : string) :
  last_nl (a ++ b) =
  match last_nl b with
  | Some j => Some (String.length a + j)
  | None => last_nl a
  end.
Proof.
  induction a as [|x a IH]; simpl.
  - now destruct (last_nl b).
  - rewrite IH. now destruct (last_nl b).
Qed.

Lemma last_nl_lt (s : string) (i : nat) : last_nl s = Some i -> i < String.length s.
Proof.
  revert i; induction s as [|c s IH]; simpl; intros i H; [discriminate|].
  destruct (last_nl s) as [j|].
  - injection H as <-. specialize (IH j eq_refl). lia.
  - destruct (Ascii.eqb c LF); [injection H as <-; lia | discriminate].
Qed.

Lemma last_nl_none (s : string) : last_nl s = None <-> count_nl s = 0.
Proof.
  induction s as [|c s IH]; simpl; [tauto|].
  destruct (last_nl s) as [j|]; destruct (Ascii.eqb c LF); split; intros H;
    try discriminate; try reflexivity.
  - apply IH in H. discriminate.
  - apply IH. reflexivity.
Qed.

Lemma length_escape_newlines (s : string) :
  String.length (escape_newlines s) <= 2 * String.length s.
Proof.
  induction s as [|c s IH]; simpl; [lia|].
  destruct (Ascii.eqb c CR); [simpl; lia|].
  destruct (Ascii.eqb c LF); simpl; lia.
Qed.

Lemma length_slice (s : string) (a b : Z) :
  (0 <= b)%Z -> (Z.of_nat (String.length (slice s a b)) <= Z.max 0 (b - a))%Z.
Proof.
  intros Hb. unfold slice. rewrite length_take, length_drop.
  destruct (a <? 0)%Z eqn:Ha; destruct (b <? 0)%Z eqn:Hb'; lia.
Qed.

Lemma join_app (l1 l2 : list string) : join (l1 ++ l2) = join l1 ++ join l2.
Proof.
  induction l1 as [|x l1 IH]; simpl; [reflexivity|].
  unfold join in *; simpl. now rewrite IH, append_assoc.
Qed.

End JsStringFacts.

(* ================================================================== *)
(** * Facts about the tokenizer *)
(* ================================================================== *)
Module LexFacts.
Import Lex LexSpec LexRun JsStringFacts.

Section WithGrammarState.
Variable St : Type.
Implicit Types (grammar : Grammar St) (rules : Rules St) (st : St).

Lemma enters_pop_none (m : string) : enters MPop <> Some m.
Proof. discriminate. Qed.

(** A rule is accepted only with a non-empty token. *)
Lemma identify_nonempty rules current behind result mt st type token mt' st' :
  identify rules current behind result mt st = (Some (type, token, mt'), st') ->
  0 < String.length token.
Proof.
  revert mt st. induction rules as [|[ty value] rules IH]; intros mt st H.
  - discriminate.
  - simpl in H.
    destruct (try_value value current behind result mt st) as [[tok mt1] st1].
    destruct (String.eqb tok "") eqn:E.
    + eapply IH; eassumption.
    + injection H as _ -> _ _. destruct token; [discriminate | simpl; lia].
Qed.

Lemma lex_loop_S fuel grammar code mode result line col index st :
  lex_loop (S fuel) grammar code mode result line col index st =
  if Nat.ltb index (String.length code) then
    match identify (rules_of grammar mode) (drop index code) (take index code)
            result MUndefined st with
    | (None, st1) =>
        (Throw (mkLexError mode line col (error_msg code index)), st1)
    | (Some (type, token, matchType), st1) =>
        let token1 := token_of token type matchType mode line col in
        let continue (tok : Token) (st' : St) :=
          lex_loop fuel grammar code mode (result ++ [tok])
            (fst (advance line col (text tok)))
            (snd (advance line col (text tok)))
            (index + String.length (text tok)) st' in
        match matchType with
        | MPop => (Return Ascended (result ++ [token1]), st1)
        | _ =>
            match enters matchType with
            | Some m =>
                match lex_loop fuel grammar code m [] line
                        (col + Z.of_nat (String.length token))%Z
                        (index + String.length token) st1 with
                | (Return _ inner, st2) =>
                    continue (composite type mode line col (token1 :: inner)) st2
                | (other, st2) => (other, st2)
                end
            | None => continue token1 st1
            end
        end
    end
  else (Return EndOfInput result, st).
Proof. reflexivity. Qed.

Lemma length_composite type mode line col first inner :
  String.length (text first) <=
  String.length (text (composite type mode line col (first :: inner))).
Proof.
  simpl. unfold join_tokens, join. simpl. rewrite length_append. lia.
Qed.

(** Every result of the loop other than [Timeout] is a run. *)
Lemma lex_loop_sound fuel grammar code :
  forall mode result line col index st out st',
    lex_loop fuel grammar code mode result line col index st = (out, st') ->
    out <> Timeout ->
    Lexes grammar code mode result line col index st out st'.
Proof.
  induction fuel as [|fuel IH]; intros mode result line col index st out st' H Hout.
  - simpl in H. injection H as <- <-. contradiction.
  - rewrite lex_loop_S in H.
    destruct (Nat.ltb index (String.length code)) eqn:Hlt.
    2:{ injection H as <- <-. apply Lexes_end. apply Nat.ltb_ge. exact Hlt. }
    apply Nat.ltb_lt in Hlt.
    destruct (identify _ _ _ _ _ _) as [[[[type token] matchType]|] st1] eqn:Hid.
    2:{ injection H as <- <-. now apply Lexes_unknown. }
    cbv zeta in H.
    destruct (enters matchType) as [m|] eqn:Hent.
    + assert (Hnp : matchType <> MPop) by (intros ->; discriminate).
      assert (H' :
        match lex_loop fuel grammar code m [] line
                (col + Z.of_nat (String.length token))%Z
                (index + String.length token) st1 with
        | (Return _ inner, st2) =>
            lex_loop fuel grammar code mode
              (result ++ [composite type mode line col
                            (token_of token type matchType mode line col :: inner)])
              (fst (advance line col (text (composite type mode line col
                 (token_of token type matchType mode line col :: inner)))))
              (snd (advance line col (text (composite type mode line col
                 (token_of token type matchType mode line col :: inner)))))
              (index + String.length (text (composite type mode line col
                 (token_of token type matchType mode line col :: inner)))) st2
        | (other, st2) => (other, st2)
        end = (out, st')).
      { destruct matchType; try contradiction; exact H. }
      clear H.
      destruct (lex_loop fuel grammar code m [] line _ _ st1)
        as [[how inner|e|] st2] eqn:Hin.
      * eapply Lexes_descend; try eassumption.
        -- eapply IH; [exact Hin | discriminate].
        -- cbv zeta. eapply IH; eassumption.
      * injection H' as <- <-.
        eapply Lexes_descend_throw; try eassumption.
        eapply IH; [exact Hin | discriminate].
      * injection H' as <- <-. contradiction.
    + destruct matchType as [| |m'].
      * eapply Lexes_plain; try eassumption; [discriminate|].
        eapply IH; eassumption.
      * injection H as <- <-. now eapply Lexes_ascend.
      * eapply Lexes_plain; try eassumption; [discriminate|].
        eapply IH; eassumption.
Qed.

(** With more fuel than input left, the loop gives the same result
    whatever the fuel, and that result is not [Timeout]. *)
Lemma lex_loop_fuel fuel grammar code :
  forall mode result line col index st,
    String.length code - index < fuel ->
    fst (lex_loop fuel grammar code mode result line col index st) <> Timeout /\
    forall fuel2, String.length code - index < fuel2 ->
      lex_loop fuel2 grammar code mode result line col index st =
      lex_loop fuel grammar code mode result line col index st.
Proof.
  induction fuel as [|fuel IH]; intros mode result line col index st Hf; [lia|].
  assert (Hstep : forall fuel2, String.length code - index < fuel2 ->
            exists f2, fuel2 = S f2) by (intros [|f2] ?; [lia | eauto]).
  rewrite lex_loop_S.
  destruct (Nat.ltb index (String.length code)) eqn:Hlt.
  2:{ split; [discriminate|]. intros fuel2 H2.
      destruct (Hstep _ H2) as [f2 ->]. rewrite lex_loop_S, Hlt. reflexivity. }
  apply Nat.ltb_lt in Hlt.
  destruct (identify _ _ _ _ _ _) as [[[[type token] matchType]|] st1] eqn:Hid.
  2:{ split; [discriminate|]. intros fuel2 H2.
      destruct (Hstep _ H2) as [f2 ->].
      rewrite lex_loop_S, (proj2 (Nat.ltb_lt _ _) Hlt), Hid. reflexivity. }
  pose proof (identify_nonempty _ _ _ _ _ _ _ _ _ _ Hid) as Hne.
  cbv zeta.
  assert (Hplain : forall tok st2, String.length token <= String.length (text tok) ->
    fst (lex_loop fuel grammar code mode (result ++ [tok])
           (fst (advance line col (text tok))) (snd (advance line col (text tok)))
           (index + String.length (text tok)) st2) <> Timeout /\
    forall f2, String.length code - index < S f2 ->
      lex_loop f2 grammar code mode (result ++ [tok])
        (fst (advance line col (text tok))) (snd (advance line col (text tok)))
        (index + String.length (text tok)) st2 =
      lex_loop fuel grammar code mode (result ++ [tok])
        (fst (advance line col (text tok))) (snd (advance line col (text tok)))
        (index + String.length (text tok)) st2).
  { intros tok st2 Hlen.
    destruct (IH mode (result ++ [tok])%list (fst (advance line col (text tok)))
                (snd (advance line col (text tok)))
                (index + String.length (text tok)) st2) as [A B]; [lia|].
    split; [exact A|]. intros f2 H2. apply B. lia. }
  destruct (enters matchType) as [m|] eqn:Hent.
  - assert (Hnp : matchType <> MPop) by (intros ->; discriminate).
    destruct (IH m [] line (col + Z.of_nat (String.length token))%Z
                (index + String.length token) st1) as [A B]; [lia|].
    assert (Hbody : forall f,
      match matchType with
      | MPop => (Return Ascended
                   (result ++ [token_of token type matchType mode line col]), st1)
      | _ =>
          match lex_loop f grammar code m [] line
                  (col + Z.of_nat (String.length token))%Z
                  (index + String.length token) st1 with
          | (Return _ inner, st2) =>
              lex_loop f grammar code mode
                (result ++ [composite type mode line col
                   (token_of token type matchType mode line col :: inner)])
                (fst (advance line col (text (composite type mode line col
                   (token_of token type matchType mode line col :: inner)))))
                (snd (advance line col (text (composite type mode line col
                   (token_of token type matchType mode line col :: inner)))))
                (index + String.length (text (composite type mode line col
                   (token_of token type matchType mode line col :: inner)))) st2
          | (other, st2) => (other, st2)
          end
      end =
      match lex_loop f grammar code m [] line
              (col + Z.of_nat (String.length token))%Z
              (index + String.length token) st1 with
      | (Return _ inner, st2) =>
          lex_loop f grammar code mode
            (result ++ [composite type mode line col
               (token_of token type matchType mode line col :: inner)])
            (fst (advance line col (text (composite type mode line col
               (token_of token type matchType mode line col :: inner)))))
            (snd (advance line col (text (composite type mode line col
               (token_of token type matchType mode line col :: inner)))))
            (index + String.length (text (composite type mode line col
               (token_of token type matchType mode line col :: inner)))) st2
      | (other, st2) => (other, st2)
      end).
    { intros f. destruct matchType; try contradiction; reflexivity. }
    rewrite Hbody.
    assert (Hsame : forall f2, String.length code - index < S f2 ->
              lex_loop f2 grammar code m [] line
                (col + Z.of_nat (String.length token))%Z
                (index + String.length token) st1 =
              lex_loop fuel grammar code m [] line
                (col + Z.of_nat (String.length token))%Z
                (index + String.length token) st1)
      by (intros f2 H2; apply B; lia).
    destruct (lex_loop fuel grammar code m [] line _ _ st1)
      as [[how inner|e|] st2] eqn:Hin.
    + destruct (Hplain (composite type mode line col
                 (token_of token type matchType mode line col :: inner)) st2)
        as [C D].
      { exact (length_composite type mode line col
                 (token_of token type matchType mode line col) inner). }
      split; [exact C|]. intros fuel2 H2.
      destruct (Hstep _ H2) as [f2 ->].
      rewrite lex_loop_S, (proj2 (Nat.ltb_lt _ _) Hlt), Hid. cbv zeta.
      rewrite Hent, Hbody, (Hsame f2 H2). apply D. exact H2.
    + split; [discriminate|]. intros fuel2 H2.
      destruct (Hstep _ H2) as [f2 ->].
      rewrite lex_loop_S, (proj2 (Nat.ltb_lt _ _) Hlt), Hid. cbv zeta.
      rewrite Hent, Hbody, (Hsame f2 H2). reflexivity.
    + simpl in A. contradiction.
  - destruct (Hplain (token_of token type matchType mode line col) st1) as [C D];
      [simpl; lia|].
    destruct matchType as [| |m'].
    + split; [exact C|]. intros fuel2 H2.
      destruct (Hstep _ H2) as [f2 ->].
      rewrite lex_loop_S, (proj2 (Nat.ltb_lt _ _) Hlt), Hid. cbv zeta.
      rewrite Hent. apply D. exact H2.
    + split; [discriminate|]. intros fuel2 H2.
      destruct (Hstep _ H2) as [f2 ->].
      rewrite lex_loop_S, (proj2 (Nat.ltb_lt _ _) Hlt), Hid. reflexivity.
    + split; [exact C|]. intros fuel2 H2.
      destruct (Hstep _ H2) as [f2 ->].
      rewrite lex_loop_S, (proj2 (Nat.ltb_lt _ _) Hlt), Hid. cbv zeta.
      rewrite Hent. apply D. exact H2.
Qed.

Lemma rules_of_anchored grammar mode :
  anchored_grammar grammar -> anchored_rules (rules_of grammar mode).
Proof.
  intros H. induction H as [|[m rules] g Hm Hg IH]; simpl.
  - constructor.
  - destruct (String.eqb m mode); [exact Hm | exact IH].
Qed.

Lemma try_pattern_anchored p current behind result mt st token mt' st' :
  anchored p ->
  try_pattern p current behind result mt st = (token, mt', st') ->
  startsWith current token = true.
Proof.
  intros Hp H. destruct p as [s|re|f]; simpl in *.
  - destruct (startsWith current s) eqn:E; injection H as <- _ _;
      [exact E | apply startsWith_nil].
  - destruct (re current) as [m0|] eqn:E; injection H as <- _ _;
      [eapply Hp; exact E | apply startsWith_nil].
  - destruct (f current behind result st) as [[[t mt1]|] st1] eqn:E;
      injection H as <- _ _; [eapply Hp; exact E | apply startsWith_nil].
Qed.

Lemma try_value_anchored value current behind result :
  Forall anchored value ->
  forall mt st token mt' st',
    try_value value current behind result mt st = (token, mt', st') ->
    startsWith current token = true.
Proof.
  induction 1 as [|p value Hp Hv IH]; intros mt st token mt' st' H; simpl in H.
  - injection H as <- _ _. apply startsWith_nil.
  - destruct (try_pattern p current behind result mt st) as [[tok mt1] st1] eqn:E.
    destruct (String.eqb tok "").
    + eapply IH; exact H.
    + injection H as <- _ _. eapply try_pattern_anchored; eassumption.
Qed.

(** The token of an anchored mode is a prefix of the code ahead. *)
Lemma identify_anchored rules current behind result :
  anchored_rules rules ->
  forall mt st type token mt' st',
    identify rules current behind result mt st = (Some (type, token, mt'), st') ->
    startsWith current token = true.
Proof.
  induction 1 as [|[ty value] rules Hv Hr IH]; intros mt st type token mt' st' H;
    simpl in H; [discriminate|].
  destruct (try_value value current behind result mt st) as [[tok mt1] st1] eqn:E.
  destruct (String.eqb tok "").
  - eapply IH; exact H.
  - injection H as _ <- _ _. eapply try_value_anchored; [exact Hv | exact E].
Qed.

Lemma join_tokens_cons (t : Token) (l : list Token) :
  join_tokens (t :: l) = text t ++ join_tokens l.
Proof. reflexivity. Qed.

Lemma join_tokens_app (l1 l2 : list Token) :
  join_tokens (l1 ++ l2) = join_tokens l1 ++ join_tokens l2.
Proof. unfold join_tokens. rewrite map_app. apply join_app. Qed.

Lemma join_tokens_one (t : Token) : join_tokens [t] = text t.
Proof. unfold join_tokens, join. simpl. apply append_nil_r. Qed.

(** The slice a token of an anchored mode covers. *)
Lemma anchored_slice grammar code mode index result st type token mt st1 :
  anchored_grammar grammar ->
  index < String.length code ->
  identify (rules_of grammar mode) (drop index code) (take index code)
    result MUndefined st = (Some (type, token, mt), st1) ->
  token = take (String.length token) (drop index code) /\
  index + String.length token <= String.length code.
Proof.
  intros Hg Hlt Hid.
  pose proof (identify_anchored _ _ _ _ (rules_of_anchored _ mode Hg)
                _ _ _ _ _ _ Hid) as Hpre.
  split; [now apply startsWith_take|].
  apply startsWith_length in Hpre. rewrite length_drop in Hpre. lia.
Qed.

Lemma take_slices (a b : nat) (i : nat) (code : string) :
  take a (drop i code) ++ take b (drop (i + a) code) = take (a + b) (drop i code).
Proof. rewrite <- drop_drop. apply take_add. Qed.

Lemma length_take_within (k i : nat) (code : string) :
  i + k <= String.length code -> String.length (take k (drop i code)) = k.
Proof. intros H. rewrite length_take, length_drop. lia. Qed.

(** What an invocation over an anchored grammar returns: its [result]
    followed by tokens whose texts, joined, are the code from [index]
    on, up to the end of the code unless the invocation ascended. *)
Lemma Lexes_consumed grammar code :
  anchored_grammar grammar ->
  forall mode result line col index st out st',
    Lexes grammar code mode result line col index st out st' ->
    index <= String.length code ->
    forall how toks, out = Return how toks ->
      exists new k,
        toks = (result ++ new)%list /\
        join_tokens new = take k (drop index code) /\
        index + k <= String.length code /\
        (how = EndOfInput -> index + k = String.length code).
Proof.
  intros Hg mode result line col index st out st' H.
  induction H as
    [ mode result line col index st Hge
    | mode result line col index st st1 Hlt Hid
    | mode result line col index st type token st1 Hlt Hid
    | mode result line col index st type token matchType st1 out st' Hlt Hid
        Hnp Hent Hrest IH
    | mode result line col index st type token matchType st1 m how' inner st2
        out st' Hlt Hid Hent Hin IHin tok Hrest IH
    | mode result line col index st type token matchType st1 m e st2
        Hlt Hid Hent Hin IHin ];
    intros Hle how toks Hout.
  - injection Hout as <- <-. exists [], 0. rewrite app_nil_r.
    split; [reflexivity|]. split; [reflexivity|]. split; [lia | intros _; lia].
  - discriminate.
  - injection Hout as <- <-.
    destruct (anchored_slice _ _ _ _ _ _ _ _ _ _ Hg Hlt Hid) as [Htok Hlen].
    exists [token_of token type MPop mode line col], (String.length token).
    rewrite join_tokens_one.
    split; [reflexivity|]. split; [exact Htok|]. split; [exact Hlen | discriminate].
  - destruct (anchored_slice _ _ _ _ _ _ _ _ _ _ Hg Hlt Hid) as [Htok Hlen].
    destruct (IH Hlen how toks Hout) as (new & k & -> & Hjoin & Hk & Hend).
    exists (token_of token type matchType mode line col :: new),
           (String.length token + k).
    rewrite <- app_assoc. split; [reflexivity|]. split; [|split].
    + rewrite join_tokens_cons, Hjoin. simpl. rewrite Htok at 1.
      apply take_slices.
    + lia.
    + intros E. specialize (Hend E). lia.
  - destruct (anchored_slice _ _ _ _ _ _ _ _ _ _ Hg Hlt Hid) as [Htok Hlen].
    destruct (IHin Hlen how' inner eq_refl) as (new_i & ki & Hi & Hjoin_i & Hki & _).
    simpl in Hi. subst new_i.
    assert (Htext : text tok = take (String.length token + ki) (drop index code)).
    { subst tok. simpl. rewrite join_tokens_cons, Hjoin_i. simpl.
      rewrite Htok at 1. apply take_slices. }
    assert (Hlen_tok : String.length (text tok) = String.length token + ki).
    { rewrite Htext. apply length_take_within. lia. }
    assert (Hle' : index + String.length (text tok) <= String.length code) by lia.
    destruct (IH Hle' how toks Hout) as (new & k & -> & Hjoin & Hk & Hend).
    exists (tok :: new), (String.length (text tok) + k).
    rewrite <- app_assoc. split; [reflexivity|]. split; [|split].
    + rewrite join_tokens_cons, Hjoin, Hlen_tok, Htext.
      apply take_slices.
    + lia.
    + intros E. specialize (Hend E). lia.
  - discriminate.
Qed.


(** Each token returned starts where lines 77 to 79 left the position
    after the one before it, whatever the grammar. *)
Lemma Lexes_follows grammar code :
  forall mode result line col index st out st',
    Lexes grammar code mode result line col index st out st' ->
    forall how toks, out = Return how toks ->
      exists new, toks = (result ++ new)%list /\ follows line col new.
Proof.
  intros mode result line col index st out st' H.
  induction H as
    [ mode result line col index st Hge
    | mode result line col index st st1 Hlt Hid
    | mode result line col index st type token st1 Hlt Hid
    | mode result line col index st type token matchType st1 out st' Hlt Hid
        Hnp Hent Hrest IH
    | mode result line col index st type token matchType st1 m how' inner st2
        out st' Hlt Hid Hent Hin IHin tok Hrest IH
    | mode result line col index st type token matchType st1 m e st2
        Hlt Hid Hent Hin IHin ];
    intros how toks Hout; try discriminate.
  - injection Hout as <- <-. exists []. now rewrite app_nil_r.
  - injection Hout as <- <-. eexists. split; [reflexivity|]. simpl. auto.
  - destruct (IH how toks Hout) as (new & -> & Hf).
    exists (token_of token type matchType mode line col :: new).
    rewrite <- app_assoc. split; [reflexivity|]. simpl. auto.
  - destruct (IH how toks Hout) as (new & -> & Hf).
    exists (tok :: new).
    rewrite <- app_assoc. split; [reflexivity|]. simpl. auto.
Qed.

(** ** C9: termination *)

(** C9.  On every grammar and every input [lex] terminates: with the
    fuel [lex_from] supplies, or any larger amount, the loop of lines
    36 to 82 ends in a token sequence or in the error of line 58, never
    by running out of fuel.  A rule is accepted only with a non-empty
    token, so the cursor of the next pass, and the cursor at which a
    sub-mode starts, are past the current one. *)
Theorem lex_terminates grammar code mode result line col index st :
  (exists out st',
     lex_from grammar code mode result line col index st = (out, st') /\
     ((exists how toks, out = Return how toks) \/ (exists e, out = Throw e)) /\
     forall extra,
       lex_loop (S (String.length code - index) + extra) grammar code
         (start_mode grammar mode) result line col index st = (out, st')) /\
  (forall rules current behind result0 mt st0 type token mt' st1,
     identify rules current behind result0 mt st0 = (Some (type, token, mt'), st1) ->
     index < index + String.length token).
Proof.
  split.
  2:{ intros rules current behind result0 mt st0 type token mt' st1 H.
      pose proof (identify_nonempty _ _ _ _ _ _ _ _ _ _ H). lia. }
  unfold lex_from.
  destruct (lex_loop_fuel (S (String.length code - index)) grammar code
              (start_mode grammar mode) result line col index st) as [A B];
    [lia|].
  destruct (lex_loop (S (String.length code - index)) grammar code
              (start_mode grammar mode) result line col index st)
    as [out st'] eqn:E.
  exists out, st'. split; [reflexivity|]. split.
  - destruct out as [how toks|e|]; [left; eauto | right; eauto |].
    simpl in A. contradiction.
  - intros extra. apply B. lia.
Qed.

Lemma lex_from_run grammar code mode result line col index st out st' :
  lex_from grammar code mode result line col index st = (out, st') ->
  Lexes grammar code (start_mode grammar mode) result line col index st out st'.
Proof.
  intros H. unfold lex_from in H.
  eapply lex_loop_sound; [exact H|].
  destruct (lex_loop_fuel (S (String.length code - index)) grammar code
              (start_mode grammar mode) result line col index st) as [A _];
    [lia|].
  rewrite H in A. exact A.
Qed.

(** ** C1: round trip *)

(** C1 (amended).  Over a grammar whose rules match at the cursor, the
    texts of the returned tokens, joined, are a prefix of the input, and
    the whole input when the call ended at the end of the input rather
    than on a rule that leaves the mode. *)
Theorem lex_roundtrip grammar code mode st how toks st' :
  anchored_grammar grammar ->
  lex grammar code mode st = (Return how toks, st') ->
  (exists k, join_tokens toks = take k code) /\
  (how = EndOfInput -> join_tokens toks = code).
Proof.
  intros Hg H. apply lex_from_run in H.
  destruct (Lexes_consumed grammar code Hg _ _ _ _ _ _ _ _ H (Nat.le_0_l _)
              how toks eq_refl) as (new & k & -> & Hjoin & Hk & Hend).
  simpl in *. split.
  - exists k. exact Hjoin.
  - intros E. rewrite Hjoin, (Hend E). apply take_all. lia.
Qed.

(** ** C5: end of input inside a sub-mode *)


(** ** C6: line and column *)

Lemma advance_at (a b : string) :
  advance (line_at a) (col_at a) b = (line_at (a ++ b), col_at (a ++ b)).
Proof.
  unfold advance, line_at, col_at, lastIndexOf_nl.
  rewrite count_nl_app, last_nl_app, length_append.
  destruct (last_nl b) as [j|] eqn:Eb.
  - pose proof (last_nl_lt _ _ Eb).
    replace (Z.of_nat j >? -1)%Z with true by (symmetry; apply Z.gtb_lt; lia).
    f_equal; lia.
  - replace (-1 >? -1)%Z with false by reflexivity.
    destruct (last_nl a) as [i|] eqn:Ea.
    + pose proof (last_nl_lt _ _ Ea). f_equal; lia.
    + f_equal; lia.
Qed.

Lemma advance_slice code index k line col :
  line = line_at (take index code) ->
  col = col_at (take index code) ->
  fst (advance line col (take k (drop index code))) = line_at (take (index + k) code)
  /\ snd (advance line col (take k (drop index code))) = col_at (take (index + k) code).
Proof.
  intros -> ->. rewrite advance_at, take_add. split; reflexivity.
Qed.

(** A token without a line feed moves the column only. *)
Lemma advance_one_line line col token :
  count_nl token = 0 ->
  advance line col token = (line, (col + Z.of_nat (String.length token))%Z).
Proof.
  intros H. unfold advance, lastIndexOf_nl.
  rewrite H, (proj2 (last_nl_none token) H). simpl. f_equal. lia.
Qed.

(** Lines 77 to 79 in the words of the specification: the line grows by
    the line feeds of the token; the column becomes the length of the
    text after the last line feed plus one, or grows by the length of
    the token when it has none. *)
Lemma advance_spec line col token :
  advance line col token =
  ((line + Z.of_nat (count_nl token))%Z,
   match last_nl token with
   | Some i => (Z.of_nat (String.length token - i - 1) + 1)%Z
   | None => (col + Z.of_nat (String.length token))%Z
   end).
Proof.
  unfold advance, lastIndexOf_nl. f_equal.
  destruct (last_nl token) as [i|] eqn:E.
  - pose proof (last_nl_lt _ _ E).
    replace (Z.of_nat i >? -1)%Z with true by (symmetry; apply Z.gtb_lt; lia).
    lia.
  - reflexivity.
Qed.

Lemma emitted_top_cons off (t : Token) l :
  emitted_top off (t :: l) = (off, t) :: emitted_top (off + String.length (text t)) l.
Proof. reflexivity. Qed.

Lemma emitted_cons off (t : Token) l :
  emitted off (t :: l) = (emitted1 off t ++ emitted (off + String.length (text t)) l)%list.
Proof. reflexivity. Qed.

(** Over an anchored grammar, an invocation that starts at the right
    line and column returns tokens that carry the line and column of
    their offsets; so do their children, as long as no text that opened
    a sub-mode contains a line feed. *)
Lemma Lexes_placed grammar code :
  anchored_grammar grammar ->
  forall mode result line col index st out st',
    Lexes grammar code mode result line col index st out st' ->
    index <= String.length code ->
    line = line_at (take index code) ->
    col = col_at (take index code) ->
    forall how toks, out = Return how toks ->
      exists new,
        toks = (result ++ new)%list /\
        Forall (placed code) (emitted_top index new) /\
        (forallb opens_on_one_line new = true ->
         Forall (placed code) (emitted index new)).
Proof.
  intros Hg mode result line col index st out st' H.
  induction H as
    [ mode result line col index st Hge
    | mode result line col index st st1 Hlt Hid
    | mode result line col index st type token st1 Hlt Hid
    | mode result line col index st type token matchType st1 out st' Hlt Hid
        Hnp Hent Hrest IH
    | mode result line col index st type token matchType st1 m how' inner st2
        out st' Hlt Hid Hent Hin IHin tok Hrest IH
    | mode result line col index st type token matchType st1 m e st2
        Hlt Hid Hent Hin IHin ];
    intros Hle Hline Hcol how toks Hout; try discriminate.
  - injection Hout as <- <-. exists []. rewrite app_nil_r.
    split; [reflexivity|]. split; [constructor | intros _; constructor].
  - injection Hout as <- <-.
    exists [token_of token type MPop mode line col].
    split; [reflexivity|].
    split; [|intros _]; (constructor; [split; assumption | constructor]).
  - destruct (anchored_slice _ _ _ _ _ _ _ _ _ _ Hg Hlt Hid) as [Htok Hlen].
    destruct (advance_slice code index (String.length token) line col Hline Hcol)
      as [Hl' Hc'].
    rewrite <- Htok in Hl', Hc'.
    destruct (IH Hlen Hl' Hc' how toks Hout) as (new & -> & Htop & Hall).
    exists (token_of token type matchType mode line col :: new).
    rewrite <- app_assoc. split; [reflexivity|]. split.
    + rewrite emitted_top_cons. constructor; [split; assumption | exact Htop].
    + intros Hok. simpl in Hok. rewrite emitted_cons. simpl.
      constructor; [split; assumption | apply Hall; exact Hok].
  - destruct (anchored_slice _ _ _ _ _ _ _ _ _ _ Hg Hlt Hid) as [Htok Hlen].
    destruct (Lexes_consumed grammar code Hg _ _ _ _ _ _ _ _ Hin Hlen
                how' inner eq_refl) as (new_i & ki & Hi & Hjoin_i & Hki & _).
    simpl in Hi. subst new_i.
    assert (Htext : text tok = take (String.length token + ki) (drop index code)).
    { subst tok. simpl. rewrite join_tokens_cons, Hjoin_i. simpl.
      rewrite Htok at 1. apply take_slices. }
    assert (Hlen_tok : String.length (text tok) = String.length token + ki).
    { rewrite Htext. apply length_take_within. lia. }
    assert (Hle' : index + String.length (text tok) <= String.length code) by lia.
    destruct (advance_slice code index (String.length token + ki) line col
                Hline Hcol) as [Hl' Hc'].
    rewrite <- Htext, <- Hlen_tok in Hl', Hc'.
    destruct (IH Hle' Hl' Hc' how toks Hout) as (new & -> & Htop & Hall).
    exists (tok :: new).
    rewrite <- app_assoc. split; [reflexivity|]. split.
    + rewrite emitted_top_cons. constructor; [split; assumption | exact Htop].
    + intros Hok. rewrite emitted_cons. apply Forall_app. split.
      2:{ apply Hall. simpl in Hok. apply andb_prop in Hok. apply Hok. }
      simpl in Hok.
      apply andb_prop in Hok. destruct Hok as [Hok _].
      apply andb_prop in Hok. destruct Hok as [Hone Hok].
      apply Nat.eqb_eq in Hone.
      pose proof (advance_one_line line col token Hone) as Hadv.
      destruct (advance_slice code index (String.length token) line col
                  Hline Hcol) as [Hl1 Hc1].
      rewrite <- Htok, Hadv in Hl1, Hc1. simpl in Hl1, Hc1.
      destruct (IHin Hlen Hl1 Hc1 how' inner eq_refl) as (new_i & Hi & _ & Hin_all).
      simpl in Hi. subst new_i.
      subst tok. simpl.
      constructor; [split; assumption|].
      constructor; [split; assumption|].
      apply Hin_all. exact Hok.
Qed.

(** C6 (amended).  Over a grammar whose rules match at the cursor, every
    token of the sequence [lex] returns has the line and the column of
    its first character: one more than the line feeds of the input
    before it, and the characters since the last of them plus one (the
    offset plus one when there is none).  The same holds for the
    children at every depth when no text that opened a sub-mode contains
    a line feed.  On every grammar, each returned token starts where
    lines 77 to 79 left the position after the token before it: the line
    grown by the line feeds of that token, the column set to the length
    of its text after the last line feed plus one, or grown by its
    length when it has none. *)
Theorem lex_positions grammar code mode st how toks st' :
  lex grammar code mode st = (Return how toks, st') ->
  follows 1 1 toks /\
  (forall line0 col0 token,
     advance line0 col0 token =
     ((line0 + Z.of_nat (count_nl token))%Z,
      match last_nl token with
      | Some i => (Z.of_nat (String.length token - i - 1) + 1)%Z
      | None => (col0 + Z.of_nat (String.length token))%Z
      end)) /\
  (anchored_grammar grammar ->
     Forall (placed code) (emitted_top 0 toks) /\
     (forallb opens_on_one_line toks = true ->
      Forall (placed code) (emitted 0 toks))).
Proof.
  intros H. apply lex_from_run in H. split; [|split].
  - destruct (Lexes_follows grammar code _ _ _ _ _ _ _ _ H how toks eq_refl)
      as (new & -> & Hf). exact Hf.
  - exact advance_spec.
  - intros Hg.
    destruct (Lexes_placed grammar code Hg _ _ _ _ _ _ _ _ H (Nat.le_0_l _)
                eq_refl eq_refl how toks eq_refl) as (new & -> & Htop & Hall).
    split; assumption.
Qed.

End WithGrammarState.
End LexFacts.

(* ================================================================== *)
(** * Facts about the html/js grammar *)
(* ================================================================== *)
Module HtmlJsFacts.
Import Lex RegExp LexHtmlJs LexSpec LexRun JsStringFacts Samples.

Lemma startsWith_take_self (n : nat) (s : string) : startsWith s (take n s) = true.
Proof.
  unfold startsWith. revert s; induction n as [|n IH]; intros [|c s]; simpl;
    try reflexivity.
  destruct (ascii_dec c c) as [_|ne]; [apply IH | contradiction].
Qed.

Lemma leftmost_after_bol icase r input starts :
  Forall (fun s => s <> 0) starts ->
  leftmost icase (Seq Bol r) input starts = None.
Proof.
  induction 1 as [|s starts Hs _ IH]; simpl; [reflexivity|].
  destruct s as [|s]; [contradiction | exact IH].
Qed.

(** A regular expression that begins with [^] matches at the cursor. *)
Lemma exec_bol icase r input m0 :
  exec icase (Seq Bol r) input = Some m0 -> startsWith input m0 = true.
Proof.
  unfold exec. simpl seq. cbn [leftmost]. intros H.
  destruct (m icase (Seq Bol r) input 0 (fun e => Some e)) as [e|].
  - injection H as <-. apply startsWith_take_self.
  - rewrite leftmost_after_bol in H; [discriminate|].
    apply Forall_forall. intros s Hs. apply in_seq in Hs. lia.
Qed.

Lemma first_is_startsWith code c :
  first_is code c = true -> startsWith code (String c "") = true.
Proof.
  destruct code as [|c0 code]; simpl; [discriminate|].
  intros H. apply Ascii.eqb_eq in H. subst c0. unfold startsWith. simpl.
  destruct (ascii_dec c c) as [_|ne]; [now destruct code | contradiction].
Qed.

Lemma anchored_regexp r : anchored (regexp (Seq Bol r)).
Proof. intros current m0. apply exec_bol. Qed.

Lemma anchored_regexp_i r : anchored (regexp_i (Seq Bol r)).
Proof. intros current m0. apply exec_bol. Qed.

Lemma anchored_pure f :
  (forall code t mt, f code = Some (t, mt) -> startsWith code t = true) ->
  anchored (pure f).
Proof.
  intros Hf current behind result st t mt st' H. simpl in H.
  injection H as H _. eapply Hf; exact H.
Qed.

Lemma anchored_expr hash : anchored (expr hash).
Proof.
  intros current behind result st t mt st' H. simpl in H.
  destruct ((hash && startsWith current "#{") || startsWith current "${");
    [|discriminate].
  injection H as <- _ _. exact (startsWith_take_self 2 current).
Qed.

Lemma anchored_template : anchored template.
Proof.
  intros current behind result st t mt st' H. simpl in H.
  destruct (first_is current BACKTICK) eqn:E; [|discriminate].
  injection H as <- _ _. now apply first_is_startsWith.
Qed.

Lemma anchored_openTag goInto : anchored (openTag goInto).
Proof.
  apply anchored_pure. intros code t mt H.
  destruct (exec true _ code) as [m0|] eqn:E; [|discriminate].
  injection H as <- _. eapply exec_bol; exact E.
Qed.

Lemma anchored_templateText hash : anchored (templateText hash).
Proof.
  apply anchored_pure. intros code t mt H. cbv zeta in H.
  destruct (exec false _ code) as [m0|] eqn:E; [|discriminate].
  injection H as <- _. eapply exec_bol; exact E.
Qed.

Lemma anchored_regex : anchored regex.
Proof.
  intros current behind result st t mt st' H. unfold regex in H.
  match type of H with
  | (if ?b then _ else _) = _ => destruct b; [|discriminate]
  end.
  destruct (exec false _ current) as [m0|] eqn:E; [|discriminate].
  injection H as <- _ _. eapply exec_bol; exact E.
Qed.

Lemma anchored_first_is c out mt0 :
  out = String c "" ->
  anchored (St := Depths)
    (pure (fun code => if first_is code c then Some (out, mt0) else None)).
Proof.
  intros ->. apply anchored_pure. intros code t mt H.
  destruct (first_is code c) eqn:E; [|discriminate].
  injection H as <- _. now apply first_is_startsWith.
Qed.

Lemma anchored_tag : anchored_rules (tag false).
Proof.
  unfold tag.
  repeat (apply Forall_cons; [cbn [snd]|]); try apply Forall_nil;
    repeat (apply Forall_cons; [|]); try apply Forall_nil;
    try exact I;
    try apply anchored_regexp; try apply anchored_regexp_i;
    try apply anchored_template;
    try (apply anchored_first_is; reflexivity).
  - apply anchored_pure. intros code t mt H.
    destruct (first_is code ">") eqn:E.
    + injection H as <- _. now apply first_is_startsWith.
    + destruct (startsWith code "/>") eqn:E2; [|discriminate].
      injection H as <- _. exact E2.
  - apply anchored_pure. intros code t mt H. discriminate.
Qed.

Lemma anchored_js : anchored_rules js.
Proof.
  unfold js.
  repeat (apply Forall_cons; [cbn [snd map]|]); try apply Forall_nil;
    repeat (apply Forall_cons; [|]); try apply Forall_nil;
    try exact I;
    try apply anchored_regexp; try apply anchored_regexp_i;
    try apply anchored_regex.
  - intros current behind result st t mt st' H. simpl in H.
    destruct (first_is current BACKTICK) eqn:E; [|discriminate].
    injection H as <- _ _. now apply first_is_startsWith.
  - intros current behind result st t mt st' H. simpl in H.
    destruct (first_is current "{") eqn:E; [|discriminate].
    injection H as <- _ _. now apply first_is_startsWith.
  - intros current behind result st t mt st' H. simpl in H.
    destruct (first_is current "}") eqn:E; [|discriminate].
    destruct ((braceDepth st =? 0)%Z && negb (templateDepth st =? 0)%Z);
      injection H as <- _ _; now apply first_is_startsWith.
Qed.

Lemma anchored_quoted hash quote : anchored_rules (quoted hash quote).
Proof.
  unfold quoted.
  repeat (apply Forall_cons; [cbn [snd]|]); try apply Forall_nil;
    repeat (apply Forall_cons; [|]); try apply Forall_nil.
  - apply anchored_expr.
  - apply anchored_regexp.
  - apply anchored_first_is. reflexivity.
Qed.

Lemma anchored_html : anchored_rules html.
Proof.
  unfold html.
  repeat (apply Forall_cons; [cbn [snd]|]); try apply Forall_nil;
    repeat (apply Forall_cons; [|]); try apply Forall_nil;
    try apply anchored_regexp; try apply anchored_regexp_i;
    try apply anchored_openTag.
Qed.

Lemma anchored_template_mode hash : anchored_rules (template_mode hash).
Proof.
  unfold template_mode.
  repeat (apply Forall_cons; [cbn [snd]|]); try apply Forall_nil;
    repeat (apply Forall_cons; [|]); try apply Forall_nil;
    try apply anchored_regexp; try apply anchored_regexp_i;
    try apply anchored_openTag; try apply anchored_expr;
    try apply anchored_template; try apply anchored_templateText.
Qed.

(** With [allowUnknownTagTokens] off (its default), every rule of the
    grammar matches at the cursor. *)
Lemma anchored_lexHtmlJs hash : anchored_grammar (lexHtmlJs hash false).
Proof.
  unfold lexHtmlJs.
  apply Forall_cons; [apply anchored_js|].
  apply Forall_cons; [apply anchored_html|].
  apply Forall_cons; [apply anchored_template_mode|].
  apply Forall_cons.
  { apply Forall_cons; [|apply anchored_tag].
    cbn [snd]. apply Forall_cons; [apply anchored_expr | apply Forall_nil]. }
  apply Forall_cons; [apply anchored_tag|].
  apply Forall_cons; [apply anchored_quoted|].
  apply Forall_cons; [apply anchored_quoted | apply Forall_nil].
Qed.

End HtmlJsFacts.

(* ================================================================== *)
(** * The tokenizer on concrete inputs *)
(* ================================================================== *)
Module LexScenarios.
Import Lex RegExp LexHtmlJs LexSpec LexFacts HtmlJsFacts Samples.

(** Scenario 1 of the specification: three tokens, at columns 1, 2, 3. *)
Example scenario_literal :
  lex literal_x "xxx" None tt =
  (Return EndOfInput
     [tok "x" "lit" "a" 1 1; tok "x" "lit" "a" 1 2; tok "x" "lit" "a" 1 3], tt).
Proof. reflexivity. Qed.

(** Scenario 4 of the specification, on the html/js grammar: nothing
    matches [#] at offset 5. *)
Example scenario_unknown_token :
  lex htmljs "let x#" (Some "js") loaded =
  (Throw (mkLexError "js" 1 6 "et x⚠️#"), loaded).
Proof. vm_compute. reflexivity. Qed.

(** The message of the error of scenario 4. *)
Example scenario_unknown_token_message :
  message (mkLexError "js" 1 6 "et x⚠️#") =
  "Unknown token within " ++ String DQUOTE "js" ++ String DQUOTE " at 1:6"
  ++ String CR lf ++ String DQUOTE "et x⚠️#" ++ String DQUOTE "".
Proof. reflexivity. Qed.

(** Scenario 2 of the specification: a template with a placeholder is one
    token; its children are the backtick, the text, the placeholder (itself
    with the children [${], [1] and [}]) and the closing backtick. *)
Example scenario_template :
  fst (lex htmljs "`hi ${1}`" (Some "js") loaded) =
  Return EndOfInput
    [composite "template" "js" 1 1
       [tok "`" "template" "template" 1 1;
        tok "hi " "text" "template" 1 2;
        composite "expr" "template" 1 5
          [tok "${" "expr" "js" 1 5; tok "1" "number" "js" 1 7;
           tok "}" "brace2" "js" 1 8];
        tok "`" "template" "template" 1 9]].
Proof. vm_compute. reflexivity. Qed.

(** On the html/js grammar itself a call can end before the end of the
    input: a backtick inside a tag closes the tag and lowers
    [templateDepth], the next one closes the template and leaves it
    negative, and the brace that follows at the top level is taken for the
    end of a placeholder.  The [x] after it is not read. *)
Example scenario_stray_brace :
  exists toks,
    fst (lex htmljs "`<a `` }x" (Some "js") loaded) = Return Ascended toks /\
    join_tokens toks = "`<a `` }".
Proof. eexists. split; vm_compute; reflexivity. Qed.

(** With [allowUnknownTagTokens] on, the rule [unknown] uses
    [/^\w+|\S/], whose second alternative is not anchored: after a lone
    carriage return in a tag it reports the [b] that follows, and [b] is
    tokenized twice. *)
Example scenario_unknown_tag_token :
  exists toks,
    fst (lex (lexHtmlJs false true) ("<a " ++ String CR "b>") (Some "html") loaded)
      = Return EndOfInput toks /\
    join_tokens toks = "<a bb>".
Proof. eexists. split; vm_compute; reflexivity. Qed.

(** The first pass over [let x#] accepts the keyword [let], three
    characters long, and moves the cursor from 0 to 3. *)
Lemma lex_terminates_witness : 0 < 0 + String.length "let".
Proof.
  refine (proj2 (lex_terminates Depths htmljs "let x#" (Some "js") [] 1 1 0 loaded)
            (rules_of htmljs "js") "let x#" "" [] MUndefined loaded
            "keyword" "let" MUndefined loaded _).
  vm_compute. reflexivity.
Defined.

(** The round trip on a template with a placeholder, tokenized with the
    html/js grammar. *)
Lemma lex_roundtrip_witness :
  exists toks st',
    lex htmljs "`hi ${1}`" (Some "js") loaded = (Return EndOfInput toks, st') /\
    join_tokens toks = "`hi ${1}`".
Proof.
  eexists. eexists. split; [vm_compute; reflexivity|].
  refine (proj2 (lex_roundtrip Depths htmljs "`hi ${1}`" (Some "js") loaded
                   EndOfInput _ _ (anchored_lexHtmlJs false) _) eq_refl).
  vm_compute. reflexivity.
Defined.

(** C1, as stated, fails: a rule of the start mode that leaves the mode
    ends the call after the first [x] of [xx]; and a regular expression
    that is not anchored reports a line feed found further on, so the
    tokens of [a], line feed, are two line feeds. *)
Lemma lex_roundtrip_counterexample :
  (fst (lex ascending "xx" None tt) = Return Ascended [tok "x" "x" "a" 1 1] /\
   join_tokens [tok "x" "x" "a" 1 1] <> "xx") /\
  (fst (lex unanchored ("a" ++ lf) None tt) =
     Return EndOfInput [tok lf "nl" "a" 1 1; tok lf "nl" "a" 2 1] /\
   join_tokens [tok lf "nl" "a" 1 1; tok lf "nl" "a" 2 1] <> "a" ++ lf).
Proof.
  split; (split; [vm_compute; reflexivity | vm_compute; discriminate]).
Qed.


(** Positions on two lines, with a template and a placeholder on the
    second. *)
Lemma lex_positions_witness :
  exists toks st',
    lex htmljs ("a" ++ lf ++ "`x${b}`") (Some "js") loaded
      = (Return EndOfInput toks, st') /\
    follows 1 1 toks /\
    Forall (placed ("a" ++ lf ++ "`x${b}`")) (emitted 0 toks).
Proof.
  eexists. eexists. split; [vm_compute; reflexivity|].
  match goal with
  | |- follows _ _ ?t /\ _ =>
      assert (E : lex htmljs ("a" ++ lf ++ "`x${b}`") (Some "js") loaded
                  = (Return EndOfInput t, mkDepths 0 0))
        by (vm_compute; reflexivity)
  end.
  destruct (lex_positions Depths htmljs _ _ _ _ _ _ E) as [F [_ P]].
  split; [exact F|].
  apply (proj2 (P (anchored_lexHtmlJs false))).
  vm_compute. reflexivity.
Defined.

(** C6, as stated, fails.  The child [x] that follows an opening text
    with a line feed is on line 2, column 1 of the input and carries line
    1, column 3.  With a regular expression that is not anchored, the
    second token starts at offset 1 of the first line and carries line
    2. *)
Lemma lex_positions_counterexample :
  (fst (lex multiline_open (open_paren_lf ++ "x") None tt) =
     Return EndOfInput
       [composite "open" "a" 1 1
          [tok open_paren_lf "open" "b" 1 1; tok "x" "x" "b" 1 3]] /\
   In (2, tok "x" "x" "b" 1 3)
      (emitted 0 [composite "open" "a" 1 1
                    [tok open_paren_lf "open" "b" 1 1; tok "x" "x" "b" 1 3]]) /\
   line_at (take 2 (open_paren_lf ++ "x")) = 2%Z /\
   col_at (take 2 (open_paren_lf ++ "x")) = 1%Z /\
   ~ placed (open_paren_lf ++ "x") (2, tok "x" "x" "b" 1 3)) /\
  (fst (lex unanchored ("a" ++ lf) None tt) =
     Return EndOfInput [tok lf "nl" "a" 1 1; tok lf "nl" "a" 2 1] /\
   In (1, tok lf "nl" "a" 2 1)
      (emitted_top 0 [tok lf "nl" "a" 1 1; tok lf "nl" "a" 2 1]) /\
   line_at (take 1 ("a" ++ lf)) = 1%Z /\
   ~ placed ("a" ++ lf) (1, tok lf "nl" "a" 2 1)).
Proof.
  split.
  - split; [vm_compute; reflexivity|].
    split; [simpl; auto|].
    split; [reflexivity|]. split; [reflexivity|].
    intros [H _]. vm_compute in H. discriminate.
  - split; [vm_compute; reflexivity|].
    split; [simpl; auto|].
    split; [reflexivity|].
    intros [H _]. vm_compute in H. discriminate.
Qed.

(** C2.  The counters of lex-htmljs.js belong to the module, not to a
    call.  Right after loading, [}x] gives two tokens.  After a call on
    an unterminated template, which leaves [templateDepth] at 1, the same
    input gives the brace alone: the rule [brace2] takes the brace for
    the end of a placeholder and the call returns without reading
    [x]. *)
Theorem lexHtmlJs_counters_shared :
  calls htmljs [("}x", Some "js")] loaded =
    [Return EndOfInput [tok "}" "brace2" "js" 1 1; tok "x" "identifier" "js" 1 2]]
  /\
  calls htmljs [("`", Some "js"); ("}x", Some "js")] loaded =
    [Return EndOfInput
       [composite "template" "js" 1 1 [tok "`" "template" "template" 1 1]];
     Return Ascended [tok "}" "brace2" "js" 1 1]].
Proof. split; vm_compute; reflexivity. Qed.

End LexScenarios.

(* ================================================================== *)
(** * Facts about the pattern engine *)
(* ================================================================== *)
Module FregexFacts.
Import Lex Fregex FregexSpec Samples.

(** [prepare] hands an array rule to [fregex], as line 23 does. *)
Lemma prepare1_array (rules : list Rule) :
  prepare1 (RArray rules) = fregex [RArray rules].
Proof. reflexivity. Qed.

Lemma unwrap_strings (strs : list string) :
  unwrap (map RString strs) = map RString strs.
Proof. destruct strs as [|a [|b strs]]; reflexivity. Qed.

(** The fuel [xOrMore] gives its loop is enough: more fuel changes
    nothing. *)
Lemma xOrMore_loop_fuel (x : nat) (f : Matcher) :
  forall fuel fuel' i total tokens,
    length tokens <= fuel -> length tokens <= fuel' ->
    xOrMore_loop fuel x f i total tokens = xOrMore_loop fuel' x f i total tokens.
Proof.
  induction fuel as [|fuel IH]; intros fuel' i total tokens H H'.
  - destruct tokens; [now destruct fuel' | simpl in H; lia].
  - destruct tokens as [|t tokens]; [now destruct fuel'|].
    destruct fuel' as [|fuel']; [simpl in H'; lia|].
    simpl. destruct (f (t :: tokens)) as [[| |n]| |]; try reflexivity.
    + apply IH; simpl in *; lia.
    + destruct n as [|k]; [reflexivity|].
      apply IH; simpl in *; rewrite length_skipn; lia.
Qed.

(** ** The combinators on their own *)

(** [not] answers 0 exactly when the wrapped sequence answers [false]. *)
Lemma not_zero_iff (rules : list Rule) (tokens : list Token) :
  not rules tokens = Ret (UNum 0) <-> fregex [RArray rules] tokens = Ret UFalse.
Proof.
  unfold not. destruct (fregex [RArray rules] tokens) as [[| |n]| |];
    split; intros H; try reflexivity; discriminate.
Qed.

(** [or] answers what its first rule answers, unless that is [false]. *)
Lemma or_first (p : Rule) (rules : list Rule) (tokens : list Token) (u : Used) :
  (forall inner, p <> RArray inner) ->
  prepare1 p tokens = Ret u -> u <> UFalse ->
  or (p :: rules) tokens = Ret u.
Proof.
  intros Hp H Hu. unfold or, prepare.
  assert (E : unwrap (p :: rules) = p :: rules).
  { destruct p; try reflexivity. destruct rules; [|reflexivity].
    exfalso. eapply Hp. reflexivity. }
  rewrite E. simpl. rewrite H. destruct u; [contradiction | reflexivity..].
Qed.

Lemma xOrMore_loop_not_false (f : Matcher) :
  forall fuel i total tokens, xOrMore_loop fuel 0 f i total tokens <> Ret UFalse.
Proof.
  induction fuel as [|fuel IH]; intros i total [|t tokens]; simpl; try discriminate;
    destruct (f (t :: tokens)) as [[| |n]| |]; try discriminate;
    try apply IH; destruct n; try discriminate; apply IH.
Qed.

(** [zeroOrMore] never answers [false]. *)
Lemma zeroOrMore_not_false (rules : list Rule) (tokens : list Token) :
  zeroOrMore rules tokens <> Ret UFalse.
Proof. apply xOrMore_loop_not_false. Qed.

(** A repetition that uses no token of a non-empty slice never ends. *)
Example zeroOrMore_of_not_diverges :
  zeroOrMore [RFunction (not [RString "b"])] [a1] = Diverges.
Proof. reflexivity. Qed.

(** Scenario 3 of the specification, with the pattern of [rewriteImports]:
    it uses the three tokens of [import "x"], and fails on [importx "x"],
    which the tokenizer splits into the keyword [import] and [x]. *)
Example scenario_import :
  let ws0 := zeroOrMore [RFunction (or [RObject [AType "whitespace"];
                                        RObject [AType "ln"];
                                        RObject [AType "comment"]])] in
  let pattern := fregex [RString "import"; RFunction ws0; RObject [AType "string"]] in
  let dq := String LexHtmlJs.DQUOTE "" in
  (exists toks, fst (lex htmljs ("import " ++ dq ++ "x" ++ dq) (Some "js")
                       LexHtmlJs.loaded) = Return EndOfInput toks
                /\ length toks = 3 /\ pattern toks = Ret (UNum 3)) /\
  (exists toks, fst (lex htmljs ("importx " ++ dq ++ "x" ++ dq) (Some "js")
                       LexHtmlJs.loaded) = Return EndOfInput toks
                /\ pattern toks = Ret UFalse).
Proof.
  split; eexists; repeat split; vm_compute; reflexivity.
Qed.

(** ** C3: [xOrMore] *)

(** C3.  [xOrMore] does not require [x] repetitions once the slice is
    used up.  On the one token [a], the rule [a] succeeds once (uses one
    token) and fails on what remains, so there is one repetition; yet
    [xOrMore(2, 'a')] returns 1 instead of [false], as it does for every
    [x].  On the empty slice it returns 0 for every [x] and every rule:
    the loop of line 114 is not entered and line 121 returns the total
    without the test of line 117. *)
Theorem xOrMore_exhausted_slice :
  fregex [RArray [RString "a"]] [a1] = Ret (UNum 1) /\
  fregex [RArray [RString "a"]] [] = Ret UFalse /\
  xOrMore 2 [RString "a"] [a1] = Ret (UNum 1) /\
  (forall x, xOrMore x [RString "a"] [a1] = Ret (UNum 1)) /\
  (forall x rules, xOrMore x rules [] = Ret (UNum 0)).
Proof.
  split; [reflexivity|]. split; [reflexivity|]. split; [reflexivity|].
  split; [intros x; reflexivity | intros x rules; reflexivity].
Qed.

(** ** C4: exceptions *)

(** C4.  An attribute-predicate rule reads a property of [tokens[0]]
    (line 29), which throws a [TypeError] on the empty slice, whereas a
    string rule returns [false] there.  So the sequence
    [fregex('import', {type: 'string'})] throws on the single token
    [import]: its first rule uses the token and the second is applied to
    the empty rest. *)
Theorem fregex_object_rule_throws :
  fregex [RString "import"; RObject [AType "string"]] [import1] = TypeError /\
  (forall a props, prepare1 (RObject (a :: props)) [] = TypeError) /\
  (forall s, prepare1 (RString s) [] = Ret UFalse).
Proof.
  split; [reflexivity|]. split; [intros a props; reflexivity | intros s; reflexivity].
Qed.

(** ** C10: [nor] on the empty slice *)

Lemma none_positive_strings (strs : list string) :
  none_positive (map prepare1 (map RString strs)) [] = Ret (UNum 1).
Proof. induction strs as [|s strs IH]; simpl; [reflexivity | exact IH]. Qed.

(** C10.  A [nor] of literal strings applied to the empty slice returns
    1: no string rule matches there, and line 93 answers 1 without looking
    for a token.  A sequence that ends with such a [nor] then reports one
    token more than the haystack holds: [fregex('x', nor('a'))] returns 2
    on the single token [x]. *)
Theorem nor_on_empty_slice :
  (forall strs, nor (map RString strs) [] = Ret (UNum 1)) /\
  (forall s, prepare1 (RString s) [] = Ret UFalse) /\
  (let x1 := tok "x" "identifier" "js" 1 1 in
   fregex [RString "x"; RFunction (nor [RString "a"])] [x1] = Ret (UNum 2) /\
   length [x1] < 2).
Proof.
  split; [|split].
  - intros strs. unfold nor, prepare. rewrite unwrap_strings.
    apply none_positive_strings.
  - intros s. reflexivity.
  - split; [reflexivity | simpl; lia].
Qed.

(** ** C7: [matchAll] *)

Lemma firstn_app_exact {A} (l1 l2 : list A) : firstn (length l1) (l1 ++ l2) = l1.
Proof.
  rewrite firstn_app, Nat.sub_diag, firstn_all. simpl. apply app_nil_r.
Qed.

(** The loop from offset [i] on, with [result] collected so far. *)
Lemma matchAll_from_hits pattern haystack limit :
  forall remaining i result,
    (forall j, i <= j < i + remaining -> exists u, pattern (skipn j haystack) = Ret u) ->
    (forall n, limit = Some n -> length result <= n) ->
    matchAll_from pattern haystack limit remaining i result =
    Found (upto limit (result ++ flat_map (hit pattern haystack) (seq i remaining))).
Proof.
  induction remaining as [|remaining IH]; intros i result Hret Hlen.
  - simpl. rewrite app_nil_r. destruct limit as [n|]; simpl; [|reflexivity].
    rewrite firstn_all2; [reflexivity | now apply Hlen].
  - simpl. destruct (below (length result) limit) eqn:Hb.
    + destruct (Hret i ltac:(lia)) as [u Hu]. unfold hit at 1. rewrite Hu.
      destruct u as [| |n].
      * simpl. apply IH; [intros j Hj; apply Hret; lia | exact Hlen].
      * rewrite IH; [now rewrite <- app_assoc | intros j Hj; apply Hret; lia |].
        intros n ->. rewrite length_app. simpl in *.
        apply Nat.ltb_lt in Hb. lia.
      * rewrite IH; [now rewrite <- app_assoc | intros j Hj; apply Hret; lia |].
        intros k ->. rewrite length_app. simpl in *.
        apply Nat.ltb_lt in Hb. lia.
    + destruct limit as [n|]; [|discriminate]. simpl in *.
      apply Nat.ltb_ge in Hb. specialize (Hlen n eq_refl).
      replace n with (length result) by lia.
      now rewrite firstn_app_exact.
Qed.

Lemma skipn_nth {A} (l : list A) (i : nat) :
  i < length l -> exists t rest, skipn i l = t :: rest /\ nth_error l i = Some t.
Proof.
  revert i; induction l as [|a l IH]; intros i H; simpl in H; [lia|].
  destruct i as [|i]; simpl; [eauto|]. apply IH. lia.
Qed.

(** What [fregex(['x'])] answers at an offset of the haystack. *)
Lemma literal_at (x : string) (haystack : list Token) (i : nat) :
  i < length haystack ->
  exists t rest, nth_error haystack i = Some t /\
    skipn i haystack = t :: rest /\
    fregex [RArray [RString x]] (t :: rest) =
      (if String.eqb (text t) x then Ret (UNum 1) else Ret UFalse).
Proof.
  intros H. destruct (skipn_nth haystack i H) as (t & rest & Hs & Hn).
  exists t, rest. split; [exact Hn|]. split; [exact Hs|].
  unfold fregex, sequence, prepare. simpl.
  destruct (String.eqb (text t) x); reflexivity.
Qed.

Lemma literal_hits (x : string) (haystack : list Token) :
  forall offsets, Forall (fun i => i < length haystack) offsets ->
    let found := flat_map (hit (fregex [RArray [RString x]]) haystack) offsets in
    map index found =
      filter (fun i => match nth_error haystack i with
                       | Some t => String.eqb (text t) x
                       | None => false
                       end) offsets
    /\ Forall (fun mt => exists t, nth_error haystack (index mt) = Some t
                                   /\ slice mt = [t] /\ text t = x) found.
Proof.
  induction 1 as [|i offsets Hi _ IH]; [split; [reflexivity | constructor]|].
  destruct IH as [IH1 IH2].
  destruct (literal_at x haystack i Hi) as (t & rest & Hn & Hs & Hf).
  cbn [flat_map filter]. unfold hit at 1 3. rewrite Hs, Hf, Hn.
  destruct (String.eqb (text t) x) eqn:E; simpl.
  - split; [now rewrite IH1|].
    constructor; [|exact IH2]. exists t. simpl.
    apply String.eqb_eq in E. auto.
  - split; [exact IH1 | exact IH2].
Qed.

(** C7.  [matchAll] applies the pattern at the offsets 0, 1, ... of the
    haystack in this order and returns the matches found, each with its
    offset, cut at [limit].  For the pattern of one literal [x] it
    returns, with the default limit, exactly the offsets at which the
    token is [x], ascending, each with that one token.  Matches that
    overlap are all returned: [a a] is found at offsets 0 and 1 of
    [a a a]. *)
Theorem matchAll_complete :
  (forall pattern haystack limit,
     returns_on pattern haystack ->
     matchAll (RFunction pattern) haystack limit =
       Found (upto limit (hits pattern haystack))) /\
  (forall rules haystack limit,
     matchAll (RArray rules) haystack limit =
     matchAll (RFunction (fregex [RArray rules])) haystack limit) /\
  (forall x haystack, exists result,
     matchAll (RArray [RString x]) haystack None = Found result /\
     map index result = occurrences x haystack /\
     Forall (fun mt => exists t, nth_error haystack (index mt) = Some t
                                 /\ slice mt = [t] /\ text t = x) result) /\
  matchAll (RArray [RString "a"; RString "a"]) [a1; a2; a3] None =
    Found [mkMatch [a1; a2] 0; mkMatch [a2; a3] 1].
Proof.
  assert (General : forall pattern haystack limit,
     returns_on pattern haystack ->
     matchAll (RFunction pattern) haystack limit =
       Found (upto limit (hits pattern haystack))).
  { intros pattern haystack limit Hret. unfold matchAll.
    rewrite matchAll_from_hits; [reflexivity | |].
    - intros j Hj. apply Hret. lia.
    - intros n _. simpl. lia. }
  split; [exact General|]. split; [reflexivity|]. split; [|reflexivity].
  intros x haystack.
  exists (hits (fregex [RArray [RString x]]) haystack).
  assert (Hall : Forall (fun i => i < length haystack) (seq 0 (length haystack))).
  { apply Forall_forall. intros i Hi. apply in_seq in Hi. lia. }
  destruct (literal_hits x haystack _ Hall) as [Hidx Hsl].
  split; [|split; [exact Hidx | exact Hsl]].
  change (matchAll (RArray [RString x]) haystack None)
    with (matchAll (RFunction (fregex [RArray [RString x]])) haystack None).
  rewrite General; [reflexivity|].
  intros i Hi. destruct (literal_at x haystack i Hi) as (t & rest & _ & Hs & Hf).
  rewrite Hs, Hf. destruct (String.eqb (text t) x); eauto.
Qed.

(** The pattern [a a] on [a a a], cut at one match. *)
Lemma matchAll_complete_witness :
  matchAll (RFunction (fregex [RString "a"; RString "a"])) [a1; a2; a3] (Some 1) =
    Found [mkMatch [a1; a2] 0].
Proof.
  refine (proj1 matchAll_complete (fregex [RString "a"; RString "a"])
            [a1; a2; a3] (Some 1) _).
  intros i Hi.
  destruct i as [|[|[|i]]]; [eexists; reflexivity .. | simpl in Hi; lia].
Defined.

End FregexFacts.

(* ================================================================== *)
(** * Further facts about the pattern engine *)
(* ================================================================== *)
Module FregexMore.
Import Lex Fregex FregexSpec FregexFirst FregexMoreSpec Samples.

(** ** Sequences *)

(** A sequence answers [false] or the number of tokens it used, which is at
    least the number it started from. *)
Lemma sequence_from_result (rules : list Matcher) :
  forall i tokens u,
    sequence_from rules i tokens = Ret u ->
    u = UFalse \/ exists n, u = UNum n /\ i <= n.
Proof.
  induction rules as [|rule rules IH]; intros i tokens u H; simpl in H.
  - injection H as <-. right. eauto.
  - destruct (rule (skipn i tokens)) as [[| |n]| |]; try discriminate.
    + injection H as <-. now left.
    + destruct (IH _ _ _ H) as [->|(k & -> & Hk)]; [now left|].
      right. exists k. split; [reflexivity | lia].
    + destruct (IH _ _ _ H) as [->|(k & -> & Hk)]; [now left|].
      right. exists k. split; [reflexivity | simpl in Hk; lia].
Qed.

Lemma sequence_of_sequence (rules : list Matcher) (tokens : list Token) :
  sequence [sequence rules] tokens = sequence rules tokens.
Proof.
  unfold sequence at 1. simpl.
  destruct (sequence rules tokens) as [u| |] eqn:E; try reflexivity.
  destruct (sequence_from_result _ _ _ _ E) as [->|(n & -> & _)]; reflexivity.
Qed.

Lemma unwrap_not_single (rules : list Rule) :
  (forall inner, rules <> [RArray inner]) -> unwrap rules = rules.
Proof.
  intros H. destruct rules as [|r [|r' rules]];
    [reflexivity | | destruct r; reflexivity].
  destruct r; try reflexivity. exfalso. eapply H. reflexivity.
Qed.

Lemma fregex_single_array (rules : list Rule) (tokens : list Token) :
  fregex [RArray rules] tokens = fregex rules tokens.
Proof.
  unfold fregex, prepare. cbn [unwrap].
  destruct rules as [|r [|r' rules]];
    [reflexivity | | destruct r; reflexivity].
  destruct r; try reflexivity.
  cbn [unwrap map prepare1]. apply sequence_of_sequence.
Qed.

(** X1.  An array given to [fregex] is the sequence of its elements,
    whether it is the only argument or not: [fregex([a, b])] answers as
    [fregex(a, b)] does, and so does an array nested in a sequence. *)
Theorem fregex_array_is_sequence (rules : list Rule) (tokens : list Token) :
  fregex [RArray rules] tokens = fregex rules tokens /\
  prepare1 (RArray rules) tokens = fregex rules tokens.
Proof.
  split; apply fregex_single_array.
Qed.

Lemma unwrap_strings_more (strs : list string) (rest : list Rule) :
  (forall inner, rest <> [RArray inner]) ->
  unwrap (map RString strs ++ rest) = (map RString strs ++ rest)%list.
Proof.
  intros H. destruct strs as [|a [|b strs]]; simpl;
    [now apply unwrap_not_single | now destruct rest | reflexivity].
Qed.

Lemma skipn_S_tail {A} (i : nat) (l : list A) (t : A) (l' : list A) :
  skipn i l = t :: l' -> skipn (S i) l = l'.
Proof.
  revert l; induction i as [|i IH]; intros l H; simpl in *.
  - now subst l.
  - destruct l as [|a l]; [discriminate|]. now apply IH.
Qed.

Lemma skipn_nil_S {A} (i : nat) (l : list A) : skipn i l = [] -> skipn (S i) l = [].
Proof.
  revert l; induction i as [|i IH]; intros l H; simpl in *.
  - now subst l.
  - destruct l as [|a l]; [reflexivity|]. now apply IH.
Qed.

(** String rules followed by other prepared rules. *)
Lemma sequence_from_literals (strs : list string) (rest : list Matcher) :
  forall i tokens,
    sequence_from (map prepare1 (map RString strs) ++ rest) i tokens =
    if starts_with_texts strs (skipn i tokens)
    then sequence_from rest (i + length strs) tokens
    else Ret UFalse.
Proof.
  induction strs as [|s strs IH]; intros i tokens; simpl.
  - now rewrite Nat.add_0_r.
  - destruct (skipn i tokens) as [|t l] eqn:E; [reflexivity|].
    destruct (String.eqb (text t) s); simpl; [|reflexivity].
    rewrite IH. replace (i + 1) with (S i) by lia.
    rewrite (skipn_S_tail _ _ _ _ E).
    now replace (S i + length strs) with (i + S (length strs)) by lia.
Qed.

(** X2.  A sequence of literal strings matches exactly when the texts of
    the first tokens are these strings in order, and then it uses as many
    tokens as there are strings; otherwise it answers [false].  It never
    throws. *)
Theorem fregex_literals (strs : list string) (tokens : list Token) :
  fregex (map RString strs) tokens =
  if starts_with_texts strs tokens then Ret (UNum (length strs)) else Ret UFalse.
Proof.
  unfold fregex, prepare, sequence. rewrite FregexFacts.unwrap_strings.
  pose proof (sequence_from_literals strs [] 0 tokens) as H.
  rewrite app_nil_r in H. exact H.
Qed.


Lemma texts_exact (strs : list string) (tokens : list Token) :
  starts_with_texts strs tokens = true /\ skipn (length strs) tokens = [] <->
  map text tokens = strs.
Proof.
  revert tokens; induction strs as [|s strs IH]; intros tokens; simpl.
  - split; [intros [_ ->]; reflexivity | intros H].
    destruct tokens; [auto | discriminate].
  - destruct tokens as [|t tokens]; simpl.
    + split; [intros [H _]; discriminate | discriminate].
    + split.
      * intros [H1 H2]. apply andb_prop in H1. destruct H1 as [E H1].
        apply String.eqb_eq in E. f_equal; [exact E|]. apply IH. auto.
      * intros H. injection H as E H. apply IH in H. destruct H as [H1 H2].
        split; [|exact H2]. rewrite H1, andb_true_r. now apply String.eqb_eq.
Qed.

(** X3.  A sequence of literal strings closed by [fregex.end] matches
    exactly the slices whose texts are these strings and nothing more. *)
Theorem fregex_literals_then_end (strs : list string) (tokens : list Token) :
  fregex (map RString strs ++ [RFunction end_]) tokens =
  if list_eq_dec string_dec (map text tokens) strs
  then Ret (UNum (length strs)) else Ret UFalse.
Proof.
  unfold fregex, prepare, sequence.
  rewrite unwrap_strings_more by (intros inner; discriminate).
  rewrite map_app, sequence_from_literals. simpl.
  destruct (list_eq_dec string_dec (map text tokens) strs) as [E|NE].
  - apply texts_exact in E. destruct E as [-> ->]. simpl.
    now rewrite Nat.add_0_r.
  - destruct (starts_with_texts strs tokens) eqn:E1; [|reflexivity].
    destruct (skipn (length strs) tokens) eqn:E2; [|reflexivity].
    exfalso. apply NE. apply texts_exact. auto.
Qed.

(** ** [or], [nor], [not], [lookAhead] *)

Lemma first_match_false (rules : list Matcher) (tokens : list Token) :
  first_match rules tokens = Ret UFalse <->
  Forall (fun rule => rule tokens = Ret UFalse) rules.
Proof.
  induction rules as [|rule rules IH]; simpl.
  - split; [constructor | reflexivity].
  - destruct (rule tokens) as [[| |n]| |] eqn:E; split; intros H;
      try discriminate; try (inversion H; subst; congruence).
    + constructor; [exact E | now apply IH].
    + inversion H; subst. now apply IH.
Qed.

Lemma first_match_first (before after : list Matcher) (rule : Matcher)
    (tokens : list Token) (u : Used) :
  Forall (fun r => r tokens = Ret UFalse) before ->
  rule tokens = Ret u -> u <> UFalse ->
  first_match (before ++ rule :: after) tokens = Ret u.
Proof.
  induction 1 as [|r before Hr _ IH]; intros Hu Hne; simpl.
  - rewrite Hu. destruct u; [contradiction | reflexivity..].
  - rewrite Hr. now apply IH.
Qed.

(** X4.  [fregex.or] answers [false] exactly when every alternative
    answers [false]; otherwise it answers what the first alternative that
    does not answer [false] answers, a zero count included, without
    calling the alternatives after it. *)
Theorem or_first_success (rules : list Rule) (tokens : list Token) :
  (or rules tokens = Ret UFalse <->
   Forall (fun rule => rule tokens = Ret UFalse) (prepare rules)) /\
  (forall before rule after u,
     prepare rules = (before ++ rule :: after)%list ->
     Forall (fun r => r tokens = Ret UFalse) before ->
     rule tokens = Ret u -> u <> UFalse ->
     or rules tokens = Ret u).
Proof.
  split; [apply first_match_false|].
  intros before rule after u E Hb Hu Hne. unfold or. rewrite E.
  now apply first_match_first.
Qed.

Lemma none_positive_one (rules : list Matcher) (tokens : list Token) :
  none_positive rules tokens = Ret (UNum 1) <->
  Forall (fun rule => exists v, rule tokens = Ret v /\ count v = 0) rules.
Proof.
  induction rules as [|rule rules IH]; simpl.
  - split; [constructor | reflexivity].
  - destruct (rule tokens) as [v| |] eqn:E.
    + destruct (Nat.ltb 0 (count v)) eqn:L.
      * apply Nat.ltb_lt in L. split; [discriminate|].
        intros H. inversion H as [|? ? (w & Hw & Hc) _]; subst.
        rewrite E in Hw. injection Hw as <-. lia.
      * apply Nat.ltb_ge in L. split; intros H.
        -- constructor; [exists v; split; [exact E | lia] | now apply IH].
        -- inversion H; subst. now apply IH.
    + split; [discriminate|]. intros H.
      inversion H as [|? ? (w & Hw & _) _]; congruence.
    + split; [discriminate|]. intros H.
      inversion H as [|? ? (w & Hw & _) _]; congruence.
Qed.

Lemma none_positive_result (rules : list Matcher) (tokens : list Token) (u : Used) :
  none_positive rules tokens = Ret u -> u = UFalse \/ u = UNum 1.
Proof.
  induction rules as [|rule rules IH]; simpl; intros H.
  - injection H as <-. now right.
  - destruct (rule tokens) as [v| |]; try discriminate.
    destruct (Nat.ltb 0 (count v)); [injection H as <-; now left | now apply IH].
Qed.

(** X5.  [fregex.nor] answers 1 exactly when every rule answers [false] or
    a zero count on the slice, whether or not the slice has a token; it
    never answers another count, so it never reports more or fewer than
    one token used. *)
Theorem nor_one_or_false (rules : list Rule) (tokens : list Token) :
  (nor rules tokens = Ret (UNum 1) <->
   Forall (fun rule => exists v, rule tokens = Ret v /\ count v = 0) (prepare rules)) /\
  (forall u, nor rules tokens = Ret u -> u = UFalse \/ u = UNum 1).
Proof.
  split; [apply none_positive_one | intros u; apply none_positive_result].
Qed.

Lemma not_function (g : Matcher) (tokens : list Token) :
  not [RFunction g] tokens =
  match g tokens with
  | Ret UFalse => Ret (UNum 0)
  | Ret _ => Ret UFalse
  | TypeError => TypeError
  | Diverges => Diverges
  end.
Proof.
  unfold not, fregex, prepare, sequence. simpl.
  destruct (g tokens) as [[| |n]| |]; reflexivity.
Qed.

(** X6.  [fregex.not] uses no token: it answers 0 or [false].  Applied
    twice it is a look-ahead for the whole sequence: [not(not(...rules))]
    answers 0 exactly when the sequence of the rules matches. *)
Theorem not_is_zero_width (rules : list Rule) (tokens : list Token) :
  (forall u, not rules tokens = Ret u -> u = UFalse \/ u = UNum 0) /\
  (not rules tokens = Ret (UNum 0) <-> fregex rules tokens = Ret UFalse) /\
  (not [RFunction (not rules)] tokens = Ret (UNum 0) <->
   exists u, fregex rules tokens = Ret u /\ u <> UFalse).
Proof.
  pose proof (fregex_single_array rules tokens) as E.
  assert (N : not rules tokens =
              match fregex rules tokens with
              | Ret UFalse => Ret (UNum 0)
              | Ret _ => Ret UFalse
              | TypeError => TypeError
              | Diverges => Diverges
              end) by (unfold not; now rewrite E).
  split; [|split].
  - intros u. rewrite N. destruct (fregex rules tokens) as [[| |n]| |];
      intros H; try discriminate; injection H as <-; auto.
  - rewrite N. destruct (fregex rules tokens) as [[| |n]| |];
      split; intros H; try reflexivity; discriminate.
  - rewrite not_function, N.
    destruct (fregex rules tokens) as [[| |n]| |]; simpl; split; intros H;
      first [ discriminate
            | reflexivity
            | eexists; split; [reflexivity | discriminate]
            | destruct H as (u & Hu & Hne); first [discriminate | congruence] ].
Qed.

Lemma all_match_zero (rules : list Matcher) (tokens : list Token) :
  all_match rules tokens = Ret (UNum 0) <->
  Forall (fun rule => exists u, rule tokens = Ret u /\ u <> UFalse) rules.
Proof.
  induction rules as [|rule rules IH]; simpl.
  - split; [constructor | reflexivity].
  - destruct (rule tokens) as [[| |n]| |] eqn:E; split; intros H;
      try discriminate;
      try (inversion H as [|? ? (w & Hw & Hne) Hrest]; subst;
           first [congruence | now apply IH]);
      (constructor; [eexists; split; [exact E | discriminate] | now apply IH]).
Qed.

Lemma all_match_strings (strs : list string) (tokens : list Token) :
  all_match (map prepare1 (map RString strs)) tokens =
  if forallb (head_is tokens) strs then Ret (UNum 0) else Ret UFalse.
Proof.
  induction strs as [|s strs IH]; simpl; [reflexivity|].
  destruct tokens as [|t tokens]; simpl; [reflexivity|].
  destruct (String.eqb (text t) s); simpl; [exact IH | reflexivity].
Qed.

(** X7.  [fregex.lookAhead] applies each of its rules to the same slice:
    it answers 0 exactly when every rule, on its own, matches at the
    cursor.  Its rules are not a sequence: with literal strings it matches
    only when all of them are the text of the first token. *)
Theorem lookAhead_same_slice (rules : list Rule) (tokens : list Token) :
  (lookAhead rules tokens = Ret (UNum 0) <->
   Forall (fun rule => exists u, rule tokens = Ret u /\ u <> UFalse) (prepare rules)) /\
  (forall strs,
     lookAhead (map RString strs) tokens =
     if forallb (head_is tokens) strs then Ret (UNum 0) else Ret UFalse).
Proof.
  split; [apply all_match_zero|].
  intros strs. unfold lookAhead, prepare. rewrite FregexFacts.unwrap_strings.
  apply all_match_strings.
Qed.

(** ** Repetition *)

Lemma xOrMore_loop_result (x : nat) (f : Matcher) :
  forall fuel i total tokens u,
    xOrMore_loop fuel x f i total tokens = Ret u ->
    (u = UFalse /\ i < x) \/ exists n, u = UNum n /\ total <= n.
Proof.
  induction fuel as [|fuel IH]; intros i total [|t tokens] u H; simpl in H.
  - injection H as <-. right. eauto.
  - destruct (f (t :: tokens)) as [[| |n]| |]; try discriminate.
    + destruct (Nat.leb x i) eqn:L; injection H as <-.
      * right. eauto.
      * left. apply Nat.leb_gt in L. auto.
    + destruct n; discriminate.
  - injection H as <-. right. eauto.
  - destruct (f (t :: tokens)) as [[| |n]| |]; try discriminate.
    + destruct (Nat.leb x i) eqn:L; injection H as <-.
      * right. eauto.
      * left. apply Nat.leb_gt in L. auto.
    + simpl in H. apply IH in H. destruct H as [[-> Hx]|(k & -> & Hk)].
      * left. split; [reflexivity | lia].
      * right. exists k. split; [reflexivity | lia].
    + destruct n as [|n]; [discriminate|]. simpl in H.
      apply IH in H. destruct H as [[-> Hx]|(k & -> & Hk)].
      * left. split; [reflexivity | lia].
      * right. exists k. split; [reflexivity | lia].
Qed.

(** X8.  [fregex.xOrMore] answers a count or [false], never [true], and
    [false] only when [x] is positive; so [fregex.zeroOrMore] never fails: it
    answers a count, unless a rule throws or the loop does not end. *)
Theorem xOrMore_answers_count (x : nat) (rules : list Rule) (tokens : list Token) :
  (forall u, xOrMore x rules tokens = Ret u ->
     (u = UFalse /\ 0 < x) \/ exists n, u = UNum n) /\
  zeroOrMore rules tokens <> Ret UFalse /\
  zeroOrMore rules tokens <> Ret UTrue.
Proof.
  split; [|split].
  - intros u H. unfold xOrMore in H. apply xOrMore_loop_result in H.
    destruct H as [[-> Hx]|(n & -> & _)]; [left; split; [reflexivity | lia] | eauto].
  - intros H. unfold zeroOrMore, xOrMore in H. apply xOrMore_loop_result in H.
    destruct H as [[_ Hx]|(n & Hn & _)]; [lia | discriminate].
  - intros H. unfold zeroOrMore, xOrMore in H. apply xOrMore_loop_result in H.
    destruct H as [[Hn _]|(n & Hn & _)]; discriminate.
Qed.

Lemma literal_step (s : string) (t : Token) (tokens : list Token) :
  fregex [RArray [RString s]] (t :: tokens) =
  if String.eqb (text t) s then Ret (UNum 1) else Ret UFalse.
Proof.
  unfold fregex, prepare, sequence. simpl.
  destruct (String.eqb (text t) s); reflexivity.
Qed.

Lemma xOrMore_loop_literal (x : nat) (s : string) :
  forall fuel tokens i total,
    length tokens <= fuel ->
    xOrMore_loop fuel x (fregex [RArray [RString s]]) i total tokens =
    if Nat.eqb (run s tokens) (length tokens) || Nat.leb x (i + run s tokens)
    then Ret (UNum (total + run s tokens)) else Ret UFalse.
Proof.
  induction fuel as [|fuel IH]; intros [|t tokens] i total Hf;
    try (simpl in Hf; lia).
  - simpl. now rewrite Nat.add_0_r.
  - simpl. now rewrite Nat.add_0_r.
  - cbn [xOrMore_loop]. rewrite literal_step. cbn [run length].
    destruct (String.eqb (text t) s).
    + cbn [count skipn]. rewrite IH by (simpl in Hf; lia).
      cbn [Nat.eqb].
      replace (S i + run s tokens) with (i + S (run s tokens)) by lia.
      replace (total + 1 + run s tokens) with (total + S (run s tokens)) by lia.
      reflexivity.
    + cbn [Nat.eqb orb]. now rewrite !Nat.add_0_r.
Qed.

(** X9.  On a literal string [s], [fregex.xOrMore(x, s)] uses the whole run
    of tokens [s] at the front of the slice.  It answers the length of that
    run when the run has at least [x] tokens, and also when the run is the
    whole slice, however short; it answers [false] only when fewer than [x]
    tokens [s] are followed by another token. *)
Theorem xOrMore_literal_run (x : nat) (s : string) (tokens : list Token) :
  xOrMore x [RString s] tokens =
  if Nat.eqb (run s tokens) (length tokens) || Nat.leb x (run s tokens)
  then Ret (UNum (run s tokens)) else Ret UFalse.
Proof.
  unfold xOrMore. rewrite xOrMore_loop_literal by lia. reflexivity.
Qed.

(** ** Searching *)

Lemma matchAll_from_bounds (pattern : Matcher) (haystack : list Token)
    (limit : option nat) :
  forall remaining i result0 result,
    matchAll_from pattern haystack limit remaining i result0 = Found result ->
    exists new,
      result = (result0 ++ new)%list /\
      Forall (fun found => i <= index found < i + remaining /\
                exists k, slice found = firstn k (skipn (index found) haystack)) new /\
      StronglySorted lt (map index new) /\
      (forall n, limit = Some n -> length result0 <= n -> length result <= n).
Proof.
  induction remaining as [|remaining IH]; intros i result0 result H; simpl in H.
  - injection H as <-. exists []. rewrite app_nil_r.
    repeat split; [constructor | constructor | auto].
  - destruct (below (length result0) limit) eqn:B.
    2:{ injection H as <-. exists []. rewrite app_nil_r.
        repeat split; [constructor | constructor | auto]. }
    assert (Step : forall cnt,
      matchAll_from pattern haystack limit remaining (S i)
        (result0 ++ [mkMatch (firstn (count cnt) (skipn i haystack)) i]) = Found result ->
      exists new,
        result = (result0 ++ new)%list /\
        Forall (fun found => i <= index found < i + S remaining /\
                  exists k, slice found = firstn k (skipn (index found) haystack)) new /\
        StronglySorted lt (map index new) /\
        (forall n, limit = Some n -> length result0 <= n -> length result <= n)).
    { intros cnt H'. apply IH in H'.
      destruct H' as (new & -> & Hall & Hs & Hl).
      exists (mkMatch (firstn (count cnt) (skipn i haystack)) i :: new).
      rewrite <- app_assoc. split; [reflexivity|]. split; [|split].
      - constructor.
        + simpl. split; [lia | eauto].
        + eapply Forall_impl; [|exact Hall]. intros a [Ha Hk]. split; [lia | exact Hk].
      - simpl. constructor; [exact Hs|].
        apply Forall_forall. intros j Hj. apply in_map_iff in Hj.
        destruct Hj as (a & <- & Ha).
        rewrite Forall_forall in Hall. destruct (Hall a Ha) as [Hb _]. lia.
      - intros n E Hn. rewrite app_assoc. apply (Hl n E).
        rewrite length_app. rewrite E in B. simpl in *. apply Nat.ltb_lt in B. lia. }
    destruct (pattern (skipn i haystack)) as [[| |n]| |]; try discriminate.
    + apply IH in H. destruct H as (new & -> & Hall & Hs & Hl).
      exists new. split; [reflexivity|]. split; [|split; [exact Hs | exact Hl]].
      eapply Forall_impl; [|exact Hall]. intros a [Ha Hk]. split; [lia | exact Hk].
    + exact (Step UTrue H).
    + exact (Step (UNum n) H).
Qed.

(** X10.  Whatever the pattern, an array returned by [fregex.matchAll] has
    at most [limit] matches; their offsets are strictly increasing and lie
    inside the haystack; each match is a run of the haystack that starts at
    its offset. *)
Theorem matchAll_result_shape (pattern : Rule) (haystack : list Token)
    (limit : option nat) (result : list Match) :
  matchAll pattern haystack limit = Found result ->
  (forall n, limit = Some n -> length result <= n) /\
  StronglySorted lt (map index result) /\
  Forall (fun found => index found < length haystack /\
            exists k, slice found = firstn k (skipn (index found) haystack)) result.
Proof.
  assert (Shape : forall f, matchAll_from f haystack limit (length haystack) 0 [] = Found result ->
    (forall n, limit = Some n -> length result <= n) /\
    StronglySorted lt (map index result) /\
    Forall (fun found => index found < length haystack /\
              exists k, slice found = firstn k (skipn (index found) haystack)) result).
  { intros f H. apply matchAll_from_bounds in H.
    destruct H as (new & -> & Hall & Hs & Hl). simpl in *.
    split; [intros n Hn; apply (Hl n Hn); lia|]. split; [exact Hs|].
    eapply Forall_impl; [|exact Hall]. intros a [Ha Hk]. split; [lia | exact Hk]. }
  assert (Empty : Found [] = Found result ->
    (forall n, limit = Some n -> length result <= n) /\
    StronglySorted lt (map index result) /\
    Forall (fun found => index found < length haystack /\
              exists k, slice found = firstn k (skipn (index found) haystack)) result).
  { intros H. injection H as <-. simpl.
    split; [intros; lia | split; constructor]. }
  intros H. destruct pattern as [s|rules|props|f]; simpl in H.
  - destruct haystack; [now apply Empty|].
    destruct (below 0 limit); [discriminate | now apply Empty].
  - now apply (Shape (fregex [RArray rules])).
  - destruct haystack; [now apply Empty|].
    destruct (below 0 limit); [discriminate | now apply Empty].
  - now apply (Shape f).
Qed.

Lemma matchAll_from_full (pattern : Matcher) (haystack : list Token)
    (found : Match) (remaining i : nat) :
  matchAll_from pattern haystack (Some 1) remaining i [found] = Found [found].
Proof. destruct remaining; reflexivity. Qed.

Lemma matchAll_from_first (pattern : Matcher) (haystack : list Token) :
  forall gap start remaining,
    (forall j, start <= j < start + gap -> pattern (skipn j haystack) = Ret UFalse) ->
    matchAll_from pattern haystack (Some 1) (gap + remaining) start [] =
    matchAll_from pattern haystack (Some 1) remaining (start + gap) [].
Proof.
  induction gap as [|gap IH]; intros start remaining H.
  - simpl. now rewrite Nat.add_0_r.
  - cbn [Nat.add matchAll_from length below Nat.ltb Nat.leb].
    rewrite (H start) by lia. rewrite IH by (intros j Hj; apply H; lia).
    f_equal. lia.
Qed.

(** X11.  [fregex.matchFirst] returns the match at the least offset at
    which the pattern does not answer [false], without applying the pattern
    at any later offset; it returns [null] when the pattern answers [false]
    at every offset of the haystack. *)
Theorem matchFirst_least (f : Matcher) (haystack : list Token) :
  (forall i u,
     i < length haystack ->
     (forall j, j < i -> f (skipn j haystack) = Ret UFalse) ->
     f (skipn i haystack) = Ret u -> u <> UFalse ->
     matchFirst (RFunction f) haystack =
       FirstMatch (mkMatch (firstn (count u) (skipn i haystack)) i)) /\
  ((forall j, j < length haystack -> f (skipn j haystack) = Ret UFalse) ->
   matchFirst (RFunction f) haystack = Null).
Proof.
  split.
  - intros i u Hi Hbefore Hu Hne. unfold matchFirst, matchAll.
    replace (length haystack) with (i + S (length haystack - S i)) by lia.
    rewrite matchAll_from_first by (intros j Hj; apply Hbefore; lia).
    cbn [Nat.add matchAll_from length below Nat.ltb Nat.leb]. rewrite Hu.
    destruct u as [| |n]; [contradiction | |];
      cbn [app]; rewrite matchAll_from_full; reflexivity.
  - intros Hall. unfold matchFirst, matchAll.
    replace (length haystack) with (length haystack + 0) at 1 by lia.
    rewrite matchAll_from_first by (intros j Hj; apply Hall; lia).
    reflexivity.
Qed.

(** The pattern [a a] is first found at offset 0 of [a a a]. *)
Lemma matchFirst_least_witness :
  matchFirst (RFunction (fregex [RString "a"; RString "a"])) [a1; a2; a3] =
  FirstMatch (mkMatch [a1; a2] 0).
Proof.
  refine (proj1 (matchFirst_least (fregex [RString "a"; RString "a"]) [a1; a2; a3])
            0 (UNum 2) _ _ _ _).
  - simpl. lia.
  - intros j Hj. lia.
  - reflexivity.
  - discriminate.
Defined.

(** Two matches of [a] in [a a a] when the limit is 2. *)
Lemma matchAll_result_shape_witness :
  (forall n, Some 2 = Some n -> length [mkMatch [a1] 0; mkMatch [a2] 1] <= n) /\
  StronglySorted lt (map index [mkMatch [a1] 0; mkMatch [a2] 1]) /\
  Forall (fun found => index found < length [a1; a2; a3] /\
            exists k, slice found = firstn k (skipn (index found) [a1; a2; a3]))
         [mkMatch [a1] 0; mkMatch [a2] 1].
Proof.
  refine (matchAll_result_shape (RArray [RString "a"]) [a1; a2; a3] (Some 2) _ _).
  reflexivity.
Defined.

End FregexMore.

(* ================================================================== *)
(** * How sequences compose *)
(* ================================================================== *)
Module FregexCompose.
Import Lex Fregex FregexMoreSpec FregexMore.

Lemma fregex_is_sequence (rules : list Rule) (tokens : list Token) :
  fregex rules tokens = sequence (map prepare1 rules) tokens.
Proof.
  unfold fregex, prepare.
  destruct rules as [|r rules]; [reflexivity|].
  destruct r as [s|inner|props|f]; try reflexivity.
  destruct rules as [|r' rules]; [|reflexivity].
  cbn [unwrap map prepare1]. symmetry. apply sequence_of_sequence.
Qed.

Lemma sequence_from_shift (rules : list Matcher) (tokens : list Token) (i : nat) :
  forall j,
    sequence_from rules (i + j) tokens =
    shift i (sequence_from rules j (skipn i tokens)).
Proof.
  induction rules as [|rule rules IH]; intros j; simpl; [reflexivity|].
  rewrite skipn_skipn, (Nat.add_comm j i).
  destruct (rule (skipn (i + j) tokens)) as [[| |n]| |]; try reflexivity.
  - rewrite <- Nat.add_assoc. apply IH.
  - rewrite <- Nat.add_assoc. apply IH.
Qed.

Lemma sequence_from_app (a b : list Matcher) (tokens : list Token) :
  forall i,
    sequence_from (a ++ b) i tokens =
    match sequence_from a i tokens with
    | Ret (UNum n) => sequence_from b n tokens
    | other => other
    end.
Proof.
  induction a as [|rule a IH]; intros i; simpl; [reflexivity|].
  destruct (rule (skipn i tokens)) as [[| |n]| |]; try reflexivity; apply IH.
Qed.

(** X22.  A sequence is read from left to right without going back: the
    rules [a] followed by the rules [b] answer [false] when [a] does, and
    otherwise what [b] answers on the tokens after those [a] used, counted
    from the start.  An exception or a loop without end in [a] is that of
    the whole. *)
Theorem fregex_concat (a b : list Rule) (tokens : list Token) :
  fregex (a ++ b) tokens =
  match fregex a tokens with
  | Ret (UNum n) => shift n (fregex b (skipn n tokens))
  | other => other
  end.
Proof.
  rewrite !fregex_is_sequence. unfold sequence. rewrite map_app, sequence_from_app.
  destruct (sequence_from (map prepare1 a) 0 tokens) as [[| |n]| |];
    try reflexivity.
  rewrite fregex_is_sequence. unfold sequence.
  rewrite <- (Nat.add_0_r n) at 1. apply sequence_from_shift.
Qed.

(** X23.  [fregex.zeroOrOne] never answers [false].  In a sequence it
    commits to what its rules matched: when they match, the rules after it
    are tried on the tokens that follow the match and not on the tokens at
    the cursor, even where only the latter would succeed. *)
Theorem zeroOrOne_in_sequence (rules rest : list Rule) (tokens : list Token) :
  zeroOrOne rules tokens <> Ret UFalse /\
  fregex (RFunction (zeroOrOne rules) :: rest) tokens =
  match fregex rules tokens with
  | Ret UFalse => fregex rest tokens
  | Ret (UNum n) => shift n (fregex rest (skipn n tokens))
  | other => other
  end.
Proof.
  pose proof (fregex_single_array rules tokens) as A.
  split.
  - unfold zeroOrOne. cbv zeta. rewrite A.
    destruct (fregex rules tokens) as [[| |n]| |]; discriminate.
  - rewrite (fregex_is_sequence (_ :: _)). unfold sequence.
    cbn [map prepare1 sequence_from skipn]. unfold zeroOrOne at 1. cbv zeta.
    rewrite A.
    destruct (fregex rules tokens) as [[| |n]| |] eqn:E; try reflexivity.
    + rewrite fregex_is_sequence. reflexivity.
    + apply sequence_from_result in E. destruct E as [E|(k & E & _)]; discriminate.
    + rewrite fregex_is_sequence. unfold sequence. cbn [count].
      rewrite <- (Nat.add_0_r n) at 1. rewrite Nat.add_0_l.
      apply sequence_from_shift.
Qed.

End FregexCompose.

(* ================================================================== *)
(** * Facts about [rewriteImports] *)
(* ================================================================== *)
Module ExpectFacts.
Import Lex Fregex ExpectJs ExpectSpec Samples.

Lemma trivia_step (t : Token) (tokens : list Token) :
  fregex [RArray [RFunction (or [RObject [AType "whitespace"];
                                 RObject [AType "ln"];
                                 RObject [AType "comment"]])]] (t :: tokens) =
  if is_trivia t then Ret (UNum 1) else Ret UFalse.
Proof.
  unfold fregex, prepare, sequence, or, is_trivia. simpl.
  destruct (String.eqb (type t) "whitespace"); [reflexivity|].
  destruct (String.eqb (type t) "ln"); [reflexivity|].
  destruct (String.eqb (type t) "comment"); reflexivity.
Qed.

Lemma ws0_loop :
  forall fuel tokens i total,
    length tokens <= fuel ->
    xOrMore_loop fuel 0
      (fregex [RArray [RFunction (or [RObject [AType "whitespace"];
                                      RObject [AType "ln"];
                                      RObject [AType "comment"]])]])
      i total tokens = Ret (UNum (total + trivia_run tokens)).
Proof.
  induction fuel as [|fuel IH]; intros [|t tokens] i total Hf;
    try (simpl in Hf; lia).
  - simpl. now rewrite Nat.add_0_r.
  - simpl. now rewrite Nat.add_0_r.
  - cbn [xOrMore_loop]. rewrite trivia_step. cbn [trivia_run].
    destruct (is_trivia t).
    + cbn [count skipn]. rewrite IH by (simpl in Hf; lia). f_equal. f_equal. lia.
    + cbn [Nat.leb]. now rewrite Nat.add_0_r.
Qed.

(** [ws0] passes over the whitespace, line breaks and comments at the
    front, and never fails. *)
Lemma ws0_run (tokens : list Token) : ws0 tokens = Ret (UNum (trivia_run tokens)).
Proof. unfold ws0, zeroOrMore, xOrMore. now rewrite ws0_loop. Qed.

Lemma trivia_run_app (ws rest : list Token) :
  forallb is_trivia ws = true ->
  trivia_run (ws ++ rest) = length ws + trivia_run rest.
Proof.
  induction ws as [|w ws IH]; simpl; intros H; [reflexivity|].
  apply andb_prop in H. destruct H as [-> H]. now rewrite IH.
Qed.

Lemma trivia_not_string (t : Token) : is_trivia t = true -> String.eqb (type t) "string" = false.
Proof.
  unfold is_trivia. intros H. apply String.eqb_neq. intros E. rewrite E in H.
  discriminate.
Qed.

Lemma string_not_trivia (t : Token) : type t = "string" -> is_trivia t = false.
Proof. unfold is_trivia. intros ->. reflexivity. Qed.

(** ** What the loop leaves *)

Lemma left_for_kept (dir : string) (l : list Token) :
  Forall2 (left_for dir) l (map Kept l).
Proof. induction l; simpl; constructor; [now left | assumption]. Qed.

Lemma rewrite_first_left (dir : string) :
  forall n rest items,
    rewrite_first dir n rest = Some items ->
    Forall2 (left_for dir) (firstn n rest) items.
Proof.
  induction n as [|n IH]; intros rest items H; simpl in H.
  - injection H as <-. constructor.
  - destruct rest as [|t rest]; [discriminate|].
    destruct (String.eqb (type t) "string") eqn:E.
    + injection H as <-. simpl. constructor.
      * right. apply String.eqb_eq in E. auto.
      * apply left_for_kept.
    + destruct (rewrite_first dir n rest) as [items'|] eqn:R; [|discriminate].
      injection H as <-. simpl. constructor; [now left | now apply IH].
Qed.

Lemma firstn_one_skipn {A} (n : nat) (l : list A) :
  (firstn n l ++ firstn 1 (skipn n l) ++ skipn (n + 1) l)%list = l.
Proof.
  replace (n + 1) with (1 + n) by lia. rewrite <- skipn_skipn.
  rewrite (firstn_skipn 1 (skipn n l)). apply firstn_skipn.
Qed.

Lemma rewrite_from_left (dir : string) :
  forall fuel rest items,
    length rest <= fuel ->
    rewrite_from dir fuel rest = Done items ->
    Forall2 (left_for dir) rest items.
Proof.
  induction fuel as [|fuel IH]; intros rest items Hf H.
  - destruct rest; [|simpl in Hf; lia]. injection H as <-. constructor.
  - destruct rest as [|t rest]; [injection H as <-; constructor|].
    cbn [rewrite_from] in H.
    destruct (isImport (t :: rest)) as [used| |]; try discriminate.
    destruct (count used) as [|k] eqn:C.
    + destruct (rewrite_from dir fuel rest) as [items'| |] eqn:R; try discriminate.
      injection H as <-. simpl.
      constructor; [now left | apply IH; [simpl in Hf; lia | exact R]].
    + destruct (rewrite_first dir (S k) (t :: rest)) as [items1|] eqn:R1;
        [|discriminate].
      destruct (rewrite_from dir fuel (skipn (S k + 1) (t :: rest)))
        as [items'| |] eqn:R; try discriminate.
      injection H as <-.
      rewrite <- (firstn_one_skipn (S k) (t :: rest)) at 1.
      rewrite <- app_assoc.
      apply Forall2_app; [now apply rewrite_first_left|].
      apply Forall2_app; [apply left_for_kept|].
      apply IH; [|exact R]. rewrite length_skipn. simpl in *. lia.
Qed.

(** X12.  When [rewriteImports] returns, the array has the length it had:
    each element is the token that was there, or, for a token of type
    [string], what lines 49 to 57 make of it.  A token whose text between
    its quotes starts with [http://] or [https://] is left as it was. *)
Theorem rewriteImports_elementwise (tokens : list Token) (dir : string)
    (items : list Item) :
  rewriteImports tokens dir = Done items ->
  Forall2 (left_for dir) tokens items /\
  length items = length tokens /\
  Forall2 (fun t item =>
             startsWith (JsString.slice (text t) 1 (-1)) "http://" = true \/
             startsWith (JsString.slice (text t) 1 (-1)) "https://" = true ->
             item = Kept t) tokens items.
Proof.
  intros H. apply rewrite_from_left in H; [|lia].
  split; [exact H|]. split; [symmetry; eapply Forall2_length; exact H|].
  eapply Forall2_impl; [|exact H].
  intros t item [->|[_ ->]] Hurl; [reflexivity|].
  unfold rewrite. cbv zeta.
  destruct Hurl as [-> | ->]; simpl; [now rewrite andb_false_r | now rewrite andb_false_r].
Qed.

(** ** An import statement *)

Lemma rewrite_from_fuel (dir : string) :
  forall fuel fuel2 rest,
    length rest <= fuel -> length rest <= fuel2 ->
    rewrite_from dir fuel rest = rewrite_from dir fuel2 rest.
Proof.
  induction fuel as [|fuel IH]; intros fuel2 rest Hf Hf2.
  - destruct rest; [now destruct fuel2 | simpl in Hf; lia].
  - destruct rest as [|t rest]; [now destruct fuel2|].
    destruct fuel2 as [|fuel2]; [simpl in Hf2; lia|].
    cbn [rewrite_from].
    destruct (isImport (t :: rest)) as [used| |]; try reflexivity.
    destruct (count used) as [|k].
    + rewrite (IH fuel2) by (simpl in *; lia). reflexivity.
    + destruct (rewrite_first dir (S k) (t :: rest)); [|reflexivity].
      rewrite (IH fuel2) by (rewrite length_skipn; simpl in *; lia).
      reflexivity.
Qed.

Lemma skipn_app_exact {A} (l1 l2 : list A) : skipn (length l1) (l1 ++ l2) = l2.
Proof. induction l1; simpl; auto. Qed.

Lemma firstn_app_exact2 {A} (l1 l2 : list A) : firstn (length l1) (l1 ++ l2) = l1.
Proof. induction l1; simpl; [reflexivity | now f_equal]. Qed.

Lemma sequence_string_head (s : string) (rules : list Matcher) (t : Token)
    (l : list Token) :
  sequence (prepare1 (RString s) :: rules) (t :: l) =
  if String.eqb (text t) s then sequence_from rules 1 (t :: l) else Ret UFalse.
Proof.
  unfold sequence. cbn [sequence_from skipn prepare1].
  destruct (String.eqb (text t) s); reflexivity.
Qed.

Lemma sequence_ws0_string (t : Token) (l : list Token) :
  sequence_from [ws0; has_props [AType "string"]] 1 (t :: l) =
  match has_props [AType "string"] (skipn (trivia_run l) l) with
  | Ret UFalse => Ret UFalse
  | Ret u => Ret (UNum (1 + trivia_run l + count u))
  | TypeError => TypeError
  | Diverges => Diverges
  end.
Proof.
  cbn [sequence_from skipn]. rewrite ws0_run. cbn [count Nat.add skipn].
  destruct (has_props [AType "string"] (skipn (trivia_run l) l)) as [[| |n]| |];
    reflexivity.
Qed.

(** What [isImport] answers when [import] or [from] is followed, after
    whitespace, line breaks and comments, by a string or by nothing. *)
Lemma isImport_head (t : Token) (l : list Token) (r : Result) :
  text t = "import" \/ text t = "from" ->
  has_props [AType "string"] (skipn (trivia_run l) l) = r ->
  r <> Ret UFalse ->
  isImport (t :: l) =
  match r with
  | Ret u => Ret (UNum (1 + trivia_run l + count u))
  | other => other
  end.
Proof.
  intros Ht Hr Hne.
  unfold isImport, or, prepare. cbn [unwrap map first_match].
  change (prepare1 (RArray [RString "import"; RFunction ws0; RObject [AType "string"]]))
    with (sequence [prepare1 (RString "import"); ws0; has_props [AType "string"]]).
  change (prepare1 (RArray [RString "from"; RFunction ws0; RObject [AType "string"]]))
    with (sequence [prepare1 (RString "from"); ws0; has_props [AType "string"]]).
  change (prepare1 (RArray [RString "import"; RFunction ws0; RString "(";
                            RFunction ws0; RObject [AType "string"]]))
    with (sequence [prepare1 (RString "import"); ws0; prepare1 (RString "(");
                    ws0; has_props [AType "string"]]).
  rewrite !sequence_string_head, sequence_ws0_string, Hr.
  destruct Ht as [Ht|Ht]; rewrite Ht; cbn [String.eqb Ascii.eqb Bool.eqb];
    destruct r as [[| |n]| |]; try reflexivity; contradiction.
Qed.

Lemma isImport_statement (t : Token) (ws : list Token) (str : Token)
    (rest : list Token) :
  text t = "import" \/ text t = "from" ->
  forallb is_trivia ws = true ->
  type str = "string" ->
  isImport (t :: ws ++ str :: rest) = Ret (UNum (length ws + 2)).
Proof.
  intros Ht Hws Hstr.
  assert (Hrun : trivia_run (ws ++ str :: rest) = length ws).
  { rewrite trivia_run_app by exact Hws. simpl.
    rewrite (string_not_trivia str Hstr). lia. }
  rewrite (isImport_head t _ (Ret (UNum 1)) Ht).
  - rewrite Hrun. f_equal. f_equal. simpl. lia.
  - rewrite Hrun, skipn_app_exact. simpl. rewrite Hstr. reflexivity.
  - discriminate.
Qed.

Lemma rewrite_first_statement (dir : string) (t : Token) (ws : list Token)
    (str : Token) (rest : list Token) :
  type t <> "string" ->
  forallb is_trivia ws = true ->
  type str = "string" ->
  rewrite_first dir (length ws + 2) (t :: ws ++ str :: rest) =
  Some (Kept t :: map Kept ws ++ [rewrite dir str])%list.
Proof.
  intros Ht Hws Hstr.
  replace (length ws + 2) with (S (length ws + 1)) by lia. cbn [rewrite_first].
  apply String.eqb_neq in Ht. rewrite Ht.
  assert (E : rewrite_first dir (length ws + 1) (ws ++ str :: rest) =
              Some (map Kept ws ++ [rewrite dir str])%list).
  { clear Ht. induction ws as [|w ws IH]; simpl in *.
    - apply String.eqb_eq in Hstr. rewrite Hstr. reflexivity.
    - apply andb_prop in Hws. destruct Hws as [Hw Hws].
      rewrite (trivia_not_string w Hw), (IH Hws). reflexivity. }
  rewrite E. reflexivity.
Qed.

(** X13.  On an import statement ([import] or [from], then whitespace, line
    breaks and comments, then a token of type [string]) at the cursor,
    [rewriteImports] rewrites the string, keeps the tokens before it, keeps
    the one token after the statement without examining it, and goes on
    with the tokens after that one. *)
Theorem rewriteImports_statement (dir : string) (t : Token) (ws : list Token)
    (str : Token) (rest : list Token) :
  text t = "import" \/ text t = "from" ->
  type t <> "string" ->
  forallb is_trivia ws = true ->
  type str = "string" ->
  rewriteImports (t :: ws ++ str :: rest) dir =
  prepend (Kept t :: map Kept ws ++ [rewrite dir str] ++ map Kept (firstn 1 rest))
    (rewriteImports (skipn 1 rest) dir).
Proof.
  intros Ht Hty Hws Hstr. unfold rewriteImports.
  cbn [length rewrite_from].
  rewrite (isImport_statement t ws str rest Ht Hws Hstr). cbn [count].
  replace (length ws + 2) with (S (length ws + 1)) at 1 by lia.
  rewrite (rewrite_first_statement dir t ws str rest Hty Hws Hstr).
  assert (S1 : skipn (length ws + 2) (t :: ws ++ str :: rest) = rest).
  { replace (length ws + 2) with (S (length ws + 1)) by lia. cbn [skipn].
    replace (length ws + 1) with (length (ws ++ [str])) by (rewrite length_app; simpl; lia).
    replace (ws ++ str :: rest)%list with ((ws ++ [str]) ++ rest)%list
      by (rewrite <- app_assoc; reflexivity).
    apply skipn_app_exact. }
  assert (S2 : skipn (length ws + 2 + 1) (t :: ws ++ str :: rest) = skipn 1 rest).
  { replace (length ws + 2 + 1) with (1 + (length ws + 2)) by lia.
    rewrite <- skipn_skipn, S1. reflexivity. }
  rewrite S1, S2.
  rewrite (rewrite_from_fuel dir _ (length (skipn 1 rest)) (skipn 1 rest))
    by (rewrite ?length_skipn, ?length_app; simpl; lia).
  destruct (rewrite_from dir (length (skipn 1 rest)) (skipn 1 rest)); simpl;
    try reflexivity.
  rewrite <- !app_assoc. reflexivity.
Qed.

(** X14.  When the array starts with [import] or [from] followed only by
    whitespace, line breaks and comments up to its end, [rewriteImports]
    throws: the rule [{type: 'string'}] is applied to the empty slice. *)
Theorem rewriteImports_dangling_import (dir : string) (t : Token) (ws : list Token) :
  text t = "import" \/ text t = "from" ->
  forallb is_trivia ws = true ->
  isImport (t :: ws) = TypeError /\
  rewriteImports (t :: ws) dir = Thrown.
Proof.
  intros Ht Hws.
  assert (Hrun : trivia_run ws = length ws).
  { rewrite <- (app_nil_r ws) at 1. rewrite trivia_run_app by exact Hws.
    simpl. lia. }
  assert (E : isImport (t :: ws) = TypeError).
  { rewrite (isImport_head t ws TypeError Ht); [reflexivity | | discriminate].
    rewrite Hrun, skipn_all. reflexivity. }
  split; [exact E|].
  unfold rewriteImports. cbn [length rewrite_from]. now rewrite E.
Qed.

End ExpectFacts.

(* ================================================================== *)
(** * Further facts about the tokenizer *)
(* ================================================================== *)
Module LexMore.
Import Lex LexSpec LexRun LexMoreSpec JsStringFacts LexFacts Samples.

Section WithGrammarState.
Variable St : Type.
Implicit Types (grammar : Grammar St) (rules : Rules St) (st : St).

(** ** The shape of the tokens *)

Lemma identify_type rules current behind result :
  forall mt st type token mt' st',
    identify rules current behind result mt st = (Some (type, token, mt'), st') ->
    In type (map fst rules).
Proof.
  induction rules as [|[ty value] rules IH]; intros mt st type token mt' st' H;
    simpl in H; [discriminate|].
  destruct (try_value value current behind result mt st) as [[tok mt1] st1].
  destruct (String.eqb tok "").
  - right. eapply IH. exact H.
  - injection H as <- _ _ _. now left.
Qed.

Lemma nonempty_text (s : string) : 0 < String.length s -> s <> "".
Proof. intros H ->. simpl in H. lia. Qed.

Lemma Lexes_shaped grammar code :
  forall mode result line col index st out st',
    Lexes grammar code mode result line col index st out st' ->
    Forall (Shaped grammar mode) result ->
    forall how toks, out = Return how toks -> Forall (Shaped grammar mode) toks.
Proof.
  intros mode result line col index st out st' H.
  induction H as
    [ mode result line col index st Hge
    | mode result line col index st st1 Hlt Hid
    | mode result line col index st type token st1 Hlt Hid
    | mode result line col index st type token matchType st1 out st' Hlt Hid
        Hnp Hent Hrest IH
    | mode result line col index st type token matchType st1 m how' inner st2
        out st' Hlt Hid Hent Hin IHin tok Hrest IH
    | mode result line col index st type token matchType st1 m e st2
        Hlt Hid Hent Hin IHin ];
    intros Hres how toks Hout; try discriminate.
  - injection Hout as <- <-. exact Hres.
  - injection Hout as <- <-. apply Forall_app. split; [exact Hres|].
    constructor; [|constructor]. unfold token_of. simpl.
    constructor; [eapply identify_type; exact Hid|].
    apply nonempty_text. eapply identify_nonempty; exact Hid.
  - eapply IH; [|exact Hout]. apply Forall_app. split; [exact Hres|].
    constructor; [|constructor]. unfold token_of. rewrite Hent.
    constructor; [eapply identify_type; exact Hid|].
    apply nonempty_text. eapply identify_nonempty; exact Hid.
  - eapply IH; [|exact Hout]. apply Forall_app. split; [exact Hres|].
    constructor; [|constructor]. subst tok. unfold token_of. rewrite Hent.
    constructor; [eapply identify_type; exact Hid | |].
    + apply nonempty_text. eapply identify_nonempty; exact Hid.
    + eapply IHin; [constructor | reflexivity].
Qed.

(** X15.  Every token [lex] returns has the shape of the typedef [Token]
    for the mode the call runs in, and so has each child at every depth
    for the mode it was read in: a non-empty text, the name of a rule of
    that mode as its type, that mode as its mode; a token that opened a
    sub-mode has the opening text as its first child and the text of its
    children, joined, as its text. *)
Theorem lex_tokens_shaped grammar code mode st how toks st' :
  lex grammar code mode st = (Return how toks, st') ->
  Forall (Shaped grammar (start_mode grammar mode)) toks.
Proof.
  intros H. apply lex_from_run in H.
  eapply Lexes_shaped; [exact H | constructor | reflexivity].
Qed.

(** ** Reading order *)

Lemma shaped_text grammar mode (t : Token) :
  Shaped grammar mode t -> 0 < String.length (text t).
Proof.
  intros H. inversion H as [? tx ? ? ? _ Hne|? ? ? ? ? op inner _ Hne _]; subst; simpl.
  - destruct tx; [contradiction | simpl; lia].
  - rewrite join_tokens_cons, length_append. simpl.
    destruct op; [contradiction | simpl; lia].
Qed.

Lemma advance_moves (line0 col0 : Z) (token : string) :
  0 < String.length token ->
  (line0 < fst (advance line0 col0 token))%Z \/
  (line0 = fst (advance line0 col0 token) /\ (col0 < snd (advance line0 col0 token))%Z).
Proof.
  intros H. rewrite advance_spec. simpl.
  destruct (last_nl token) as [i|] eqn:E.
  - left. assert (count_nl token <> 0).
    { intros C. apply last_nl_none in C. congruence. }
    lia.
  - right. apply last_nl_none in E. rewrite E. lia.
Qed.

Lemma follows_sorted (l : list Token) :
  forall line0 col0,
    follows line0 col0 l ->
    Forall (fun t => 0 < String.length (text t)) l ->
    StronglySorted before l /\
    Forall (fun t => (line0 < line t)%Z \/ (line0 = line t /\ (col0 <= col t)%Z)) l.
Proof.
  induction l as [|t l IH]; intros line0 col0 Hf Hne.
  - split; constructor.
  - destruct Hf as (Hl & Hc & Hf). inversion Hne as [|? ? Ht Hne']; subst.
    destruct (IH _ _ Hf Hne') as [Hs Hall].
    pose proof (advance_moves (line t) (col t) (text t) Ht) as Hmove.
    split.
    + constructor; [exact Hs|].
      eapply Forall_impl; [|exact Hall]. intros a Ha. cbv beta in Ha.
      unfold before. lia.
    + constructor; [right; split; [reflexivity | lia]|].
      eapply Forall_impl; [|exact Hall]. intros a Ha. cbv beta in Ha. lia.
Qed.

(** X16.  The tokens [lex] returns are in reading order: each one starts on
    a later line than the one before it, or on the same line at a greater
    column.  This holds on every grammar. *)
Theorem lex_reading_order grammar code mode st how toks st' :
  lex grammar code mode st = (Return how toks, st') ->
  StronglySorted before toks.
Proof.
  intros H.
  pose proof H as H'. apply lex_from_run in H'.
  destruct (Lexes_follows St grammar code _ _ _ _ _ _ _ _ H' how toks eq_refl)
    as (new & E & Hf). simpl in E. subst new.
  assert (Hsh : Forall (Shaped grammar (start_mode grammar mode)) toks).
  { eapply Lexes_shaped; [exact H' | constructor | reflexivity]. }
  apply (follows_sorted toks 1%Z 1%Z Hf).
  eapply Forall_impl; [|exact Hsh]. intros t Ht. eapply shaped_text; exact Ht.
Qed.

(** ** A mode without rules, an empty input *)

(** X17.  With nothing left to read, [lex] returns the array it was given
    and leaves the state as it was, whatever the grammar, the mode and the
    offset at or past the end of the code.  In a mode that has no rules (a
    mode name the grammar does not have, or an empty grammar) it throws at
    once when there is something left to read, with that mode name and the
    position it was given. *)
Theorem lex_without_rules grammar code mode result line col index st :
  (String.length code <= index ->
   lex_from grammar code mode result line col index st =
   (Return EndOfInput result, st)) /\
  (rules_of grammar (start_mode grammar mode) = [] ->
   index < String.length code ->
   lex_from grammar code mode result line col index st =
   (Throw (mkLexError (start_mode grammar mode) line col (error_msg code index)),
    st)).
Proof.
  split.
  - intros Hge. unfold lex_from. rewrite lex_loop_S.
    now rewrite (proj2 (Nat.ltb_ge _ _) Hge).
  - intros Hr Hlt. unfold lex_from. rewrite lex_loop_S.
    rewrite (proj2 (Nat.ltb_lt _ _) Hlt), Hr. reflexivity.
Qed.

(** ** A directive without a match *)

Lemma try_value_function_free (value : list (Pattern St)) current behind result :
  Forall (fun p => match p with PFunction _ => False | _ => True end) value ->
  forall mt st token mt' st',
    try_value value current behind result mt st = (token, mt', st') ->
    mt' = mt /\ st' = st.
Proof.
  induction 1 as [|p value Hp _ IH]; intros mt st token mt' st' H; simpl in H.
  - injection H as _ <- <-. auto.
  - destruct p as [s|re|f]; [| |contradiction]; simpl in H.
    + destruct (startsWith current s); simpl in H.
      * destruct (String.eqb s ""); [now apply IH in H|].
        injection H as _ <- <-. auto.
      * now apply IH in H.
    + destruct (re current) as [m0|]; simpl in H.
      * destruct (String.eqb m0 ""); [now apply IH in H|].
        injection H as _ <- <-. auto.
      * now apply IH in H.
Qed.

Lemma identify_function_free rules current behind result :
  function_free rules ->
  forall mt st type token mt' st',
    identify rules current behind result mt st = (Some (type, token, mt'), st') ->
    mt' = mt /\ st' = st.
Proof.
  induction 1 as [|[ty value] rules Hv _ IH]; intros mt st type token mt' st' H;
    simpl in H; [discriminate|].
  destruct (try_value value current behind result mt st) as [[tok mt1] st1] eqn:E.
  destruct (try_value_function_free value current behind result Hv _ _ _ _ _ E)
    as [-> ->].
  destruct (String.eqb tok "").
  - eapply IH. exact H.
  - injection H as _ _ <- <-. auto.
Qed.

(** X18.  The directive of a function rule outlives the rule: when the
    function answers an empty match together with a directive, the
    directive stays in [matchType] (line 49), and the token of the string or
    regular expression rule that matches next is taken with it, as if that
    rule had asked to enter or leave a mode. *)
Theorem identify_keeps_directive (f : string -> string -> list Token -> St ->
                                     option (string * MatchType) * St)
    (name : string) rules current behind result st mt st1 type token mt' st' :
  f current behind result st = (Some ("", mt), st1) ->
  function_free rules ->
  identify ((name, [PFunction f]) :: rules) current behind result MUndefined st
    = (Some (type, token, mt'), st') ->
  mt' = mt /\ st' = st1.
Proof.
  intros Hf Hfree H. simpl in H. rewrite Hf in H. simpl in H.
  eapply identify_function_free; eassumption.
Qed.

End WithGrammarState.
End LexMore.

(* ================================================================== *)
(** * Further facts about the regular expressions *)
(* ================================================================== *)
Module RegExpFacts.
Import JsString RegExp RegExpSpec JsStringFacts.

Lemma get_some_lt (s : string) :
  forall i c, String.get i s = Some c -> i < String.length s.
Proof.
  induction s as [|c0 s IH]; intros i c H; simpl in H; [discriminate|].
  destruct i as [|i]; simpl; [lia|]. apply IH in H. lia.
Qed.

(** A match of [r] from [pos] hands over to its continuation at an offset
    that is at least [min_len r] further and within the input; when [r] is
    [lf_free], no character in between is a line feed. *)
Lemma m_reaches icase (r : Re) (input : string) :
  forall pos k e,
    pos <= String.length input ->
    m icase r input pos k = Some e ->
    exists p,
      pos + min_len r <= p /\ p <= String.length input /\ k p = Some e /\
      (lf_free icase r = true ->
       forall i, pos <= i < p -> String.get i input <> Some LF).
Proof.
  induction r as [|negated atoms| |a IHa b IHb|a IHa b IHb|greedy r IH| | |r IH|r IH];
    intros pos k e Hpos H; simpl in H.
  - exists pos. simpl. repeat split; try lia; exact H.
  - destruct (String.get pos input) as [c|] eqn:G; [|discriminate].
    destruct (xorb negated (class_has icase atoms c)) eqn:X; [|discriminate].
    pose proof (get_some_lt _ _ _ G) as Hlt.
    exists (S pos). simpl. repeat split; try lia; [exact H|].
    intros F i Hi. assert (i = pos) by lia. subst i. rewrite G.
    intros E. injection E as ->. rewrite X in F. discriminate.
  - destruct (String.get pos input) as [c|] eqn:G; [|discriminate].
    destruct (is_line_terminator c) eqn:X; [discriminate|].
    pose proof (get_some_lt _ _ _ G) as Hlt.
    exists (S pos). simpl. repeat split; try lia; [exact H|].
    intros _ i Hi. assert (i = pos) by lia. subst i. rewrite G.
    intros E. injection E as ->. unfold is_line_terminator in X.
    rewrite Ascii.eqb_refl in X. discriminate.
  - destruct (IHa _ _ _ Hpos H) as (p1 & L1 & B1 & K1 & F1).
    destruct (IHb _ _ _ B1 K1) as (p2 & L2 & B2 & K2 & F2).
    exists p2. simpl. repeat split; try lia; [exact K2|].
    intros F i Hi. apply andb_prop in F. destruct F as [Fa Fb].
    destruct (Nat.lt_ge_cases i p1).
    + apply (F1 Fa). lia.
    + apply (F2 Fb). lia.
  - destruct (m icase a input pos k) as [e1|] eqn:Ea.
    + injection H as ->.
      destruct (IHa _ _ _ Hpos Ea) as (p & L & B & K & F).
      exists p. simpl. repeat split; try lia; [exact K|].
      intros F' i Hi. apply andb_prop in F'. apply F; tauto.
    + destruct (IHb _ _ _ Hpos H) as (p & L & B & K & F).
      exists p. simpl. repeat split; try lia; [exact K|].
      intros F' i Hi. apply andb_prop in F'. apply F; tauto.
  - revert H. generalize (String.length input - pos) as n. intros n.
    revert pos Hpos. induction n as [|n IHn]; intros pos Hpos H.
    + assert (K : k pos = Some e) by (destruct greedy, (k pos); congruence).
      exists pos. simpl. repeat split; try lia; exact K.
    + match type of H with
      | (if greedy then match ?again with _ => _ end else _) = _ =>
          destruct again as [e1|] eqn:A
      end.
      * assert (here_or_again : k pos = Some e \/ e1 = e).
        { destruct greedy; [right; congruence|].
          destruct (k pos); [left; congruence | right; congruence]. }
        destruct here_or_again as [K| ->].
        { exists pos. simpl. repeat split; try lia; exact K. }
        destruct (IH _ _ _ Hpos A) as (p1 & L1 & B1 & K1 & F1).
        destruct (Nat.ltb pos p1) eqn:Lt; [|discriminate].
        apply Nat.ltb_lt in Lt.
        destruct (IHn _ B1 K1) as (p2 & L2 & B2 & K2 & F2).
        exists p2. simpl in *. repeat split; try lia; [exact K2|].
        intros F i Hi. destruct (Nat.lt_ge_cases i p1).
        -- apply (F1 F). lia.
        -- apply (F2 F). lia.
      * assert (K : k pos = Some e) by (destruct greedy, (k pos); congruence).
        exists pos. simpl. repeat split; try lia; exact K.
  - destruct (Nat.eqb pos 0); [|discriminate].
    exists pos. simpl. repeat split; try lia; exact H.
  - destruct (Nat.eqb pos (String.length input)); [|discriminate].
    exists pos. simpl. repeat split; try lia; exact H.
  - destruct (m icase r input pos (fun p => Some p)); [|discriminate].
    exists pos. simpl. repeat split; try lia; exact H.
  - match type of H with (if ?b then _ else _) = _ => destruct b end;
      [discriminate|].
    exists pos. simpl. repeat split; try lia; exact H.
Qed.

Lemma count_nl_take_free (n : nat) :
  forall s, (forall i, i < n -> String.get i s <> Some LF) ->
    count_nl (take n s) = 0.
Proof.
  induction n as [|n IH]; intros [|c s] H; simpl; try reflexivity.
  destruct (Ascii.eqb c LF) eqn:E.
  - apply Ascii.eqb_eq in E. subst c. exfalso. apply (H 0); [lia | reflexivity].
  - simpl. apply IH. intros i Hi. apply (H (S i)). lia.
Qed.

(** The text that a regular expression [/^r/] reports: non-empty when [r]
    spans a character, and on one line when [r] is [lf_free]. *)
Lemma exec_bol_text icase (r : Re) (input m0 : string) :
  exec icase (Seq Bol r) input = Some m0 ->
  min_len r <= String.length m0 /\
  (lf_free icase r = true -> count_nl m0 = 0).
Proof.
  unfold exec. simpl seq. cbn [leftmost]. intros H.
  destruct (m icase (Seq Bol r) input 0 (fun e => Some e)) as [e|] eqn:E.
  - injection H as <-. cbn [m Nat.eqb] in E.
    destruct (m_reaches icase r input 0 _ e (Nat.le_0_l _) E) as (p & L & B & K & F).
    injection K as ->. rewrite Nat.sub_0_r. cbn [drop].
    rewrite length_take. split; [lia|].
    intros Fr. apply count_nl_take_free. intros i Hi. apply (F Fr). lia.
  - rewrite HtmlJsFacts.leftmost_after_bol in H; [discriminate|].
    apply Forall_forall. intros s Hs. apply in_seq in Hs. lia.
Qed.

End RegExpFacts.

(* ================================================================== *)
(** * What the rule functions of a grammar keep *)
(* ================================================================== *)
Module LexKeeps.
Import Lex LexSpec LexRun LexMoreSpec JsStringFacts LexFacts.

Section WithGrammarState.
Variable St : Type.

Lemma keeps_function (inv : St -> Prop) (post : string -> MatchType -> Prop)
    current behind result f :
  (forall st out st',
      inv st -> f current behind result st = (out, st') ->
      inv st' /\
      match out with
      | Some (t, mt) => (t = "" -> mt = MUndefined) /\ post t mt
      | None => True
      end) ->
  keeps inv post current behind result (PFunction f).
Proof.
  intros H st Hst. destruct (f current behind result st) as [out st'] eqn:E.
  exact (H st out st' Hst E).
Qed.

Section Keeps.
Variable inv : St -> Prop.
Variable post : string -> MatchType -> Prop.
Hypothesis post_undefined : forall t, post t MUndefined.
Variables current behind : string.
Variable result : list Token.

Lemma try_value_keeps (value : list (Pattern St)) :
  Forall (keeps inv post current behind result) value ->
  forall st, inv st ->
  forall token mt' st',
    try_value value current behind result MUndefined st = (token, mt', st') ->
    inv st' /\ (token = "" -> mt' = MUndefined) /\ post token mt'.
Proof.
  induction 1 as [|p value Hp _ IH]; intros st Hst token mt' st' H; simpl in H.
  - injection H as <- <- <-. auto.
  - destruct p as [s|re|f]; simpl in H.
    + destruct (startsWith current s); simpl in H.
      * destruct (String.eqb s "") eqn:E; [eapply IH; eassumption|].
        injection H as <- <- <-. apply String.eqb_neq in E.
        repeat split; auto; intros C; contradiction.
      * eapply IH; eassumption.
    + destruct (re current) as [m0|]; simpl in H.
      * destruct (String.eqb m0 "") eqn:E; [eapply IH; eassumption|].
        injection H as <- <- <-. apply String.eqb_neq in E.
        repeat split; auto; intros C; contradiction.
      * eapply IH; eassumption.
    + specialize (Hp st Hst).
      destruct (f current behind result st) as [[[t mt]|] st1];
        simpl in Hp, H.
      * destruct Hp as (Hi & He & Hq). destruct (String.eqb t "") eqn:E.
        -- apply String.eqb_eq in E. rewrite (He E) in H.
           exact (IH _ Hi _ _ _ H).
        -- injection H as <- <- <-. auto.
      * destruct Hp as [Hi _]. exact (IH _ Hi _ _ _ H).
Qed.

Lemma identify_keeps (rules : Rules St) :
  rules_keep inv post current behind result rules ->
  forall st, inv st ->
  forall found st',
    identify rules current behind result MUndefined st = (found, st') ->
    inv st' /\
    match found with
    | Some (_, token, mt) => post token mt
    | None => True
    end.
Proof.
  induction 1 as [|[ty value] rules Hv _ IH]; intros st Hst found st' H;
    simpl in H.
  - injection H as <- <-. auto.
  - destruct (try_value value current behind result MUndefined st)
      as [[tok mt1] st1] eqn:E.
    destruct (try_value_keeps value Hv st Hst _ _ _ E) as (Hi & He & Hq).
    destruct (String.eqb tok "") eqn:T.
    + apply String.eqb_eq in T. rewrite (He T) in H. exact (IH _ Hi _ _ H).
    + injection H as <- <-. auto.
Qed.

End Keeps.

(** ** Entering a mode within a line *)

Lemma rules_of_opens_in_line (grammar : Grammar St) (mode : string) :
  opens_in_line grammar ->
  forall current behind result,
    rules_keep (fun _ => True) enters_on_one_line current behind result
               (rules_of grammar mode).
Proof.
  induction 1 as [|[m rules] grammar Hm _ IH]; intros current behind result;
    simpl.
  - constructor.
  - destruct (String.eqb m mode); [apply Hm | apply IH].
Qed.

Lemma forallb_snoc {A : Type} (f : A -> bool) (l : list A) (a : A) :
  forallb f l = true -> f a = true -> forallb f (l ++ [a]) = true.
Proof.
  intros Hl Ha. rewrite forallb_app, Hl. simpl. now rewrite Ha.
Qed.

Lemma Lexes_opens (grammar : Grammar St) (code : string) :
  opens_in_line grammar ->
  forall mode result line col index st out st',
    Lexes grammar code mode result line col index st out st' ->
    forallb opens_on_one_line result = true ->
    forall how toks, out = Return how toks ->
      forallb opens_on_one_line toks = true.
Proof.
  intros Hg mode result line col index st out st' H.
  induction H as
    [ mode result line col index st Hge
    | mode result line col index st st1 Hlt Hid
    | mode result line col index st type token st1 Hlt Hid
    | mode result line col index st type token matchType st1 out st' Hlt Hid
        Hnp Hent Hrest IH
    | mode result line col index st type token matchType st1 m how' inner st2
        out st' Hlt Hid Hent Hin IHin tok Hrest IH
    | mode result line col index st type token matchType st1 m e st2
        Hlt Hid Hent Hin IHin ];
    intros Hres how toks Hout; try discriminate.
  - injection Hout as <- <-. exact Hres.
  - injection Hout as <- <-. now apply forallb_snoc.
  - eapply IH; [|exact Hout]. now apply forallb_snoc.
  - eapply IH; [|exact Hout]. apply forallb_snoc; [exact Hres|].
    subst tok. unfold composite, token_of. cbn [opens_on_one_line text forallb].
    pose proof (identify_keeps (fun _ => True) enters_on_one_line
                  (fun t C => False_ind _ (C eq_refl)) _ _ _ _
                  (rules_of_opens_in_line grammar mode Hg _ _ _)
                  st I _ _ Hid) as [_ Hq].
    cbv beta iota in Hq. unfold enters_on_one_line in Hq.
    rewrite Hq; [|congruence]. simpl.
    eapply IHin; reflexivity.
Qed.

(** On a grammar whose rules match at the cursor and enter modes within a
    line, every token of the result, children included, carries the line
    and column of its first character. *)
Lemma lex_placed_at_all_depths (grammar : Grammar St) code mode st how toks st' :
  anchored_grammar grammar ->
  opens_in_line grammar ->
  lex grammar code mode st = (Return how toks, st') ->
  Forall (placed code) (emitted 0 toks).
Proof.
  intros Ha Ho H. apply lex_from_run in H.
  destruct (Lexes_placed St grammar code Ha _ _ _ _ _ _ _ _ H (Nat.le_0_l _)
              eq_refl eq_refl how toks eq_refl) as (new & E & _ & P).
  simpl in E. subst new. apply P.
  eapply Lexes_opens; [exact Ho | exact H | reflexivity | reflexivity].
Qed.

End WithGrammarState.
End LexKeeps.

(* ================================================================== *)
(** * Further facts about the html/js grammar *)
(* ================================================================== *)
Module HtmlJsMore.
Import Lex RegExp RegExpSpec LexHtmlJs LexSpec LexRun LexMoreSpec.
Import JsStringFacts LexFacts HtmlJsFacts RegExpFacts LexKeeps Samples.

Ltac each_pattern :=
  repeat (apply Forall_cons; [cbn [snd map]|]); try apply Forall_nil;
  repeat (apply Forall_cons; [|]); try apply Forall_nil;
  try exact I.

Lemma keeps_pure (inv : Depths -> Prop) (post : string -> MatchType -> Prop)
    current behind result f :
  match f current with
  | Some (t, mt) => (t = "" -> mt = MUndefined) /\ post t mt
  | None => True
  end ->
  keeps inv post current behind result (pure f).
Proof.
  intros H. apply keeps_function. intros st out st' Hst E. simpl in E.
  injection E as <- <-. auto.
Qed.

(** ** Modes are entered within a line *)

Lemma no_directive (t : string) : enters_on_one_line t MUndefined.
Proof. intros C. exfalso. apply C. reflexivity. Qed.

Lemma pop_directive (t : string) : enters_on_one_line t MPop.
Proof. intros C. exfalso. apply C. reflexivity. Qed.

Lemma opens_expr hash current behind result :
  keeps (fun _ => True) enters_on_one_line current behind result (expr hash).
Proof.
  apply keeps_function. intros st out st' _ H. cbv beta zeta in H.
  destruct ((hash && startsWith current "#{") || startsWith current "${") eqn:E.
  - pose proof (f_equal fst H) as Ho. cbn [fst] in Ho. subst out. clear H.
    split; [exact I|].
    assert (T : take 2 current = "#{" \/ take 2 current = "${").
    { apply orb_prop in E. destruct E as [E|E].
      - apply andb_prop in E. destruct E as [_ E].
        left. symmetry. exact (startsWith_take _ _ E).
      - right. symmetry. exact (startsWith_take _ _ E). }
    destruct T as [-> | ->]; (split; [discriminate | intros _; reflexivity]).
  - injection H as <- <-. auto.
Qed.

Lemma opens_template current behind result :
  keeps (fun _ => True) enters_on_one_line current behind result template.
Proof.
  apply keeps_function. intros st out st' _ H. simpl in H.
  destruct (first_is current BACKTICK); injection H as <- <-; [|auto].
  split; [exact I|]. split; [discriminate | apply pop_directive].
Qed.

Lemma opens_openTag goInto current behind result :
  keeps (fun _ => True) enters_on_one_line current behind result (openTag goInto).
Proof.
  apply keeps_pure.
  destruct (exec true _ current) as [m0|] eqn:E; [|exact I].
  apply exec_bol_text in E. destruct E as [L F]. split.
  - intros ->. simpl in L. lia.
  - intros _. apply F. reflexivity.
Qed.

Lemma opens_first_is (c : ascii) (out : string) (mt : MatchType)
    current behind result :
  out <> "" -> count_nl out = 0 ->
  keeps (St := Depths) (fun _ => True) enters_on_one_line current behind result
    (pure (fun code => if first_is code c then Some (out, mt) else None)).
Proof.
  intros Hne Hnl. apply keeps_pure. destruct (first_is current c); [|exact I].
  split; [intros C; contradiction | intros _; exact Hnl].
Qed.

Lemma opens_tag current behind result :
  rules_keep (fun _ => True) enters_on_one_line current behind result (tag false).
Proof.
  unfold rules_keep, tag. each_pattern;
    try apply opens_template;
    try (apply opens_first_is; [discriminate | reflexivity]).
  - apply keeps_pure. destruct (first_is current ">").
    + split; [discriminate | apply pop_directive].
    + destruct (startsWith current "/>"); [|exact I].
      split; [discriminate | apply pop_directive].
  - apply keeps_pure. exact I.
Qed.

Lemma opens_js current behind result :
  rules_keep (fun _ => True) enters_on_one_line current behind result js.
Proof.
  unfold rules_keep, js. each_pattern.
  - apply keeps_function. intros st out st' _ H. simpl in H.
    destruct (first_is current BACKTICK); injection H as <- <-; [|auto].
    split; [exact I|]. split; [discriminate | intros _; reflexivity].
  - apply keeps_function. intros st out st' _ H. simpl in H.
    destruct (first_is current "{"); injection H as <- <-; [|auto].
    split; [exact I|]. split; [discriminate | apply no_directive].
  - apply keeps_function. intros st out st' _ H. simpl in H.
    destruct (first_is current "}"); [|injection H as <- <-; auto].
    destruct ((braceDepth st =? 0)%Z && negb (templateDepth st =? 0)%Z);
      injection H as <- <-; (split; [exact I|]);
      (split; [discriminate | (apply pop_directive || apply no_directive)]).
  - apply keeps_function. intros st out st' _ H. unfold regex in H.
    match type of H with
    | (if ?b then _ else _) = _ => destruct b; [|injection H as <- <-; auto]
    end.
    destruct (exec false _ current) as [m0|]; injection H as <- <-; [|auto].
    split; [exact I|]. split; [reflexivity | apply no_directive].
Qed.

Lemma opens_html current behind result :
  rules_keep (fun _ => True) enters_on_one_line current behind result html.
Proof. unfold rules_keep, html. each_pattern. apply opens_openTag. Qed.

Lemma opens_template_mode hash current behind result :
  rules_keep (fun _ => True) enters_on_one_line current behind result
    (template_mode hash).
Proof.
  unfold rules_keep, template_mode. each_pattern;
    try apply opens_expr; try apply opens_openTag; try apply opens_template.
  apply keeps_pure. cbv zeta.
  destruct (exec false _ current) as [m0|]; [|exact I].
  split; [reflexivity | apply no_directive].
Qed.

Lemma opens_quoted hash quote current behind result :
  rules_keep (fun _ => True) enters_on_one_line current behind result
    (quoted hash quote).
Proof.
  unfold rules_keep, quoted. each_pattern; try apply opens_expr.
  apply keeps_pure. destruct (first_is current quote); [|exact I].
  split; [discriminate | apply pop_directive].
Qed.

Lemma opens_in_line_lexHtmlJs hash : opens_in_line (lexHtmlJs hash false).
Proof.
  unfold opens_in_line, lexHtmlJs.
  apply Forall_cons; [intros; apply opens_js|].
  apply Forall_cons; [intros; apply opens_html|].
  apply Forall_cons; [intros; apply opens_template_mode|].
  apply Forall_cons.
  { intros current behind result. apply Forall_cons; [|apply opens_tag].
    cbn [snd]. apply Forall_cons; [apply opens_expr | apply Forall_nil]. }
  apply Forall_cons; [intros; apply opens_tag|].
  apply Forall_cons; [intros; apply opens_quoted|].
  apply Forall_cons; [intros; apply opens_quoted | apply Forall_nil].
Qed.

(** X19.  With the grammar of lex-htmljs.js (unknown tag tokens off, as by
    default) the texts of the returned tokens, joined, are a prefix of the
    code, and the whole code when the input was read to its end. *)
Theorem lexHtmlJs_lossless hash code mode st how toks st' :
  lex (lexHtmlJs hash false) code mode st = (Return how toks, st') ->
  (exists k, join_tokens toks = take k code) /\
  (how = EndOfInput -> join_tokens toks = code).
Proof.
  intros H. apply lex_from_run in H.
  destruct (Lexes_consumed Depths _ code (anchored_lexHtmlJs hash)
              _ _ _ _ _ _ _ _ H (Nat.le_0_l _) how toks eq_refl)
    as (new & k & E & J & B & F).
  simpl in E. subst new. cbn [drop] in J. split.
  - exists k. exact J.
  - intros Hend. rewrite J. apply take_all. specialize (F Hend). lia.
Qed.

(** X20.  With the grammar of lex-htmljs.js (unknown tag tokens off) every
    token of the result, at every depth, has the line and the column of
    its first character in the code. *)
Theorem lexHtmlJs_positions hash code mode st how toks st' :
  lex (lexHtmlJs hash false) code mode st = (Return how toks, st') ->
  Forall (placed code) (emitted 0 toks).
Proof.
  apply lex_placed_at_all_depths;
    [apply anchored_lexHtmlJs | apply opens_in_line_lexHtmlJs].
Qed.

(** ** JavaScript without template literals *)

Lemma includes_drop (c : ascii) (s : string) :
  includes s c = false -> forall i, first_is (drop i s) c = false.
Proof.
  induction s as [|c0 s IH]; intros H i.
  - now destruct i.
  - simpl in H. apply orb_false_elim in H. destruct H as [H0 Hs].
    destruct i as [|i]; simpl; [exact H0 | now apply IH].
Qed.

Lemma stays_js current behind result :
  first_is current BACKTICK = false ->
  rules_keep (fun st => templateDepth st = 0%Z) (fun _ mt => mt = MUndefined)
    current behind result js.
Proof.
  intros Hb. unfold rules_keep, js. each_pattern.
  - apply keeps_function. intros st out st' Hst H. simpl in H.
    rewrite Hb in H. injection H as <- <-. auto.
  - apply keeps_function. intros st out st' Hst H. simpl in H.
    destruct (first_is current "{"); injection H as <- <-; auto.
  - apply keeps_function. intros st out st' Hst H. simpl in H.
    destruct (first_is current "}"); [|injection H as <- <-; auto].
    rewrite Hst in H. rewrite andb_false_r in H. injection H as <- <-. auto.
  - apply keeps_function. intros st out st' Hst H. unfold regex in H.
    match type of H with
    | (if ?b then _ else _) = _ => destruct b; [|injection H as <- <-; auto]
    end.
    destruct (exec false _ current) as [m0|]; injection H as <- <-; auto.
Qed.

Lemma Lexes_js_without_template hash (code : string) :
  includes code BACKTICK = false ->
  forall mode result line col index st out st',
    Lexes (lexHtmlJs hash false) code mode result line col index st out st' ->
    mode = "js" ->
    templateDepth st = 0%Z ->
    Forall flat result ->
    templateDepth st' = 0%Z /\
    match out with
    | Return how toks => how = EndOfInput /\ Forall flat toks
    | Throw _ => True
    | Timeout => False
    end.
Proof.
  intros Hc mode result line col index st out st' H.
  assert (K : forall result index st found st1,
             templateDepth st = 0%Z ->
             identify (rules_of (lexHtmlJs hash false) "js") (drop index code)
               (take index code) result MUndefined st = (found, st1) ->
             templateDepth st1 = 0%Z /\
             match found with
             | Some (_, _, mt) => mt = MUndefined
             | None => True
             end).
  { intros result0 index0 st0 found st1 Hst Hid.
    exact (identify_keeps Depths (fun st => templateDepth st = 0%Z)
             (fun _ mt => mt = MUndefined) (fun _ => eq_refl) _ _ _ js
             (stays_js _ _ _ (includes_drop _ _ Hc index0)) st0 Hst _ _ Hid). }
  induction H as
    [ mode result line col index st Hge
    | mode result line col index st st1 Hlt Hid
    | mode result line col index st type token st1 Hlt Hid
    | mode result line col index st type token matchType st1 out st' Hlt Hid
        Hnp Hent Hrest IH
    | mode result line col index st type token matchType st1 m how' inner st2
        out st' Hlt Hid Hent Hin IHin tok Hrest IH
    | mode result line col index st type token matchType st1 m e st2
        Hlt Hid Hent Hin IHin ];
    intros -> Hst Hres.
  - auto.
  - destruct (K _ _ _ _ _ Hst Hid) as [Hst1 _]. auto.
  - destruct (K _ _ _ _ _ Hst Hid) as [_ C]. discriminate.
  - destruct (K _ _ _ _ _ Hst Hid) as [Hst1 _].
    apply IH; [reflexivity | exact Hst1|].
    apply Forall_app. split; [exact Hres|]. constructor; [reflexivity|constructor].
  - destruct (K _ _ _ _ _ Hst Hid) as [_ C]. subst matchType. discriminate.
  - destruct (K _ _ _ _ _ Hst Hid) as [_ C]. subst matchType. discriminate.
Qed.

(** X21.  JavaScript without a backtick, read in mode [js] while the
    template counter of the module is 0, is never cut short: [lex] either
    throws or returns flat tokens whose texts, joined, are the whole code;
    and the template counter is 0 again afterwards. *)
Theorem lexHtmlJs_js_without_template hash code st out st' :
  includes code BACKTICK = false ->
  templateDepth st = 0%Z ->
  lex (lexHtmlJs hash false) code (Some "js") st = (out, st') ->
  templateDepth st' = 0%Z /\
  match out with
  | Return how toks =>
      how = EndOfInput /\ join_tokens toks = code /\ Forall flat toks
  | Throw _ => True
  | Timeout => False
  end.
Proof.
  intros Hc Hst H. apply lex_from_run in H.
  destruct (Lexes_js_without_template hash code Hc _ _ _ _ _ _ _ _ H
              eq_refl Hst (Forall_nil _)) as [Hst' Hout].
  split; [exact Hst'|].
  destruct out as [how toks|e|]; [|exact I|exact Hout].
  destruct Hout as [-> Hflat]. repeat split; [|exact Hflat].
  destruct (Lexes_consumed Depths _ code (anchored_lexHtmlJs hash)
              _ _ _ _ _ _ _ _ H (Nat.le_0_l _) EndOfInput toks eq_refl)
    as (new & k & E & J & B & F).
  simpl in E. subst new. cbn [drop] in J. rewrite J. apply take_all.
  specialize (F eq_refl). lia.
Qed.

End HtmlJsMore.

(* ================================================================== *)
(** * The error of the tokenizer *)
(* ================================================================== *)
Module LexErrors.
Import Lex LexSpec LexRun LexMoreSpec LexTrace JsStringFacts LexFacts LexKeeps.

(** ** The text of the message *)

Lemma drop_take (a b : nat) (s : string) :
  drop a (take b s) = take (b - a) (drop a s).
Proof.
  revert b s. induction a as [|a IH]; intros b s.
  - now rewrite Nat.sub_0_r.
  - destruct b as [|b]; destruct s as [|c s]; simpl; try reflexivity.
    + now destruct (b - a).
    + apply IH.
Qed.

(** What line 57 shows before the marker: the [shown_before] characters
    that precede the offset. *)
Lemma slice_shown_before (code : string) (index : nat) :
  index <= String.length code ->
  slice code (Z.of_nat index - 10) (Z.of_nat index) =
  drop (index - shown_before (String.length code) index) (take index code).
Proof.
  intros Hle. rewrite drop_take. unfold slice, shown_before. cbv zeta.
  destruct (Nat.leb 10 index) eqn:E10.
  - apply Nat.leb_le in E10.
    replace (Z.of_nat index - 10 <? 0)%Z with false
      by (symmetry; apply Z.ltb_ge; lia).
    replace (Z.of_nat index <? 0)%Z with false
      by (symmetry; apply Z.ltb_ge; lia).
    f_equal; [lia | f_equal; lia].
  - apply Nat.leb_gt in E10.
    replace (Z.of_nat index - 10 <? 0)%Z with true
      by (symmetry; apply Z.ltb_lt; lia).
    replace (Z.of_nat index <? 0)%Z with false
      by (symmetry; apply Z.ltb_ge; lia).
    destruct (Nat.le_gt_cases (String.length code) 10) as [Hlen|Hlen].
    + f_equal; [lia | f_equal; lia].
    + replace (Nat.min index (10 - String.length code)) with 0 by lia.
      rewrite Nat.sub_0_r, Nat.sub_diag.
      replace (Z.to_nat _) with 0 by lia. reflexivity.
Qed.

Lemma error_msg_text (code : string) (index : nat) :
  index <= String.length code ->
  error_msg code index =
  escape_newlines
    (drop (index - shown_before (String.length code) index) (take index code)
     ++ marker ++ take 20 (drop index code)).
Proof.
  intros Hle. unfold error_msg. now rewrite slice_shown_before.
Qed.

Lemma shown_before_le (len index : nat) : shown_before len index <= 10.
Proof. unfold shown_before. destruct (Nat.leb 10 index); lia. Qed.

Lemma length_error_msg (code : string) (index : nat) :
  index <= String.length code ->
  String.length (error_msg code index) <= 2 * (10 + String.length marker + 20).
Proof.
  intros Hle. rewrite error_msg_text by exact Hle.
  etransitivity; [apply length_escape_newlines|].
  rewrite !length_append, length_drop, !length_take.
  pose proof (shown_before_le (String.length code) index). lia.
Qed.

Lemma get_drop (s : string) :
  forall i, i < String.length s ->
    exists ch rest, String.get i s = Some ch /\ take 20 (drop i s) = String ch rest.
Proof.
  induction s as [|c s IH]; intros i H; simpl in H; [lia|].
  destruct i as [|i].
  - exists c, (take 19 s). split; reflexivity.
  - simpl. apply IH. lia.
Qed.

Section WithGrammarState.
Variable St : Type.
Implicit Types (grammar : Grammar St) (st : St) (c : Cursor St).

(** ** A run has one outcome *)

Lemma Lexes_functional grammar code :
  forall mode result line col index st out st',
    Lexes grammar code mode result line col index st out st' ->
    forall out2 st2,
      Lexes grammar code mode result line col index st out2 st2 ->
      out2 = out /\ st2 = st'.
Proof.
  intros mode result line col index st out st' H.
  induction H as
    [ mode result line col index st Hge
    | mode result line col index st st1 Hlt Hid
    | mode result line col index st type token st1 Hlt Hid
    | mode result line col index st type token matchType st1 out st' Hlt Hid
        Hnp Hent Hrest IH
    | mode result line col index st type token matchType st1 m how' inner st2
        out st' Hlt Hid Hent Hin IHin tok Hrest IH
    | mode result line col index st type token matchType st1 m e st2
        Hlt Hid Hent Hin IHin ];
    intros out2 st3 H2; inversion H2; subst;
    try lia;
    try match goal with
        | A : identify ?r ?cu ?b ?res ?mt ?s = _,
          B : identify ?r ?cu ?b ?res ?mt ?s = _ |- _ =>
            rewrite A in B; inversion B; subst; clear B
        end;
    try congruence;
    try (split; reflexivity);
    try (exfalso;
         match goal with
         | A : enters MPop = Some _ |- _ => discriminate A
         | A : MPop <> MPop |- _ => now apply A
         | A : enters ?mt = None, B : enters ?mt = Some _ |- _ =>
             rewrite A in B; discriminate B
         end);
    try match goal with
        | A : enters ?mt = Some ?m1, B : enters ?mt = Some ?m2 |- _ =>
            rewrite A in B; inversion B; subst; clear B
        end.
  - match goal with A : Lexes _ _ _ (_ ++ _) _ _ _ _ out2 st3 |- _ =>
      exact (IH _ _ A) end.
  - clear Hin. match goal with A : Lexes _ _ _ [] _ _ _ _ (Return _ _) _ |- _ =>
      destruct (IHin _ _ A) as [Eo Es]; inversion Eo; subst end.
    match goal with A : Lexes _ _ _ (_ ++ _) _ _ _ _ out2 st3 |- _ =>
      exact (IH _ _ A) end.
  - clear Hin. match goal with A : Lexes _ _ _ [] _ _ _ _ (Throw _) _ |- _ =>
      destruct (IHin _ _ A) as [Eo Es]; discriminate Eo end.
  - clear Hin. match goal with A : Lexes _ _ _ [] _ _ _ _ (Return _ _) _ |- _ =>
      destruct (IHin _ _ A) as [Eo Es]; discriminate Eo end.
  - clear Hin. match goal with A : Lexes _ _ _ [] _ _ _ _ (Throw _) _ |- _ =>
      destruct (IHin _ _ A) as [Eo Es]; inversion Eo; subst end.
    split; reflexivity.
Qed.

(** ** A cursor where no rule matches *)

(** An invocation that comes to a cursor where no rule of the mode matches
    throws the error of that cursor, however deep the cursor is. *)
Lemma Visits_throws grammar code c0 c :
  Visits grammar code c0 c ->
  forall st1,
    at_index c < String.length code ->
    identify (rules_of grammar (at_mode c)) (drop (at_index c) code)
      (take (at_index c) code) (at_result c) MUndefined (at_state c) = (None, st1) ->
    Lexes grammar code (at_mode c0) (at_result c0) (at_line c0) (at_col c0)
      (at_index c0) (at_state c0)
      (Throw (mkLexError (at_mode c) (at_line c) (at_col c)
                (error_msg code (at_index c)))) st1.
Proof.
  induction 1 as
    [ c
    | mode result line col index st type token matchType st1 c Hlt Hid Hnp Hent
        Hrest IH
    | mode result line col index st type token matchType st1 m c Hlt Hid Hent
        Hin IH
    | mode result line col index st type token matchType st1 m how inner st2 c
        Hlt Hid Hent Hinner tok Hrest IH ];
    intros st' Hc Hnone; cbn [at_mode at_result at_line at_col at_index at_state].
  - now apply Lexes_unknown.
  - eapply Lexes_plain; try eassumption. exact (IH st' Hc Hnone).
  - eapply Lexes_descend_throw; try eassumption. exact (IH st' Hc Hnone).
  - eapply Lexes_descend; try eassumption. exact (IH st' Hc Hnone).
Qed.

(** Every error of a run is that of a cursor the run came to, where no
    rule of the mode matched. *)
Lemma Lexes_throw_visits grammar code :
  forall mode result line col index st out st',
    Lexes grammar code mode result line col index st out st' ->
    forall e, out = Throw e ->
      exists c,
        Visits grammar code (mkCursor mode result line col index st) c /\
        at_index c < String.length code /\
        identify (rules_of grammar (at_mode c)) (drop (at_index c) code)
          (take (at_index c) code) (at_result c) MUndefined (at_state c)
          = (None, st') /\
        e = mkLexError (at_mode c) (at_line c) (at_col c)
              (error_msg code (at_index c)).
Proof.
  intros mode result line col index st out st' H.
  induction H as
    [ mode result line col index st Hge
    | mode result line col index st st1 Hlt Hid
    | mode result line col index st type token st1 Hlt Hid
    | mode result line col index st type token matchType st1 out st' Hlt Hid
        Hnp Hent Hrest IH
    | mode result line col index st type token matchType st1 m how' inner st2
        out st' Hlt Hid Hent Hin IHin tok Hrest IH
    | mode result line col index st type token matchType st1 m e0 st2
        Hlt Hid Hent Hin IHin ];
    intros e Hout; try discriminate.
  - injection Hout as <-. exists (mkCursor mode result line col index st).
    split; [apply Visits_here|]. auto.
  - destruct (IH e Hout) as (c & Hv & Hrestc).
    exists c. split; [|exact Hrestc]. eapply Visits_next; eassumption.
  - destruct (IH e Hout) as (c & Hv & Hrestc).
    exists c. split; [|exact Hrestc]. eapply Visits_after; eassumption.
  - destruct (IHin e Hout) as (c & Hv & Hrestc).
    exists c. split; [|exact Hrestc]. eapply Visits_inside; eassumption.
Qed.

(** ** The line and the column of a cursor *)

Lemma Visits_placed grammar code :
  anchored_grammar grammar ->
  opens_in_line grammar ->
  forall c0 c,
    Visits grammar code c0 c ->
    at_index c0 <= String.length code ->
    at_line c0 = line_at (take (at_index c0) code) ->
    at_col c0 = col_at (take (at_index c0) code) ->
    at_line c = line_at (take (at_index c) code) /\
    at_col c = col_at (take (at_index c) code).
Proof.
  intros Hg Ho c0 c H.
  induction H as
    [ c
    | mode result line col index st type token matchType st1 c Hlt Hid Hnp Hent
        Hrest IH
    | mode result line col index st type token matchType st1 m c Hlt Hid Hent
        Hin IH
    | mode result line col index st type token matchType st1 m how inner st2 c
        Hlt Hid Hent Hinner tok Hrest IH ];
    cbn [at_mode at_result at_line at_col at_index at_state] in *;
    intros Hle Hline Hcol.
  - split; assumption.
  - destruct (anchored_slice _ _ _ _ _ _ _ _ _ _ _ Hg Hlt Hid) as [Htok Hlen].
    destruct (advance_slice code index (String.length token) line col Hline Hcol)
      as [Hl' Hc'].
    rewrite <- Htok in Hl', Hc'. exact (IH Hlen Hl' Hc').
  - destruct (anchored_slice _ _ _ _ _ _ _ _ _ _ _ Hg Hlt Hid) as [Htok Hlen].
    pose proof (identify_keeps St (fun _ => True) enters_on_one_line
                  (fun t C => False_ind _ (C eq_refl)) _ _ _ _
                  (rules_of_opens_in_line St grammar mode Ho _ _ _)
                  st I _ _ Hid) as [_ Hq].
    cbv beta iota in Hq. unfold enters_on_one_line in Hq.
    assert (Hone : count_nl token = 0) by (apply Hq; congruence).
    pose proof (advance_one_line line col token Hone) as Hadv.
    destruct (advance_slice code index (String.length token) line col Hline Hcol)
      as [Hl1 Hc1].
    rewrite <- Htok, Hadv in Hl1, Hc1. simpl in Hl1, Hc1.
    exact (IH Hlen Hl1 Hc1).
  - destruct (anchored_slice _ _ _ _ _ _ _ _ _ _ _ Hg Hlt Hid) as [Htok Hlen].
    destruct (Lexes_consumed St grammar code Hg _ _ _ _ _ _ _ _ Hinner Hlen
                how inner eq_refl) as (new_i & ki & Hi & Hjoin_i & Hki & _).
    simpl in Hi. subst new_i.
    assert (Htext : text tok = take (String.length token + ki) (drop index code)).
    { subst tok. simpl. rewrite join_tokens_cons, Hjoin_i. simpl.
      rewrite Htok at 1. apply take_slices. }
    assert (Hlen_tok : String.length (text tok) = String.length token + ki).
    { rewrite Htext. apply length_take_within. lia. }
    assert (Hle' : index + String.length (text tok) <= String.length code) by lia.
    destruct (advance_slice code index (String.length token + ki) line col
                Hline Hcol) as [Hl' Hc'].
    rewrite <- Htext, <- Hlen_tok in Hl', Hc'.
    exact (IH Hle' Hl' Hc').
Qed.

(** C8.  When the run of [lex(grammar, code, mode)] comes to a cursor, in
    the invocation itself or in one it has started for a sub-mode, where no
    rule of the mode of that cursor matches, the call throws: the error
    reaches the caller through every enclosing invocation and is made of
    the mode, the line and the column of that cursor and of a message
    text.  The text is, with carriage returns and line feeds escaped,
    [shown_before] characters that precede the offset (ten of them from the
    tenth offset on), the marker, and the twenty characters from the offset
    on, or as many as are left, starting with the character no rule
    matched; it is bounded.  Over a grammar whose rules match at the cursor
    and enter modes within a line, the line and the column of the error are
    those of the offset in the code.  No other error is thrown: every
    error of a call of [lex] is the error of a cursor of its run where no
    rule of the mode matched. *)
Theorem lex_unknown_token grammar code mode st c st1 :
  Visits grammar code (mkCursor (start_mode grammar mode) [] 1 1 0 st) c ->
  at_index c < String.length code ->
  identify (rules_of grammar (at_mode c)) (drop (at_index c) code)
    (take (at_index c) code) (at_result c) MUndefined (at_state c) = (None, st1) ->
  lex grammar code mode st =
    (Throw (mkLexError (at_mode c) (at_line c) (at_col c)
              (error_msg code (at_index c))), st1)
  /\ error_msg code (at_index c) =
     escape_newlines
       (drop (at_index c - shown_before (String.length code) (at_index c))
             (take (at_index c) code)
        ++ marker ++ take 20 (drop (at_index c) code))
  /\ (exists ch rest,
        String.get (at_index c) code = Some ch /\
        take 20 (drop (at_index c) code) = String ch rest)
  /\ String.length (error_msg code (at_index c))
     <= 2 * (10 + String.length marker + 20)
  /\ (anchored_grammar grammar -> opens_in_line grammar ->
      at_line c = line_at (take (at_index c) code) /\
      at_col c = col_at (take (at_index c) code))
  /\ (forall code0 mode0 st0 e st',
        lex grammar code0 mode0 st0 = (Throw e, st') ->
        exists c',
          Visits grammar code0 (mkCursor (start_mode grammar mode0) [] 1 1 0 st0) c' /\
          at_index c' < String.length code0 /\
          identify (rules_of grammar (at_mode c')) (drop (at_index c') code0)
            (take (at_index c') code0) (at_result c') MUndefined (at_state c')
            = (None, st') /\
          e = mkLexError (at_mode c') (at_line c') (at_col c')
                (error_msg code0 (at_index c'))).
Proof.
  intros Hv Hlt Hnone.
  split; [|split; [|split; [|split; [|split]]]].
  - pose proof (Visits_throws grammar code _ _ Hv st1 Hlt Hnone) as Ht.
    cbn [at_mode at_result at_line at_col at_index at_state] in Ht.
    destruct (lex grammar code mode st) as [out st'] eqn:E.
    apply lex_from_run in E.
    destruct (Lexes_functional grammar code _ _ _ _ _ _ _ _ Ht _ _ E) as [-> ->].
    reflexivity.
  - apply error_msg_text. lia.
  - apply get_drop. exact Hlt.
  - apply length_error_msg. lia.
  - intros Hg Ho.
    exact (Visits_placed grammar code Hg Ho _ _ Hv (Nat.le_0_l _) eq_refl eq_refl).
  - intros code0 mode0 st0 e st' H. apply lex_from_run in H.
    exact (Lexes_throw_visits grammar code0 _ _ _ _ _ _ _ _ H e eq_refl).
Qed.

End WithGrammarState.
End LexErrors.

(* ================================================================== *)
(** * The error on sample inputs *)
(* ================================================================== *)
Module LexErrorScenarios.
Import Lex LexHtmlJs LexTrace Samples.

Ltac next_token :=
  eapply Visits_next;
  [simpl; lia | vm_compute; reflexivity | discriminate | reflexivity | ].

Ltac into_mode :=
  eapply Visits_inside;
  [simpl; lia | vm_compute; reflexivity | reflexivity | ].

(** Scenario 4 of the specification: after [let], a space and [x], no rule
    of [js] matches [#] at offset 5; the call throws with line 1 and column
    6.  In [`<a ?] the mode [templateTag], entered from [template], itself
    entered from [js], has no rule for [?]; the error reaches the caller of
    [lex]. *)
Lemma lex_unknown_token_witness :
  lex htmljs "let x#" (Some "js") loaded =
    (Throw (mkLexError "js" 1 6 "et x⚠️#"), loaded) /\
  lex htmljs "`<a ?" (Some "js") loaded =
    (Throw (mkLexError "templateTag" 1 5 "`<a ⚠️?"), mkDepths 0 1).
Proof.
  split.
  - refine (proj1 (LexErrors.lex_unknown_token Depths htmljs "let x#" (Some "js")
                     loaded
                     (mkCursor "js"
                        [tok "let" "keyword" "js" 1 1;
                         tok " " "whitespace" "js" 1 4;
                         tok "x" "identifier" "js" 1 5] 1 6 5 loaded)
                     loaded _ _ _)).
    + next_token. next_token. next_token. apply Visits_here.
    + simpl. lia.
    + vm_compute. reflexivity.
  - refine (proj1 (LexErrors.lex_unknown_token Depths htmljs "`<a ?" (Some "js")
                     loaded
                     (mkCursor "templateTag"
                        [tok " " "whitespace" "templateTag" 1 4] 1 5 4
                        (mkDepths 0 1))
                     (mkDepths 0 1) _ _ _)).
    + into_mode. into_mode. next_token. apply Visits_here.
    + simpl. lia.
    + vm_compute. reflexivity.
Defined.

End LexErrorScenarios.

(* ================================================================== *)
(** * The further properties on sample inputs *)
(* ================================================================== *)
Module MoreScenarios.
Import Lex LexHtmlJs LexSpec LexMoreSpec Fregex ExpectJs ExpectSpec.
Import Samples MoreSamples.

(** [import "./a.js"] rewritten for the directory [C:/d]. *)
Lemma rewriteImports_elementwise_witness :
  Forall2 (left_for "C:/d") import_a import_a_rewritten /\
  length import_a_rewritten = length import_a /\
  Forall2 (fun t item =>
             startsWith (JsString.slice (text t) 1 (-1)) "http://" = true \/
             startsWith (JsString.slice (text t) 1 (-1)) "https://" = true ->
             item = Kept t) import_a import_a_rewritten.
Proof.
  apply (ExpectFacts.rewriteImports_elementwise import_a "C:/d" import_a_rewritten).
  vm_compute. reflexivity.
Defined.

Lemma rewriteImports_statement_witness :
  rewriteImports (import1 :: [space7] ++ path8 :: []) "C:/d" =
  prepend (Kept import1 :: map Kept [space7] ++ [rewrite "C:/d" path8]
             ++ map Kept (firstn 1 []))
    (rewriteImports (skipn 1 []) "C:/d").
Proof.
  apply (ExpectFacts.rewriteImports_statement "C:/d" import1 [space7] path8 []).
  - left. reflexivity.
  - discriminate.
  - reflexivity.
  - reflexivity.
Defined.

(** [import] and a space, with nothing after them. *)
Lemma rewriteImports_dangling_import_witness :
  isImport (import1 :: [space7]) = TypeError /\
  rewriteImports (import1 :: [space7]) "C:/d" = Thrown.
Proof.
  apply (ExpectFacts.rewriteImports_dangling_import "C:/d" import1 [space7]).
  - left. reflexivity.
  - reflexivity.
Defined.

Lemma lex_tokens_shaped_witness :
  exists toks st',
    lex htmljs two_lines (Some "js") loaded = (Return EndOfInput toks, st') /\
    Forall (Shaped htmljs "js") toks.
Proof.
  eexists. eexists. split; [vm_compute; reflexivity|].
  match goal with
  | |- Forall _ ?t =>
      assert (E : lex htmljs two_lines (Some "js") loaded
                  = (Return EndOfInput t, mkDepths 0 0))
        by (vm_compute; reflexivity)
  end.
  exact (LexMore.lex_tokens_shaped Depths htmljs _ _ _ _ _ _ E).
Defined.

Lemma lex_reading_order_witness :
  exists toks st',
    lex htmljs two_lines (Some "js") loaded = (Return EndOfInput toks, st') /\
    StronglySorted before toks.
Proof.
  eexists. eexists. split; [vm_compute; reflexivity|].
  match goal with
  | |- StronglySorted _ ?t =>
      assert (E : lex htmljs two_lines (Some "js") loaded
                  = (Return EndOfInput t, mkDepths 0 0))
        by (vm_compute; reflexivity)
  end.
  exact (LexMore.lex_reading_order Depths htmljs _ _ _ _ _ _ E).
Defined.

(** The mode [zz] is not a mode of the grammar; at the end of the code
    the call returns all the same. *)
Lemma lex_without_rules_witness :
  lex_from literal_x "x" (Some "zz") [a1] 1 2 1 tt = (Return EndOfInput [a1], tt) /\
  lex_from literal_x "x" (Some "zz") [] 1 1 0 tt =
  (Throw (mkLexError "zz" 1 1 (error_msg "x" 0)), tt).
Proof.
  split.
  - refine (proj1 (LexMore.lex_without_rules unit literal_x "x" (Some "zz")
                     [a1] 1%Z 2%Z 1 tt) _).
    simpl. lia.
  - refine (proj2 (LexMore.lex_without_rules unit literal_x "x" (Some "zz")
                     [] 1%Z 1%Z 0 tt) _ _).
    + reflexivity.
    + simpl. lia.
Defined.

(** The token [x] of mode [a] is taken as one that enters mode [b]. *)
Lemma identify_keeps_directive_witness :
  identify (rules_of leaking "a") "x" "" [] MUndefined tt
    = (Some ("x", "x", MMode "b"), tt) /\
  (MMode "b" = MMode "b" /\ tt = tt).
Proof.
  split; [reflexivity|].
  apply (LexMore.identify_keeps_directive unit names_mode "f"
           [("x", [PString "x"])] "x" "" [] tt (MMode "b") tt "x" "x"
           (MMode "b") tt).
  - reflexivity.
  - repeat constructor.
  - reflexivity.
Defined.

Lemma lexHtmlJs_lossless_witness :
  exists toks st',
    lex htmljs two_lines (Some "js") loaded = (Return EndOfInput toks, st') /\
    join_tokens toks = two_lines.
Proof.
  eexists. eexists. split; [vm_compute; reflexivity|].
  match goal with
  | |- join_tokens ?t = _ =>
      assert (E : lex htmljs two_lines (Some "js") loaded
                  = (Return EndOfInput t, mkDepths 0 0))
        by (vm_compute; reflexivity)
  end.
  exact (proj2 (HtmlJsMore.lexHtmlJs_lossless false _ _ _ _ _ _ E) eq_refl).
Defined.

Lemma lexHtmlJs_positions_witness :
  exists toks st',
    lex htmljs two_lines (Some "js") loaded = (Return EndOfInput toks, st') /\
    Forall (placed two_lines) (emitted 0 toks).
Proof.
  eexists. eexists. split; [vm_compute; reflexivity|].
  match goal with
  | |- Forall _ (emitted 0 ?t) =>
      assert (E : lex htmljs two_lines (Some "js") loaded
                  = (Return EndOfInput t, mkDepths 0 0))
        by (vm_compute; reflexivity)
  end.
  exact (HtmlJsMore.lexHtmlJs_positions false _ _ _ _ _ _ E).
Defined.

Lemma lexHtmlJs_js_without_template_witness :
  exists toks st',
    lex htmljs plain_js (Some "js") loaded = (Return EndOfInput toks, st') /\
    templateDepth st' = 0%Z /\
    join_tokens toks = plain_js /\ Forall flat toks.
Proof.
  eexists. eexists. split; [vm_compute; reflexivity|].
  match goal with
  | |- _ /\ _ /\ Forall _ ?t =>
      assert (E : lex htmljs plain_js (Some "js") loaded
                  = (Return EndOfInput t, mkDepths 0 0))
        by (vm_compute; reflexivity)
  end.
  destruct (HtmlJsMore.lexHtmlJs_js_without_template false plain_js loaded _ _
              eq_refl eq_refl E) as [D [_ [J F]]].
  split; [exact D|]. split; [exact J | exact F].
Defined.

End MoreScenarios.

(* ================================================================== *)
(** * Facts about [findExpects] *)
(* ================================================================== *)
Module ExpectFindFacts.
Import Lex RegExp ExpectFind ExpectFindSpec JsStringFacts Samples.

(** ** Lines *)

Lemma split_lines_nonempty (s : string) : split_lines s <> [].
Proof.
  induction s as [|c s IH]; simpl; [discriminate|].
  destruct (Ascii.eqb c LF); [discriminate|].
  destruct (Ascii.eqb c CR && _); [exact IH|].
  destruct (split_lines s); discriminate.
Qed.

Lemma length_split_lines (s : string) :
  length (split_lines s) = S (count_nl s).
Proof.
  induction s as [|c s IH]; simpl; [reflexivity|].
  destruct (Ascii.eqb c LF) eqn:E; simpl; [now rewrite IH|].
  destruct (Ascii.eqb c CR && _); [exact IH|].
  destruct (split_lines s) as [|first others]; [discriminate IH | exact IH].
Qed.

Lemma split_lines_one (s : string) : count_nl s = 0 -> split_lines s = [s].
Proof.
  induction s as [|c s IH]; simpl; [reflexivity|].
  destruct (Ascii.eqb c LF) eqn:E; [discriminate|]. simpl. intros H.
  destruct s as [|c' s'].
  - rewrite andb_false_r. reflexivity.
  - assert (E' : Ascii.eqb c' LF = false).
    { simpl in H. destruct (Ascii.eqb c' LF); [discriminate | reflexivity]. }
    rewrite E', andb_false_r. now rewrite (IH H).
Qed.

Lemma count_nl_take_le (n : nat) (s : string) : count_nl (take n s) <= count_nl s.
Proof.
  rewrite <- (take_drop n s) at 2. rewrite count_nl_app. lia.
Qed.

Lemma count_nl_drop_le (n : nat) (s : string) : count_nl (drop n s) <= count_nl s.
Proof.
  rewrite <- (take_drop n s) at 2. rewrite count_nl_app. lia.
Qed.

Lemma count_nl_slice_le (s : string) (a b : Z) :
  count_nl (JsString.slice s a b) <= count_nl s.
Proof.
  unfold JsString.slice. cbv zeta.
  etransitivity; [apply count_nl_take_le | apply count_nl_drop_le].
Qed.

Lemma startsWith_refl (s : string) : startsWith s s = true.
Proof.
  unfold startsWith. induction s as [|c s IH]; simpl; [reflexivity|].
  destruct (ascii_dec c c) as [_|ne]; [exact IH | contradiction].
Qed.

Lemma startsWith_append (s p x : string) :
  startsWith s p = true -> startsWith (s ++ x) p = true.
Proof.
  unfold startsWith. revert s; induction p as [|c p IH]; intros [|d s] H; simpl in *;
    try reflexivity; try discriminate.
  - now destruct x.
  - destruct (ascii_dec c d); [now apply IH | discriminate].
Qed.

(** ** Where an expect comes from *)

Lemma push_opened (token_line : Z) (all : list string) (Q : Expect -> Prop)
    expects expect :
  (forall e, opened_at token_line all e -> Q e) ->
  Forall Q expects ->
  (forall e, expect = Some e -> opened_at token_line all e) ->
  Forall Q (push expects expect).
Proof.
  intros HQ He Hx. destruct expect as [e|]; simpl; [|exact He].
  apply Forall_app. split; [exact He|].
  constructor; [apply HQ; now apply Hx | constructor].
Qed.

Lemma scan_opened (token_line : Z) (all : list string) (Q : Expect -> Prop) :
  (forall e, opened_at token_line all e -> Q e) ->
  forall lines done i expect expects,
    all = (done ++ lines)%list ->
    i = length done ->
    Forall Q expects ->
    (forall e, expect = Some e -> opened_at token_line all e) ->
    Forall Q (scan token_line lines i expect expects).
Proof.
  intros HQ.
  induction lines as [|line lines IH]; intros done i expect expects Hall Hi He Hx.
  - simpl. now apply (push_opened token_line all).
  - cbn [scan]. cbv zeta.
    assert (Hall' : all = ((done ++ [line]) ++ lines)%list)
      by (rewrite <- app_assoc; exact Hall).
    assert (Hi' : S i = length (done ++ [line])%list)
      by (rewrite length_app; simpl; lia).
    destruct (0 <? regexIndexOf line false tag None)%Z eqn:Hidx.
    + apply Z.ltb_lt in Hidx.
      apply (IH _ _ _ _ Hall' Hi'); [now apply (push_opened token_line all)|].
      intros e Hsome.
      destruct (includes line "@expect") eqn:Hinc; [|discriminate].
      injection Hsome as <-. exists i, line. cbn [expect_code expect_line expect_col].
      repeat split; try lia.
      * rewrite Hall, Hi, nth_error_app2, Nat.sub_diag; [reflexivity | lia].
      * exact Hinc.
      * rewrite Z2Nat.inj_add by lia. apply startsWith_refl.
    + apply (IH _ _ _ _ Hall' Hi'); [exact He|].
      intros e' Hsome. destruct expect as [e|]; [|discriminate].
      injection Hsome as <-.
      destruct (Hx e eq_refl) as (j & l & Hn & Hinc & Hl & Hc & Hs).
      exists j, l. cbn [expect_code expect_line expect_col].
      repeat split; try assumption. now apply startsWith_append.
Qed.

Lemma opened_at_line (token_line : Z) (all : list string) (e : Expect) :
  opened_at token_line all e ->
  (token_line <= expect_line e < token_line + Z.of_nat (length all))%Z.
Proof.
  intros (i & l & Hn & _ & Hl & _).
  assert (i < length all) by (apply nth_error_Some; congruence). lia.
Qed.

Lemma find_in_found (seen : list Token) (token : Token) (expects : list Expect) :
  Forall (fun e => exists t, In t seen /\ found_in t e) expects ->
  Forall (fun e => exists t, In t (seen ++ [token]) /\ found_in t e)
         (find_in expects token).
Proof.
  intros He.
  assert (Hold : Forall (fun e => exists t, In t (seen ++ [token]) /\ found_in t e)
                        expects).
  { eapply Forall_impl; [|exact He]. intros e (t & Ht & Hf).
    exists t. split; [apply in_or_app; now left | exact Hf]. }
  unfold find_in.
  destruct (String.eqb (type token) "comment" && startsWith (text token) "/**")
    eqn:C; [|exact Hold].
  apply andb_prop in C. destruct C as [Ct Cs]. apply String.eqb_eq in Ct.
  apply (scan_opened (Lex.line token)
           (split_lines (JsString.slice (text token) 3 (-2))) _) with (done := []);
    try reflexivity; try exact Hold; [|discriminate].
  intros e Ho. exists token. split; [apply in_or_app; right; now left|].
  repeat split; try assumption.
  - apply opened_at_line in Ho. lia.
  - apply opened_at_line in Ho. rewrite length_split_lines in Ho.
    pose proof (count_nl_slice_le (text token) 3 (-2)). lia.
Qed.

Lemma fold_find_in_found (tokens : list Token) :
  forall seen expects,
    Forall (fun e => exists t, In t seen /\ found_in t e) expects ->
    Forall (fun e => exists t, In t (seen ++ tokens) /\ found_in t e)
           (fold_left find_in tokens expects).
Proof.
  induction tokens as [|token tokens IH]; intros seen expects He; simpl.
  - now rewrite app_nil_r.
  - replace (seen ++ token :: tokens)%list with ((seen ++ [token]) ++ tokens)%list
      by (now rewrite <- app_assoc).
    apply IH. now apply find_in_found.
Qed.

(** X24.  Every expect that [findExpects] returns comes from a token of
    the array that has the type [comment] and starts with [/**]: a line of
    that comment with [@expect] opened it, the expect is reported on the
    line of the file that holds that line (the line of the token plus the
    index of the line in the comment, so within the lines of the token), at
    a column of 8 or more, and its code starts with the rest of that line
    from that column on. *)
Theorem findExpects_found (tokens : list Token) :
  Forall (fun e => exists token, In token tokens /\ found_in token e)
         (findExpects tokens).
Proof.
  exact (fold_find_in_found tokens [] [] (Forall_nil _)).
Qed.

(** ** A tag at the start of a line *)

Lemma star_greedy_some icase (r : Re) (input : string) (pos : nat) :
  m icase (Star true r) input pos (fun e => Some e) <> None.
Proof.
  simpl. generalize (String.length input - pos). intros n.
  destruct n; simpl; [discriminate|].
  match goal with |- match ?x with _ => _ end <> _ => destruct x end; discriminate.
Qed.

Lemma tag_at_start (c : ascii) (w : string) :
  is_word c = true ->
  regexIndexOf (String "@" (String c w)) false tag None = 0%Z.
Proof.
  intros Hc. unfold regexIndexOf, search. cbv zeta. cbn [drop String.length seq].
  cbn [search_from].
  assert (M : m false tag (String "@" (String c w)) 0 (fun e => Some e) <> None).
  { change (m false tag (String "@" (String c w)) 0 (fun e => Some e))
      with (if xorb false (class_has false [CChar "@"] "@")
            then if xorb false (class_has false [CWord] c)
                 then m false (Star true (Class false [CWord]))
                        (String "@" (String c w)) 2 (fun e => Some e)
                 else None
            else None).
    replace (class_has false [CChar "@"] "@") with true by reflexivity.
    replace (class_has false [CWord] c) with true
      by (cbn [class_has existsb atom_has andb orb]; now rewrite Hc).
    cbn [xorb]. apply star_greedy_some. }
  destruct (m false tag (String "@" (String c w)) 0 (fun e => Some e));
    [reflexivity | contradiction].
Qed.

(** X25.  A tag at the very start of a line is not seen as a tag (line 84
    asks for an index above 0).  Such a line neither closes the expect
    that is open nor opens one: it is added to the code of the open expect
    like any other line.  So a comment of one line that starts with the
    tag, as [/**@expect ...*/], gives no expect. *)
Theorem findExpects_tag_at_start (c : ascii) (w : string) :
  is_word c = true ->
  (forall token_line lines i expect expects,
     scan token_line (String "@" (String c w) :: lines) i expect expects =
     scan token_line lines (S i)
       (match expect with
        | Some e =>
            Some (mkExpect
                    (expect_code e ++ CRLF
                     ++ replace false leading_star (String "@" (String c w)) " ")
                    (expect_line e) (expect_col e))
        | None => None
        end) expects) /\
  (count_nl w = 0 ->
   forall token,
     text token = "/**@" ++ String c w ++ "*/" ->
     findExpects [token] = []).
Proof.
  intros Hc.
  assert (S1 : forall token_line lines i expect expects,
     scan token_line (String "@" (String c w) :: lines) i expect expects =
     scan token_line lines (S i)
       (match expect with
        | Some e =>
            Some (mkExpect
                    (expect_code e ++ CRLF
                     ++ replace false leading_star (String "@" (String c w)) " ")
                    (expect_line e) (expect_col e))
        | None => None
        end) expects).
  { intros. cbn [scan]. cbv zeta. rewrite (tag_at_start c w Hc). reflexivity. }
  split; [exact S1|].
  intros Hw token Ht.
  assert (Hlf : Ascii.eqb c LF = false).
  { destruct (Ascii.eqb c LF) eqn:E; [|reflexivity].
    apply Ascii.eqb_eq in E. subst c. discriminate Hc. }
  unfold findExpects. cbn [fold_left]. unfold find_in.
  destruct (String.eqb (type token) "comment" && startsWith (text token) "/**");
    [|reflexivity].
  assert (B : JsString.slice (text token) 3 (-2) = String "@" (String c w)).
  { rewrite Ht. unfold JsString.slice. cbv zeta.
    change ("/**@" ++ String c w ++ "*/") with ("/**" ++ (String "@" (String c w) ++ "*/")).
    rewrite !length_append.
    change (String.length "/**") with 3. change (String.length "*/") with 2.
    set (n := String.length (String "@" (String c w))).
    replace (3 <? 0)%Z with false by reflexivity.
    replace (-2 <? 0)%Z with true by reflexivity.
    replace (Z.to_nat (Z.min 3 (Z.of_nat (3 + (n + 2))))) with 3 by lia.
    replace (Z.to_nat (Z.max (Z.of_nat (3 + (n + 2)) + -2) 0
                       - Z.min 3 (Z.of_nat (3 + (n + 2))))) with n by lia.
    change (drop 3 ("/**" ++ (String "@" (String c w) ++ "*/")))
      with (String "@" (String c w) ++ "*/").
    apply take_app_length. }
  rewrite B. rewrite split_lines_one.
  - rewrite S1. reflexivity.
  - simpl. rewrite Hlf. exact Hw.
Qed.

(** ** A line that opens an expect *)

Lemma m_tag_at (input : string) (s : nat) (k : nat -> option nat) :
  m false tag input s k =
  match String.get s input with
  | Some c0 =>
      if xorb false (class_has false [CChar "@"] c0)
      then m false (Plus (Class false [CWord])) input (S s) k
      else None
  | None => None
  end.
Proof. reflexivity. Qed.

Lemma includes_at_false (pre : string) :
  includes pre "@" = false ->
  forall s c0, String.get s pre = Some c0 -> class_has false [CChar "@"] c0 = false.
Proof.
  induction pre as [|a pre IH]; intros H s c0 G; [discriminate|].
  cbn [includes] in H. apply orb_false_elim in H. destruct H as [Ha Hp].
  destruct s as [|s]; simpl in G.
  - injection G as <-. unfold startsWith in Ha. simpl in Ha.
    cbn [class_has existsb atom_has andb orb].
    destruct (Ascii.eqb "@" a) eqn:E; [|reflexivity].
    apply Ascii.eqb_eq in E. subst a. simpl in Ha. now destruct pre.
  - exact (IH Hp s c0 G).
Qed.

Lemma get_append_left (pre x : string) (s : nat) :
  s < String.length pre -> String.get s (pre ++ x) = String.get s pre.
Proof.
  revert s; induction pre as [|a pre IH]; intros s H; simpl in H; [lia|].
  destruct s as [|s]; simpl; [reflexivity | apply IH; lia].
Qed.

Lemma get_append_right (pre x : string) (j : nat) :
  String.get (String.length pre + j) (pre ++ x) = String.get j x.
Proof. induction pre as [|a pre IH]; simpl; [reflexivity | exact IH]. Qed.

Lemma get_lt_some (s : string) :
  forall i, i < String.length s -> exists c, String.get i s = Some c.
Proof.
  induction s as [|a s IH]; intros i H; simpl in H; [lia|].
  destruct i as [|i]; simpl; [now exists a | apply IH; lia].
Qed.

Lemma search_from_skip (r : Re) (input : string) (n : nat) :
  forall a k,
    (forall s, a <= s < a + n -> m false r input s (fun e => Some e) = None) ->
    search_from false r input (seq a (n + k)) =
    search_from false r input (seq (a + n) k).
Proof.
  induction n as [|n IH]; intros a k H.
  - now rewrite Nat.add_0_r.
  - cbn [Nat.add seq search_from]. rewrite (H a) by lia.
    rewrite IH; [f_equal; f_equal; lia|]. intros s Hs. apply H. lia.
Qed.

Lemma tag_after (pre rest : string) (c : ascii) :
  includes pre "@" = false ->
  is_word c = true ->
  regexIndexOf (pre ++ String "@" (String c rest)) false tag None
  = Z.of_nat (String.length pre).
Proof.
  intros Hpre Hc. unfold regexIndexOf, search. cbv zeta. cbn [drop].
  set (input := pre ++ String "@" (String c rest)).
  assert (L : S (String.length input)
              = String.length pre + S (S (S (String.length rest))))
    by (unfold input; rewrite length_append; simpl; lia).
  rewrite L, search_from_skip.
  - cbn [Nat.add seq search_from].
    assert (M : m false tag input (String.length pre) (fun e => Some e) <> None).
    { rewrite m_tag_at. unfold input.
      rewrite <- (Nat.add_0_r (String.length pre)) at 1.
      rewrite get_append_right. cbn [String.get].
      replace (class_has false [CChar "@"] "@") with true by reflexivity.
      cbn [xorb]. unfold Plus. cbn [m].
      replace (String.get (S (String.length pre)) (pre ++ String "@" (String c rest)))
        with (Some c)
        by (rewrite <- (Nat.add_1_r (String.length pre)), get_append_right;
            reflexivity).
      replace (class_has false [CWord] c) with true
        by (cbn [class_has existsb atom_has andb orb]; now rewrite Hc).
      cbn [xorb]. apply (star_greedy_some false (Class false [CWord])). }
    destruct (m false tag input (String.length pre) (fun e => Some e));
      [|contradiction].
    replace (0 <=? Z.of_nat (String.length pre))%Z with true
      by (symmetry; apply Z.leb_le; lia).
    lia.
  - intros s Hs. rewrite m_tag_at. unfold input.
    rewrite get_append_left by lia.
    destruct (get_lt_some pre s ltac:(lia)) as [c0 G]. rewrite G.
    now rewrite (includes_at_false pre Hpre s c0 G).
Qed.

Lemma includes_after (pre s sub : string) :
  startsWith s sub = true -> includes (pre ++ s) sub = true.
Proof.
  intros H. induction pre as [|a pre IH]; cbn [append].
  - destruct s; cbn [includes]; rewrite H; reflexivity.
  - cbn [includes]. rewrite IH. apply orb_true_r.
Qed.

(** X26.  A line that has at least one character and no [@] before its
    [@expect] opens an expect: its code is what the line has after
    [@expect], its line is the line of the token plus the index of the line
    in the comment, its column is the offset of the tag plus 7.  The expect
    that was open before is closed and pushed. *)
Theorem findExpects_opens (pre rest : string) :
  pre <> "" ->
  includes pre "@" = false ->
  forall token_line lines i expect expects,
    scan token_line ((pre ++ "@expect" ++ rest) :: lines) i expect expects =
    scan token_line lines (S i)
      (Some (mkExpect rest (token_line + Z.of_nat i)
                      (Z.of_nat (String.length pre) + 7)))
      (push expects expect).
Proof.
  intros Hne Hpre token_line lines i expect expects.
  cbn [scan]. cbv zeta.
  change (pre ++ "@expect" ++ rest) with (pre ++ String "@" (String "e" ("xpect" ++ rest))).
  rewrite (tag_after pre ("xpect" ++ rest) "e" Hpre eq_refl).
  assert (0 < String.length pre) by (destruct pre; [contradiction | simpl; lia]).
  replace (0 <? Z.of_nat (String.length pre))%Z with true
    by (symmetry; apply Z.ltb_lt; lia).
  rewrite (includes_after pre (String "@" (String "e" ("xpect" ++ rest))) "@expect")
    by (unfold startsWith; simpl; now destruct rest).
  rewrite Nat2Z.id.
  replace (drop (String.length pre + 7)
             (pre ++ String "@" (String "e" ("xpect" ++ rest)))) with rest.
  - reflexivity.
  - rewrite <- drop_drop, drop_app_length. reflexivity.
Qed.

(** The line [ * @expect 1] of a comment that starts on line 5. *)
Lemma findExpects_opens_witness :
  scan 5 ((" * " ++ "@expect" ++ " 1") :: []) 0 None [] =
  scan 5 [] 1
    (Some (mkExpect " 1" (5 + Z.of_nat 0) (Z.of_nat (String.length " * ") + 7)))
    (push [] None).
Proof.
  apply (findExpects_opens " * " " 1").
  - discriminate.
  - reflexivity.
Defined.

(** The comment [/**@expect 1 //= 1*/]. *)
Lemma findExpects_tag_at_start_witness :
  findExpects [tok ("/**@" ++ String "e" "xpect 1 //= 1" ++ "*/") "comment" "js" 1 1]
  = [].
Proof.
  refine (proj2 (findExpects_tag_at_start "e" "xpect 1 //= 1" _) _ _ _);
    reflexivity.
Defined.

End ExpectFindFacts.
